(** * Van routing optimisation: a shallow embedding of [routing_optimization.py]

    The development follows the Python module top to bottom:
    - [Heapq]: the two [heapq] entry points the module calls ([heapify] and
      [heappop]), over lists used as arrays, with their sift loops;
    - [VanRouter]: the router object as a record, [__init__],
      [find_nearest_valid_move] and the [construct_route] loop;
    - [filter_invalid_input], [find_optimal_route_for_single_van] and
      [find_optimal_route_for_multiple_vans], with the warnings they log.

    Python integers are unbounded, hence [Z].  Exceptions are explicit: every
    function that can raise returns a [result].

    The module annotates a van as [tuple[int, int]], and the first embedding
    is of the program on such vans.  Its filter also lets vans with [float]
    capacity or fuel through; [NumVans] embeds the program again over Python
    numbers ([int] or binary64 [float]), where the fuel is rounded, may be
    infinite and its computation may raise [OverflowError].  On integer vans
    the two embeddings agree ([NumVansAgree]). *)

From Stdlib Require Import ZifyNat.
From Stdlib Require Import PrimFloat FloatOps SpecFloat.
From stdpp Require Import base tactics option list numbers relations sorting.

Local Open Scope Z_scope.

(** ** Exceptions and results *)

Inductive exn := IndexError | ValueError | StopIteration | OverflowError.

(** [OutOfFuel] is not a Python outcome: it marks a loop of the model that
    was cut before its guard became false. *)
Inductive result (A : Type) :=
  | Ok (a : A)
  | Raise (e : exn)
  | OutOfFuel.
Arguments Ok {A} a.
Arguments Raise {A} e.
Arguments OutOfFuel {A}.

#[global] Instance result_fmap : FMap result := λ A B f m,
  match m with
  | Ok a => Ok (f a)
  | Raise e => Raise e
  | OutOfFuel => OutOfFuel
  end.
#[global] Instance result_ret : MRet result := λ A a, Ok a.
#[global] Instance result_bind : MBind result := λ A B k m,
  match m with
  | Ok a => k a
  | Raise e => Raise e
  | OutOfFuel => OutOfFuel
  end.

(** ** heapq *)

(** The model follows the sift loops of CPython's [heapq] in their in-place
    exchange form (the one of the C accelerator, which leaves the same list as
    the hole-moving loops of [heapq.py]).  Indices are [nat]; a lookup outside
    the list, which the library never performs, leaves the list as it is. *)
Module Heapq.
Section heapq.
Context {A : Type} (ltb : A → A → bool).

Definition exchange (h : list A) (i j : nat) : list A :=
  match h !! i, h !! j with
  | Some a, Some b => <[j:=a]> (<[i:=b]> h)
  | _, _ => h
  end.

(** [_siftdown(heap, startpos, pos)]: follow the path to the root, moving
    parents down while the item is smaller. The position decreases at each
    turn, so [pos] turns are enough. *)
Fixpoint siftdown_loop (fuel : nat) (h : list A) (startpos pos : nat) : list A :=
  match fuel with
  | O => h
  | S fuel' =>
    if decide (startpos < pos)%nat then
      let parentpos := ((pos - 1) / 2)%nat in
      match h !! pos, h !! parentpos with
      | Some newitem, Some parent =>
        if ltb newitem parent
        then siftdown_loop fuel' (exchange h pos parentpos) startpos parentpos
        else h
      | _, _ => h
      end
    else h
  end.

Definition siftdown (h : list A) (startpos pos : nat) : list A :=
  siftdown_loop pos h startpos pos.

(** The smaller child of [pos]: the right one unless [left < right]. *)
Definition smaller_child (h : list A) (pos : nat) : nat :=
  let childpos := (2 * pos + 1)%nat in
  if decide (childpos + 1 < length h)%nat then
    match h !! childpos, h !! (childpos + 1)%nat with
    | Some a, Some b => if ltb a b then childpos else (childpos + 1)%nat
    | _, _ => childpos
    end
  else childpos.

(** First loop of [_siftup(heap, pos)]: bubble the smaller child up until a
    leaf is hit; returns the list and the leaf position. *)
Fixpoint siftup_loop (fuel : nat) (h : list A) (pos : nat) : list A * nat :=
  match fuel with
  | O => (h, pos)
  | S fuel' =>
    if decide (pos < length h / 2)%nat then
      let childpos := smaller_child h pos in
      siftup_loop fuel' (exchange h pos childpos) childpos
    else (h, pos)
  end.

Definition siftup (h : list A) (pos : nat) : list A :=
  let '(h', leaf) := siftup_loop (length h) h pos in
  siftdown h' pos leaf.

(** [heapify(x)]: [for i in reversed(range(n//2)): _siftup(x, i)]. *)
Definition heapify (x : list A) : list A :=
  foldl siftup x (reverse (seq 0 (length x / 2))).

(** [heappop(heap)]: [None] stands for the [IndexError] of popping from an
    empty list. *)
Definition heappop (heap : list A) : option (A * list A) :=
  match last heap with
  | None => None
  | Some lastelt =>
    match removelast heap with
    | [] => Some (lastelt, [])
    | returnitem :: rest =>
      Some (returnitem, siftup (lastelt :: rest) 0)
    end
  end.

(** [[heappop(heap) for _ in range(n)]], with the heap that is left. *)
Fixpoint heappop_n (n : nat) (heap : list A) : result (list A * list A) :=
  match n with
  | O => Ok ([], heap)
  | S n' =>
    match heappop heap with
    | None => Raise IndexError
    | Some (x, heap') =>
      '(xs, heap'') ← heappop_n n' heap';
      Ok (x :: xs, heap'')
    end
  end.
End heapq.
End Heapq.

(** ** Data model *)

(** A van is [(capacity, fuel per unit distance)], a package is
    [(pickup, delivery, weight)], a move of a route is
    [(location, action, weight)]. [Van] is the annotated [tuple[int, int]];
    vans over all Python numbers are [NumVans.Van]. *)
Abbreviation Van := (Z * Z)%type.
Abbreviation Package := (Z * Z * Z)%type.

Inductive action := Start | Pick | Drop | End.

#[global] Instance action_eq_dec : EqDecision action.
Proof. solve_decision. Defined.

Abbreviation Move := (Z * action * Z)%type.

Definition pickup_of (p : Package) : Z := p.1.1.
Definition delivery_of (p : Package) : Z := p.1.2.
Definition weight_of (p : Package) : Z := p.2.

(** Python's [<] on tuples of integers: the first position where the two
    tuples differ decides. *)
Definition lt3 (a b : Z * Z * Z) : bool :=
  let '(a1, a2, a3) := a in
  let '(b1, b2, b3) := b in
  if decide (a1 = b1) then
    if decide (a2 = b2) then bool_decide (a3 < b3) else bool_decide (a2 < b2)
  else bool_decide (a1 < b1).

(** The same on the [(distance, package)] pairs that [__init__] pushes. *)
Definition lt_entry (a b : Z * Package) : bool :=
  if decide (a.1 = b.1) then lt3 a.2 b.2 else bool_decide (a.1 < b.1).

(** [list.remove(x)]: drops the first element equal to [x]; [None] stands
    for the [ValueError] raised when there is none. *)
Fixpoint list_remove {A} `{EqDecision A} (x : A) (l : list A) : option (list A) :=
  match l with
  | [] => None
  | y :: l' => if decide (x = y) then Some l' else (y ::.) <$> list_remove x l'
  end.

Definition or_raise {A} (e : exn) (o : option A) : result A :=
  match o with
  | Some a => Ok a
  | None => Raise e
  end.

(** ** distance *)

Definition distance (a b : Z) : Z := Z.abs (a - b).

(** ** VanRouter *)

Record VanRouter := mkVanRouter {
  van_capacity : Z;
  fuel_per_unit : Z;
  route : list Move;
  current_location : Z;
  total_distance : Z;
  total_fuel : Z;
  current_load : Z;
  picked_up_packages : Z;
  delivered_packages : Z;
  pickups : list (Z * Z);
  deliveries : list (Z * Z);
  not_completed : list Package;
  packages : list Package;
}.

(** [VanRouter.__init__]. *)
Definition VanRouter_init (van_stats : Van) (pkgs : list Package) : result VanRouter :=
  let '(capacity, fuel) := van_stats in
  let heap := Heapq.heapify lt_entry ((λ p, (distance 0 (pickup_of p), p)) <$> pkgs) in
  '(popped, heap) ← Heapq.heappop_n lt_entry (Nat.min 5 (length heap)) heap;
  let selected := snd <$> popped in
  Ok {| van_capacity := capacity;
        fuel_per_unit := fuel;
        route := [(0, Start, 0)];
        current_location := 0;
        total_distance := 0;
        total_fuel := 0;
        current_load := 0;
        picked_up_packages := 0;
        delivered_packages := 0;
        pickups := (λ p, (pickup_of p, weight_of p)) <$> selected;
        deliveries := [];
        not_completed := snd <$> heap;
        packages := selected |}.

(** [heapq.heappop(h) if h else None], after [heapq.heapify(h)]. *)
Definition nearest (h : list (Z * Z * Z)) : result (option (Z * Z * Z)) :=
  match Heapq.heapify lt3 h with
  | [] => Ok None
  | heap => '(x, _) ← or_raise IndexError (Heapq.heappop lt3 heap); Ok (Some x)
  end.

(** [VanRouter.find_nearest_valid_move]: [(distance, location, action, weight)]
    of the move, or [None]. *)
Definition find_nearest_valid_move (self : VanRouter)
    : result (option (Z * Z * action * Z)) :=
  let pickup_heap :=
    (λ lw, (distance (current_location self) lw.1, lw.1, lw.2)) <$>
    filter (λ lw, current_load self + lw.2 ≤ van_capacity self) (pickups self) in
  let delivery_heap :=
    (λ lw, (distance (current_location self) lw.1, lw.1, lw.2)) <$>
    deliveries self in
  nearest_pickup ← nearest pickup_heap;
  nearest_delivery ← nearest delivery_heap;
  match nearest_pickup, nearest_delivery with
  | Some (pd, pl, pw), None => Ok (Some (pd, pl, Pick, pw))
  | Some (pd, pl, pw), Some (dd, dl, dw) =>
    if decide (pd ≤ dd) then Ok (Some (pd, pl, Pick, pw))
    else Ok (Some (dd, dl, Drop, dw))
  | None, Some (dd, dl, dw) => Ok (Some (dd, dl, Drop, dw))
  | None, None => Ok None
  end.

(** [(loc, loc, weight) for loc, weight in l]. *)
Definition self_referential (l : list (Z * Z)) : list Package :=
  (λ lw, (lw.1, lw.1, lw.2)) <$> l.

(** The guard of the [while] of [construct_route]. *)
Definition active (self : VanRouter) : bool :=
  bool_decide (pickups self ≠ [] ∨ deliveries self ≠ []) &&
  bool_decide (picked_up_packages self + delivered_packages self < 10).

(** The [if not move] branch: both pending lists go to [not_completed], and
    the method returns. *)
Definition no_valid_move (self : VanRouter) : VanRouter :=
  {| van_capacity := van_capacity self;
     fuel_per_unit := fuel_per_unit self;
     route := route self;
     current_location := current_location self;
     total_distance := total_distance self;
     total_fuel := total_fuel self;
     current_load := current_load self;
     picked_up_packages := picked_up_packages self;
     delivered_packages := delivered_packages self;
     pickups := pickups self;
     deliveries := deliveries self;
     not_completed :=
       (not_completed self ++ self_referential (pickups self))
         ++ self_referential (deliveries self);
     packages := packages self |}.

(** [next(d for p, d, w in self.packages if p == loc)]. *)
Definition delivery_lookup (pkgs : list Package) (loc : Z) : option Z :=
  delivery_of <$> head (filter (λ p, pickup_of p = loc) pkgs).

(** The rest of the loop body, once a move was found. *)
Definition apply_move (self : VanRouter) (move : Z * Z * action * Z)
    : result VanRouter :=
  let '(dist, loc, act, weight) := move in
  let total_distance' := total_distance self + dist in
  let total_fuel' := total_fuel self + dist * fuel_per_unit self in
  let route' := route self ++ [(loc, act, weight)] in
  if decide (act = Pick) then
    pickups' ← or_raise ValueError (list_remove (loc, weight) (pickups self));
    delivery_loc ← or_raise StopIteration (delivery_lookup (packages self) loc);
    Ok {| van_capacity := van_capacity self;
          fuel_per_unit := fuel_per_unit self;
          route := route';
          current_location := loc;
          total_distance := total_distance';
          total_fuel := total_fuel';
          current_load := current_load self + weight;
          picked_up_packages := picked_up_packages self + 1;
          delivered_packages := delivered_packages self;
          pickups := pickups';
          deliveries := deliveries self ++ [(delivery_loc, weight)];
          not_completed := not_completed self;
          packages := packages self |}
  else
    deliveries' ← or_raise ValueError (list_remove (loc, weight) (deliveries self));
    Ok {| van_capacity := van_capacity self;
          fuel_per_unit := fuel_per_unit self;
          route := route';
          current_location := loc;
          total_distance := total_distance';
          total_fuel := total_fuel';
          current_load := current_load self - weight;
          picked_up_packages := picked_up_packages self;
          delivered_packages := delivered_packages self + 1;
          pickups := pickups self;
          deliveries := deliveries';
          not_completed := not_completed self;
          packages := packages self |}.

(** The code after the loop: back to the depot. *)
Definition return_to_depot (self : VanRouter) : VanRouter :=
  {| van_capacity := van_capacity self;
     fuel_per_unit := fuel_per_unit self;
     route := route self ++ [(0, End, 0)];
     current_location := current_location self;
     total_distance := total_distance self + distance (current_location self) 0;
     total_fuel :=
       total_fuel self + distance (current_location self) 0 * fuel_per_unit self;
     current_load := current_load self;
     picked_up_packages := picked_up_packages self;
     delivered_packages := delivered_packages self;
     pickups := pickups self;
     deliveries := deliveries self;
     not_completed :=
       (not_completed self ++ self_referential (pickups self))
         ++ self_referential (deliveries self);
     packages := packages self |}.

(** [VanRouter.construct_route], with at most [fuel] turns of its [while].
    The result is the router as the method leaves it; the method's return
    value is [(total_distance, total_fuel, route)] of that router. *)
Fixpoint construct_route_loop (fuel : nat) (self : VanRouter) : result VanRouter :=
  if active self then
    match fuel with
    | O => OutOfFuel
    | S fuel' =>
      move ← find_nearest_valid_move self;
      match move with
      | None => Ok (no_valid_move self)
      | Some move =>
        self' ← apply_move self move;
        construct_route_loop fuel' self'
      end
    end
  else Ok (return_to_depot self).

(** The method itself. Ten turns of fuel are as good as any larger number on
    a router built by [__init__] ([construct_route_total]). *)
Definition construct_route (self : VanRouter) : result VanRouter :=
  construct_route_loop 10 self.

(** ** Warnings *)

(** What the module sends to [logger.warning]. *)
Inductive warning :=
  | InvalidPackage (p : Package)
  | NotCompletedSingle (l : list Package)
  | NotCompletedMulti (l : list Package).

(** A computation that logs warnings and returns or raises. *)
Definition Logged (A : Type) : Type := list warning * result A.

#[global] Instance Logged_ret : MRet Logged := λ A a, ([], Ok a).
#[global] Instance Logged_bind : MBind Logged := λ A B k m,
  match m.2 with
  | Ok a => (m.1 ++ (k a).1, (k a).2)
  | Raise e => (m.1, Raise e)
  | OutOfFuel => (m.1, OutOfFuel)
  end.

Definition warn (w : warning) : Logged () := ([w], Ok ()).
Definition silent {A} (r : result A) : Logged A := ([], r).

(** ** filter_invalid_input *)

(** The [isinstance] tests of the source hold of every value of the model,
    whose numbers are all integers; what is left of the two filters is the
    sign and the [pickup != delivery] tests. *)

Definition valid_van (v : Van) : Prop := 0 < v.1 ∧ 0 < v.2.
Definition valid_package (p : Package) : Prop :=
  0 < weight_of p ∧ pickup_of p ≠ delivery_of p.

#[global] Instance valid_van_dec v : Decision (valid_van v).
Proof. unfold valid_van. apply _. Defined.
#[global] Instance valid_package_dec p : Decision (valid_package p).
Proof. unfold valid_package. apply _. Defined.

Definition filter_invalid_input (van_stats : list Van) (pkgs : list Package)
    : Logged (list Van * list Package) :=
  let valid_van_stats := filter valid_van van_stats in
  let valid_packages := filter valid_package pkgs in
  let invalid_packages := filter (λ p, ¬ valid_package p) pkgs in
  (InvalidPackage <$> invalid_packages, Ok (valid_van_stats, valid_packages)).

(** ** find_optimal_route_for_single_van *)

(** The five [best_*] variables. They are assigned together, so one option
    holds them: [None] is the initial
    [(None, None, inf, inf, [])]. Components: van, route, distance, fuel,
    not completed. *)
Abbreviation Best := (option (Van * list Move * Z * Z * list Package)).

Definition best_fuel (best : Best) : option Z :=
  match best with
  | Some (_, _, _, fuel, _) => Some fuel
  | None => None
  end.

Definition best_not_completed (best : Best) : list Package :=
  match best with
  | Some (_, _, _, _, nc) => nc
  | None => []
  end.

(** [fuel < best_fuel], where [None] is [float("inf")]: an integer fuel is
    below it. (For a [float] fuel, which may itself be infinite, see
    [NumVans.try_van].) *)
Definition fuel_lt (fuel : Z) (best : option Z) : bool :=
  match best with
  | Some b => bool_decide (fuel < b)
  | None => true
  end.

(** One turn of [for van in van_stats]. *)
Definition try_van (pkgs : list Package) (best : Best) (van : Van) : result Best :=
  router ← VanRouter_init van pkgs;
  router ← construct_route router;
  if fuel_lt (total_fuel router) (best_fuel best)
     && bool_decide (0 < picked_up_packages router)
  then Ok (Some (van, route router, total_distance router, total_fuel router,
                 not_completed router))
  else Ok best.

Fixpoint try_vans (pkgs : list Package) (van_stats : list Van) (best : Best)
    : result Best :=
  match van_stats with
  | [] => Ok best
  | van :: van_stats' =>
    best' ← try_van pkgs best van;
    try_vans pkgs van_stats' best'
  end.

Abbreviation SingleResult :=
  (option Van * Z * Z * list Move * list Package)%type.

Definition find_optimal_route_for_single_van
    (van_stats : list Van) (pkgs : list Package) (log_not_completed : bool)
    : Logged SingleResult :=
  '(van_stats, pkgs) ← filter_invalid_input van_stats pkgs;
  match pkgs with
  | [] =>
    match van_stats with
    | van :: _ => mret (Some van, 0, 0, [(0, Start, 0); (0, End, 0)], [])
    | [] => mret (None, 0, 0, [], [])
    end
  | _ =>
    best ← silent (try_vans pkgs van_stats None);
    _ ← (match best_not_completed best with
         | [] => mret ()
         | nc => if log_not_completed then warn (NotCompletedSingle nc) else mret ()
         end);
    match best with
    | Some (van, (_ :: _) as rt, dist, fuel, nc) => mret (Some van, dist, fuel, rt, nc)
    | _ => mret (None, 0, 0, [], pkgs)
    end
  end.

(** ** find_optimal_route_for_multiple_vans *)

(** [sorted(l, key=key)]: Python's sort is stable, so it returns the one
    stable arrangement of [l] by ascending key; insertion from the right
    computes it. *)
Fixpoint insert_by_key {A} (key : A → Z) (x : A) (l : list A) : list A :=
  match l with
  | [] => [x]
  | y :: l' =>
    if decide (key y < key x) then y :: insert_by_key key x l' else x :: y :: l'
  end.

Definition sorted {A} (key : A → Z) (l : list A) : list A :=
  foldr (insert_by_key key) [] l.

(** The variables the [for van in top_vans] loop updates ([alloc_fuel] and
    [alloc_distance] are its [total_fuel] and [total_distance], names the
    router record already uses). *)
Record Allocation := mkAllocation {
  alloc_fuel : Z;
  alloc_distance : Z;
  vans_used : list Van;
  routes : list (list Move);
  remaining_packages : list Package;
}.

Fixpoint allocate (top_vans : list Van) (acc : Allocation) : Logged Allocation :=
  match top_vans with
  | [] => mret acc
  | van :: top_vans' =>
    match remaining_packages acc with
    | [] => mret acc
    | _ =>
      '(best_van, dist, fuel, rt, best_nc) ←
        find_optimal_route_for_single_van [van] (remaining_packages acc) false;
      match best_van with
      | Some best_van =>
        allocate top_vans'
          {| alloc_fuel := alloc_fuel acc + fuel;
             alloc_distance := alloc_distance acc + dist;
             vans_used := vans_used acc ++ [best_van];
             routes := routes acc ++ [rt];
             remaining_packages := best_nc |}
      | None => mret acc
      end
    end
  end.

Definition top_vans (van_stats : list Van) : list Van :=
  take 3 (sorted snd van_stats).

Definition find_optimal_route_for_multiple_vans
    (van_stats : list Van) (pkgs : list Package)
    : Logged (list Van * Z * Z * list (list Move)) :=
  '(van_stats, pkgs) ← filter_invalid_input van_stats pkgs;
  acc ← allocate (top_vans van_stats)
          {| alloc_fuel := 0; alloc_distance := 0; vans_used := [];
             routes := []; remaining_packages := pkgs |};
  _ ← (match remaining_packages acc with
       | [] => mret ()
       | rest => warn (NotCompletedMulti rest)
       end);
  mret (vans_used acc, alloc_distance acc, alloc_fuel acc, routes acc).

(** The [(location, action)] view of a route used by the module's own check. *)
Definition simplified (rt : list Move) : list (Z * action) := fst <$> rt.

(** * The program over Python numbers *)

(** ** Numbers *)

(** A Python number as a van can hold it: an [int] or a [float] (binary64,
    with the arithmetic of the machine). *)
Inductive num := PyInt (z : Z) | PyFloat (f : float).

(** [float(z)]: the nearest float, ties to even; [OverflowError] when [z] is
    too large to convert. *)
Definition float_of_int (z : Z) : result float :=
  match binary_normalize 53 1024 z 0 false with
  | S754_infinity _ => Raise OverflowError
  | sf => Ok (SF2Prim sf)
  end.

(** Python compares an [int] with a [float] by their exact values; no
    comparison holds of a NaN. *)
Definition compare_int_float (z : Z) (f : float) : option comparison :=
  match Prim2SF f with
  | S754_nan => None
  | S754_infinity true => Some Gt
  | S754_infinity false => Some Lt
  | S754_zero _ => Some (z ?= 0)
  | S754_finite s m e =>
    let v := if s then Z.neg m else Z.pos m in
    Some (if decide (0 ≤ e) then z ?= v * 2 ^ e else z * 2 ^ (- e) ?= v)
  end.

(** [a < b]. *)
Definition num_lt (a b : num) : bool :=
  match a, b with
  | PyInt x, PyInt y => bool_decide (x < y)
  | PyInt x, PyFloat g =>
    match compare_int_float x g with Some Lt => true | _ => false end
  | PyFloat f, PyInt y =>
    match compare_int_float y f with Some Gt => true | _ => false end
  | PyFloat f, PyFloat g => PrimFloat.ltb f g
  end.

(** [a <= b]. *)
Definition num_le (a b : num) : bool :=
  match a, b with
  | PyInt x, PyInt y => bool_decide (x ≤ y)
  | PyInt x, PyFloat g =>
    match compare_int_float x g with Some Lt | Some Eq => true | _ => false end
  | PyFloat f, PyInt y =>
    match compare_int_float y f with Some Gt | Some Eq => true | _ => false end
  | PyFloat f, PyFloat g => PrimFloat.leb f g
  end.

(** [a + b]: exact on integers; otherwise the integer operand is converted
    and the sum is a float. *)
Definition num_add (a b : num) : result num :=
  match a, b with
  | PyInt x, PyInt y => Ok (PyInt (x + y))
  | PyInt x, PyFloat g => f ← float_of_int x; Ok (PyFloat (PrimFloat.add f g))
  | PyFloat f, PyInt y => g ← float_of_int y; Ok (PyFloat (PrimFloat.add f g))
  | PyFloat f, PyFloat g => Ok (PyFloat (PrimFloat.add f g))
  end.

(** [d * x] for an integer [d]. *)
Definition num_mul_int (d : Z) (x : num) : result num :=
  match x with
  | PyInt y => Ok (PyInt (d * y))
  | PyFloat g => f ← float_of_int d; Ok (PyFloat (PrimFloat.mul f g))
  end.

(** ** The module again *)

(** The same functions as above, in the same order, for vans whose capacity
    and fuel per unit are numbers. Distances, loads, weights and counters
    remain integers; the fuel is a number. *)
Module NumVans.

Abbreviation Van := (num * num)%type.

Record VanRouter := mkVanRouter {
  van_capacity : num;
  fuel_per_unit : num;
  route : list Move;
  current_location : Z;
  total_distance : Z;
  total_fuel : num;
  current_load : Z;
  picked_up_packages : Z;
  delivered_packages : Z;
  pickups : list (Z * Z);
  deliveries : list (Z * Z);
  not_completed : list Package;
  packages : list Package;
}.

(** [VanRouter.__init__]. *)
Definition VanRouter_init (van_stats : Van) (pkgs : list Package) : result VanRouter :=
  let '(capacity, fuel) := van_stats in
  let heap := Heapq.heapify lt_entry ((λ p, (distance 0 (pickup_of p), p)) <$> pkgs) in
  '(popped, heap) ← Heapq.heappop_n lt_entry (Nat.min 5 (length heap)) heap;
  let selected := snd <$> popped in
  Ok {| van_capacity := capacity;
        fuel_per_unit := fuel;
        route := [(0, Start, 0)];
        current_location := 0;
        total_distance := 0;
        total_fuel := PyInt 0;
        current_load := 0;
        picked_up_packages := 0;
        delivered_packages := 0;
        pickups := (λ p, (pickup_of p, weight_of p)) <$> selected;
        deliveries := [];
        not_completed := snd <$> heap;
        packages := selected |}.

(** [VanRouter.find_nearest_valid_move]. *)
Definition find_nearest_valid_move (self : VanRouter)
    : result (option (Z * Z * action * Z)) :=
  let pickup_heap :=
    (λ lw, (distance (current_location self) lw.1, lw.1, lw.2)) <$>
    filter (λ lw, num_le (PyInt (current_load self + lw.2)) (van_capacity self) = true)
           (pickups self) in
  let delivery_heap :=
    (λ lw, (distance (current_location self) lw.1, lw.1, lw.2)) <$>
    deliveries self in
  nearest_pickup ← nearest pickup_heap;
  nearest_delivery ← nearest delivery_heap;
  match nearest_pickup, nearest_delivery with
  | Some (pd, pl, pw), None => Ok (Some (pd, pl, Pick, pw))
  | Some (pd, pl, pw), Some (dd, dl, dw) =>
    if decide (pd ≤ dd) then Ok (Some (pd, pl, Pick, pw))
    else Ok (Some (dd, dl, Drop, dw))
  | None, Some (dd, dl, dw) => Ok (Some (dd, dl, Drop, dw))
  | None, None => Ok None
  end.

Definition active (self : VanRouter) : bool :=
  bool_decide (pickups self ≠ [] ∨ deliveries self ≠ []) &&
  bool_decide (picked_up_packages self + delivered_packages self < 10).

Definition no_valid_move (self : VanRouter) : VanRouter :=
  {| van_capacity := van_capacity self;
     fuel_per_unit := fuel_per_unit self;
     route := route self;
     current_location := current_location self;
     total_distance := total_distance self;
     total_fuel := total_fuel self;
     current_load := current_load self;
     picked_up_packages := picked_up_packages self;
     delivered_packages := delivered_packages self;
     pickups := pickups self;
     deliveries := deliveries self;
     not_completed :=
       (not_completed self ++ self_referential (pickups self))
         ++ self_referential (deliveries self);
     packages := packages self |}.

(** The loop body after a move was found. The fuel is updated first, and
    the update can raise. *)
Definition apply_move (self : VanRouter) (move : Z * Z * action * Z)
    : result VanRouter :=
  let '(dist, loc, act, weight) := move in
  let total_distance' := total_distance self + dist in
  cost ← num_mul_int dist (fuel_per_unit self);
  total_fuel' ← num_add (total_fuel self) cost;
  let route' := route self ++ [(loc, act, weight)] in
  if decide (act = Pick) then
    pickups' ← or_raise ValueError (list_remove (loc, weight) (pickups self));
    delivery_loc ← or_raise StopIteration (delivery_lookup (packages self) loc);
    Ok {| van_capacity := van_capacity self;
          fuel_per_unit := fuel_per_unit self;
          route := route';
          current_location := loc;
          total_distance := total_distance';
          total_fuel := total_fuel';
          current_load := current_load self + weight;
          picked_up_packages := picked_up_packages self + 1;
          delivered_packages := delivered_packages self;
          pickups := pickups';
          deliveries := deliveries self ++ [(delivery_loc, weight)];
          not_completed := not_completed self;
          packages := packages self |}
  else
    deliveries' ← or_raise ValueError (list_remove (loc, weight) (deliveries self));
    Ok {| van_capacity := van_capacity self;
          fuel_per_unit := fuel_per_unit self;
          route := route';
          current_location := loc;
          total_distance := total_distance';
          total_fuel := total_fuel';
          current_load := current_load self - weight;
          picked_up_packages := picked_up_packages self;
          delivered_packages := delivered_packages self + 1;
          pickups := pickups self;
          deliveries := deliveries';
          not_completed := not_completed self;
          packages := packages self |}.

(** The code after the loop. *)
Definition return_to_depot (self : VanRouter) : result VanRouter :=
  cost ← num_mul_int (distance (current_location self) 0) (fuel_per_unit self);
  total_fuel' ← num_add (total_fuel self) cost;
  Ok {| van_capacity := van_capacity self;
        fuel_per_unit := fuel_per_unit self;
        route := route self ++ [(0, End, 0)];
        current_location := current_location self;
        total_distance := total_distance self + distance (current_location self) 0;
        total_fuel := total_fuel';
        current_load := current_load self;
        picked_up_packages := picked_up_packages self;
        delivered_packages := delivered_packages self;
        pickups := pickups self;
        deliveries := deliveries self;
        not_completed :=
          (not_completed self ++ self_referential (pickups self))
            ++ self_referential (deliveries self);
        packages := packages self |}.

Fixpoint construct_route_loop (fuel : nat) (self : VanRouter) : result VanRouter :=
  if active self then
    match fuel with
    | O => OutOfFuel
    | S fuel' =>
      move ← find_nearest_valid_move self;
      match move with
      | None => Ok (no_valid_move self)
      | Some move =>
        self' ← apply_move self move;
        construct_route_loop fuel' self'
      end
    end
  else return_to_depot self.

Definition construct_route (self : VanRouter) : result VanRouter :=
  construct_route_loop 10 self.

Definition attempt (van : Van) (pkgs : list Package) : result VanRouter :=
  router ← VanRouter_init van pkgs; construct_route router.

(** [filter_invalid_input]: both [isinstance(_, (int, float))] tests hold of
    a number. *)
Definition valid_van (v : Van) : Prop :=
  num_lt (PyInt 0) v.1 = true ∧ num_lt (PyInt 0) v.2 = true.

#[global] Instance valid_van_dec v : Decision (valid_van v).
Proof. unfold valid_van. apply _. Defined.

Definition filter_invalid_input (van_stats : list Van) (pkgs : list Package)
    : Logged (list Van * list Package) :=
  let valid_van_stats := filter valid_van van_stats in
  let valid_packages := filter valid_package pkgs in
  let invalid_packages := filter (λ p, ¬ valid_package p) pkgs in
  (InvalidPackage <$> invalid_packages, Ok (valid_van_stats, valid_packages)).

(** The five [best_*] variables of [find_optimal_route_for_single_van]. *)
Record Best := mkBest {
  best_van : option Van;
  best_route : option (list Move);
  best_distance : num;
  best_fuel : num;
  best_not_completed : list Package;
}.

Definition no_best : Best :=
  {| best_van := None; best_route := None;
     best_distance := PyFloat infinity; best_fuel := PyFloat infinity;
     best_not_completed := [] |}.

Definition try_van (pkgs : list Package) (best : Best) (van : Van) : result Best :=
  router ← VanRouter_init van pkgs;
  router ← construct_route router;
  if num_lt (total_fuel router) (best_fuel best)
     && bool_decide (0 < picked_up_packages router)
  then Ok {| best_van := Some van;
             best_route := Some (route router);
             best_distance := PyInt (total_distance router);
             best_fuel := total_fuel router;
             best_not_completed := not_completed router |}
  else Ok best.

Fixpoint try_vans (pkgs : list Package) (van_stats : list Van) (best : Best)
    : result Best :=
  match van_stats with
  | [] => Ok best
  | van :: van_stats' =>
    best' ← try_van pkgs best van;
    try_vans pkgs van_stats' best'
  end.

Abbreviation SingleResult :=
  (option Van * num * num * list Move * list Package)%type.

Definition find_optimal_route_for_single_van
    (van_stats : list Van) (pkgs : list Package) (log_not_completed : bool)
    : Logged SingleResult :=
  '(van_stats, pkgs) ← filter_invalid_input van_stats pkgs;
  match pkgs with
  | [] =>
    match van_stats with
    | van :: _ =>
      mret (Some van, PyInt 0, PyInt 0, [(0, Start, 0); (0, End, 0)], [])
    | [] => mret (None, PyInt 0, PyInt 0, [], [])
    end
  | _ =>
    best ← silent (try_vans pkgs van_stats no_best);
    _ ← (match best_not_completed best with
         | [] => mret ()
         | nc => if log_not_completed then warn (NotCompletedSingle nc) else mret ()
         end);
    match best_route best with
    | Some ((_ :: _) as rt) =>
      mret (best_van best, best_distance best, best_fuel best, rt,
            best_not_completed best)
    | _ => mret (None, PyInt 0, PyInt 0, [], pkgs)
    end
  end.

(** [sorted(l, key=key)] for number keys that are not NaN, as the fuel of a
    valid van: the stable arrangement by ascending key. *)
Fixpoint insert_by_key {A} (key : A → num) (x : A) (l : list A) : list A :=
  match l with
  | [] => [x]
  | y :: l' =>
    if num_lt (key y) (key x) then y :: insert_by_key key x l' else x :: y :: l'
  end.

Definition sorted {A} (key : A → num) (l : list A) : list A :=
  foldr (insert_by_key key) [] l.

Record Allocation := mkAllocation {
  alloc_fuel : num;
  alloc_distance : num;
  vans_used : list Van;
  routes : list (list Move);
  remaining_packages : list Package;
}.

Fixpoint allocate (top_vans : list Van) (acc : Allocation) : Logged Allocation :=
  match top_vans with
  | [] => mret acc
  | van :: top_vans' =>
    match remaining_packages acc with
    | [] => mret acc
    | _ =>
      '(best_van, dist, fuel, rt, best_nc) ←
        find_optimal_route_for_single_van [van] (remaining_packages acc) false;
      match best_van with
      | Some best_van =>
        total_distance' ← silent (num_add (alloc_distance acc) dist);
        total_fuel' ← silent (num_add (alloc_fuel acc) fuel);
        allocate top_vans'
          {| alloc_fuel := total_fuel';
             alloc_distance := total_distance';
             vans_used := vans_used acc ++ [best_van];
             routes := routes acc ++ [rt];
             remaining_packages := best_nc |}
      | None => mret acc
      end
    end
  end.

Definition top_vans (van_stats : list Van) : list Van :=
  take 3 (sorted snd van_stats).

Definition find_optimal_route_for_multiple_vans
    (van_stats : list Van) (pkgs : list Package)
    : Logged (list Van * num * num * list (list Move)) :=
  '(van_stats, pkgs) ← filter_invalid_input van_stats pkgs;
  acc ← allocate (top_vans van_stats)
          {| alloc_fuel := PyInt 0; alloc_distance := PyInt 0; vans_used := [];
             routes := []; remaining_packages := pkgs |};
  _ ← (match remaining_packages acc with
       | [] => mret ()
       | rest => warn (NotCompletedMulti rest)
       end);
  mret (vans_used acc, alloc_distance acc, alloc_fuel acc, routes acc).

End NumVans.

(** * Vocabulary of the properties *)

(** ** Orders and heaps *)

(** What [heapq] expects of [<]: a strict total order. Python's comparison
    of tuples of integers is one ([lt3_order], [lt_entry_order]). *)
Class StrictTotalOrder {A} (ltb : A → A → bool) := {
  ltb_irrefl a : ltb a a = false;
  ltb_trans a b c : ltb a b = true → ltb b c = true → ltb a c = true;
  ltb_total a b : ltb a b = false → ltb b a = false → a = b;
}.

(** [a <= b], read as [not (b < a)]. *)
Definition leb_of {A} (ltb : A → A → bool) (a b : A) : Prop := ltb b a = false.

Module HeapInv.
Section heap_inv.
Context {A : Type} (ltb : A → A → bool).

(** [c] is one of the two children of [j] in the array layout. *)
Definition child (j c : nat) : Prop := c = (2 * j + 1)%nat ∨ c = (2 * j + 2)%nat.

(** [pos] lies in the subtree rooted at [s]. *)
Inductive below (s : nat) : nat → Prop :=
  | below_root : below s s
  | below_child j c : below s j → child j c → below s c.

(** The heap order holds between positions [j] and [c]. *)
Definition edge_ok (h : list A) (j c : nat) : Prop :=
  ∀ a b, h !! j = Some a → h !! c = Some b → ltb b a = false.

(** Every parent at position [s] or later is not above its children:
    the state of the list while [heapify] walks down to 0. *)
Definition heap_from (s : nat) (h : list A) : Prop :=
  ∀ j c, (s ≤ j)%nat → child j c → edge_ok h j c.

Definition is_heap (h : list A) : Prop := heap_from 0 h.

(** Invariant of the first loop of [_siftup(heap, s)], the item being at
    [pos]: the order may fail only around [pos], and the parent of [pos]
    is not above the children of [pos]. *)
Definition sinking (s pos : nat) (h : list A) : Prop :=
  (∀ j c, (s ≤ j)%nat → child j c → j ≠ pos → c ≠ pos → edge_ok h j c) ∧
  (∀ q c, (s ≤ q)%nat → child q pos → child pos c → edge_ok h q c).

(** Invariant of [_siftdown(heap, s, pos)]: the order may fail only between
    [pos] and its parent. *)
Definition rising (s pos : nat) (h : list A) : Prop :=
  (∀ j c, (s ≤ j)%nat → child j c → c ≠ pos → edge_ok h j c) ∧
  (∀ q c, (s ≤ q)%nat → child q pos → child pos c → edge_ok h q c).
End heap_inv.
End HeapInv.

(** ** Runs of the route builder *)

(** Completed pickups and deliveries: the count the loop guard bounds. *)
Definition events (st : VanRouter) : Z :=
  picked_up_packages st + delivered_packages st.

(** One full turn of the [while] of [construct_route]. *)
Inductive step (st st' : VanRouter) : Prop :=
  | step_move mv :
      active st = true →
      find_nearest_valid_move st = Ok (Some mv) →
      apply_move st mv = Ok st' →
      step st st'.

(** The two ways [construct_route] returns: after the loop, through the
    depot, or from inside it, when no move is found. *)
Inductive stops (st : VanRouter) : VanRouter → Prop :=
  | stops_depot : active st = false → stops st (return_to_depot st)
  | stops_stuck :
      active st = true → find_nearest_valid_move st = Ok None →
      stops st (no_valid_move st).

(** Load carried after a route: picked and not yet dropped weights. *)
Definition move_load (m : Move) : Z :=
  match m.1.2 with
  | Pick => m.2
  | Drop => - m.2
  | _ => 0
  end.

Definition route_load (rt : list Move) : Z := foldr (λ m acc, move_load m + acc) 0 rt.

Definition sum_weights (l : list (Z * Z)) : Z := foldr (λ lw acc, lw.2 + acc) 0 l.

(** Turns of the loop a run of [n] moves ending in [mid] takes, counting
    the turn that finds no move. *)
Definition turns (n : nat) (mid : VanRouter) : nat :=
  (n + if active mid then 1 else 0)%nat.

(** The pending pickups that fit in the van right now. *)
Definition feasible (st : VanRouter) : list (Z * Z) :=
  filter (λ lw, current_load st + lw.2 ≤ van_capacity st) (pickups st).

(** Every pending pickup still has its package on record, so the delivery
    lookup of a pick finds one. *)
Definition lookup_safe (st : VanRouter) : Prop :=
  ∀ lw, lw ∈ pickups st → ∃ p, p ∈ packages st ∧ pickup_of p = lw.1.

(** The load stays within [cap] all along the route. *)
Definition load_within (cap : Z) (rt : list Move) : Prop :=
  ∀ pre, pre `prefix_of` rt → route_load pre ≤ cap.

(** What the turns of the loop keep true of a router built by
    [__init__] from valid packages ... *)
Record load_inv (st : VanRouter) : Prop := {
  load_deliveries : current_load st = sum_weights (deliveries st);
  load_positive : Forall (λ lw, 0 < lw.2) (pickups st ++ deliveries st);
}.

(** ... and for a van of positive capacity. *)
Record capacity_inv (st : VanRouter) : Prop := {
  load_route : current_load st = route_load (route st);
  load_capacity : load_within (van_capacity st) (route st);
}.

(** ** The window of [__init__] *)

(** The heap entry of a package, and the order in which entries pop:
    by distance of the pickup from the depot, then by the package tuple. *)
Definition entry (p : Package) : Z * Package := (distance 0 (pickup_of p), p).

Definition pkg_le (p q : Package) : Prop := leb_of lt_entry (entry p) (entry q).

(** The window as the specification words it: the five packages nearest
    to the depot, equal distances keeping the order of the input (a stable
    sort by distance, cut at five). To be compared with what [__init__]
    selects. *)
Definition window_by_insertion_order (pkgs : list Package) : list Package :=
  take 5 (sorted (λ p, distance 0 (pickup_of p)) pkgs).

(** ** Attempts of the single-van optimizer *)

(** What one turn of [for van in van_stats] runs. *)
Definition attempt (van : Van) (pkgs : list Package) : result VanRouter :=
  router ← VanRouter_init van pkgs; construct_route router.

(** ** Routes and what they account for *)

(** The [(location, weight)] pairs of the picks, and of the drops, of a
    route, in route order. *)
Definition picks (rt : list Move) : list (Z * Z) :=
  (λ m, (m.1.1, m.2)) <$> filter (λ m, m.1.2 = Pick) rt.

Definition drops (rt : list Move) : list (Z * Z) :=
  (λ m, (m.1.1, m.2)) <$> filter (λ m, m.1.2 = Drop) rt.

(** Length of the walk through a list of locations. *)
Fixpoint path_length (locs : list Z) : Z :=
  match locs with
  | a :: ((b :: _) as rest) => distance a b + path_length rest
  | _ => 0
  end.

Definition route_distance (rt : list Move) : Z :=
  path_length ((λ m, m.1.1) <$> rt).

(** The counters against the pending lists. *)
Record count_inv (st : VanRouter) : Prop := {
  count_pickups :
    Z.of_nat (length (pickups st)) + picked_up_packages st
    = Z.of_nat (length (packages st));
  count_deliveries :
    Z.of_nat (length (deliveries st))
    = picked_up_packages st - delivered_packages st;
  count_delivered : 0 ≤ delivered_packages st;
  count_window : (length (packages st) ≤ 5)%nat;
}.

(** The route against the pending lists: what was selected is picked or
    still to pick, what was picked is dropped or still to drop; the walk so
    far is what the distance counts. *)
Record ledger_inv (st : VanRouter) : Prop := {
  ledger_pickups :
    (λ p, (pickup_of p, weight_of p)) <$> packages st
    ≡ₚ picks (route st) ++ pickups st;
  ledger_weights :
    snd <$> picks (route st)
    ≡ₚ (snd <$> drops (route st)) ++ (snd <$> deliveries st);
  ledger_load : current_load st = sum_weights (deliveries st);
  ledger_location : last ((λ m, m.1.1) <$> route st) = Some (current_location st);
  ledger_distance : total_distance st = route_distance (route st);
  ledger_start :
    ∃ body, route st = (0, Start, 0) :: body ∧
            Forall (λ m, m.1.2 = Pick ∨ m.1.2 = Drop) body;
}.

(** The moves against the packages, when no two selected packages share a
    pickup location. *)
Record package_inv (st : VanRouter) : Prop := {
  package_pending :
    ∀ lw, lw ∈ pickups st →
      ∃ p, p ∈ packages st ∧ pickup_of p = lw.1 ∧ weight_of p = lw.2;
  package_picked :
    ∀ loc w, (loc, Pick, w) ∈ route st →
      ∃ p, p ∈ packages st ∧ pickup_of p = loc ∧ weight_of p = w ∧
           ((delivery_of p, w) ∈ deliveries st ∨ (delivery_of p, Drop, w) ∈ route st);
  package_carried :
    ∀ loc w, (loc, w) ∈ deliveries st →
      ∃ p, p ∈ packages st ∧ delivery_of p = loc ∧ weight_of p = w ∧
           (pickup_of p, Pick, w) ∈ route st;
  package_dropped :
    ∀ loc w, (loc, Drop, w) ∈ route st →
      ∃ p, p ∈ packages st ∧ delivery_of p = loc ∧ weight_of p = w ∧
           (pickup_of p, Pick, w) ∈ route st;
}.

(** An attempt that counts for the single-van optimizer. *)
Definition successful (van : Van) (pkgs : list Package) (st : VanRouter) : Prop :=
  attempt van pkgs = Ok st ∧ 0 < picked_up_packages st.

(** ** What the optimizers choose and add up *)

(** The best attempt so far, after the vans [seen]: none if no attempt
    picked anything up; otherwise the first van of [seen] whose attempt is
    successful with the least fuel. *)
Definition chosen (pkgs : list Package) (seen : list Van) (best : Best) : Prop :=
  match best with
  | None =>
    ∀ van st, van ∈ seen → attempt van pkgs = Ok st → picked_up_packages st = 0
  | Some (van, rt, dist, fuel, nc) =>
    ∃ before after st,
      seen = before ++ van :: after ∧ successful van pkgs st ∧
      rt = route st ∧ dist = total_distance st ∧ fuel = total_fuel st ∧
      nc = not_completed st ∧
      (∀ v s, v ∈ before → successful v pkgs s → fuel < total_fuel s) ∧
      (∀ v s, v ∈ after → successful v pkgs s → fuel ≤ total_fuel s)
  end.

(** Total walk length of some routes, and its cost for the vans that drive
    them. *)
Definition routes_distance (rts : list (list Move)) : Z :=
  foldr (λ rt acc, route_distance rt + acc) 0 rts.

Definition routes_fuel (vans : list Van) (rts : list (list Move)) : Z :=
  foldr (λ vr acc, route_distance vr.2 * vr.1.2 + acc) 0 (zip vans rts).

(** The running totals of the allocator against its vans and routes. *)
Record totals_inv (acc : Allocation) : Prop := {
  totals_length : length (vans_used acc) = length (routes acc);
  totals_distance : alloc_distance acc = routes_distance (routes acc);
  totals_fuel : alloc_fuel acc = routes_fuel (vans_used acc) (routes acc);
  totals_start : Forall (λ rt, head rt = Some (0, Start, 0)) (routes acc);
}.

(** ** Integer vans among all vans *)

(** A van, a router and the results of the program on integer vans, as the
    program over numbers holds them. *)
Definition int_van (v : Van) : NumVans.Van := (PyInt v.1, PyInt v.2).

Definition int_router (st : VanRouter) : NumVans.VanRouter :=
  {| NumVans.van_capacity := PyInt (van_capacity st);
     NumVans.fuel_per_unit := PyInt (fuel_per_unit st);
     NumVans.route := route st;
     NumVans.current_location := current_location st;
     NumVans.total_distance := total_distance st;
     NumVans.total_fuel := PyInt (total_fuel st);
     NumVans.current_load := current_load st;
     NumVans.picked_up_packages := picked_up_packages st;
     NumVans.delivered_packages := delivered_packages st;
     NumVans.pickups := pickups st;
     NumVans.deliveries := deliveries st;
     NumVans.not_completed := not_completed st;
     NumVans.packages := packages st |}.

Definition int_best (best : Best) : NumVans.Best :=
  match best with
  | Some (van, rt, dist, fuel, nc) =>
    {| NumVans.best_van := Some (int_van van);
       NumVans.best_route := Some rt;
       NumVans.best_distance := PyInt dist;
       NumVans.best_fuel := PyInt fuel;
       NumVans.best_not_completed := nc |}
  | None => NumVans.no_best
  end.

Definition int_single (r : SingleResult) : NumVans.SingleResult :=
  let '(van, dist, fuel, rt, nc) := r in
  (int_van <$> van, PyInt dist, PyInt fuel, rt, nc).

Definition int_allocation (acc : Allocation) : NumVans.Allocation :=
  {| NumVans.alloc_fuel := PyInt (alloc_fuel acc);
     NumVans.alloc_distance := PyInt (alloc_distance acc);
     NumVans.vans_used := int_van <$> vans_used acc;
     NumVans.routes := routes acc;
     NumVans.remaining_packages := remaining_packages acc |}.

Definition int_multi (r : list Van * Z * Z * list (list Move))
    : list NumVans.Van * num * num * list (list Move) :=
  let '(vans, dist, fuel, rts) := r in
  (int_van <$> vans, PyInt dist, PyInt fuel, rts).

Definition int_filtered (r : list Van * list Package)
    : list NumVans.Van * list Package :=
  (int_van <$> r.1, r.2).

(** The same log, the value through [f]. *)
Definition Logged_map {A B} (f : A → B) (m : Logged A) : Logged B :=
  (m.1, f <$> m.2).

(** [isinstance(x, int)]. *)
Definition is_int (x : num) : bool :=
  match x with
  | PyInt _ => true
  | PyFloat _ => false
  end.

(** A van as the annotations of the module have it, [tuple[int, int]]. *)
Definition integer_van (v : NumVans.Van) : Prop :=
  is_int v.1 = true ∧ is_int v.2 = true.

#[global] Instance integer_van_dec v : Decision (integer_van v).
Proof. unfold integer_van. apply _. Defined.

(** A van whose fuel per unit is an integer, whatever its capacity. *)
Definition integer_rate (v : NumVans.Van) : Prop := is_int v.2 = true.

#[global] Instance integer_rate_dec v : Decision (integer_rate v).
Proof. unfold integer_rate. apply _. Defined.

(** An attempt that counts for the single-van optimizer. *)
Definition num_successful
    (van : NumVans.Van) (pkgs : list Package) (st : NumVans.VanRouter) : Prop :=
  NumVans.attempt van pkgs = Ok st ∧ 0 < NumVans.picked_up_packages st.

(** The cost of some routes for the vans that drive them, each walk length
    times the fuel per unit of its van, added up as the program adds. *)
Definition num_routes_fuel
    (vans : list NumVans.Van) (rts : list (list Move)) : result num :=
  foldl (λ total vr,
           total ← total;
           cost ← num_mul_int (route_distance vr.2) vr.1.2;
           num_add total cost)
        (Ok (PyInt 0)) (zip vans rts).

(** One full turn of the [while] of [construct_route], over numbers. *)
Inductive num_step (st st' : NumVans.VanRouter) : Prop :=
  | num_step_move mv :
      NumVans.active st = true →
      NumVans.find_nearest_valid_move st = Ok (Some mv) →
      NumVans.apply_move st mv = Ok st' →
      num_step st st'.

(** ** Integer fuel per unit, any capacity *)

(** The router over numbers that holds what [st] holds, in a van of
    capacity [c]; and [st] in a van of another integer capacity. *)
Definition num_router (c : num) (st : VanRouter) : NumVans.VanRouter :=
  {| NumVans.van_capacity := c;
     NumVans.fuel_per_unit := PyInt (fuel_per_unit st);
     NumVans.route := route st;
     NumVans.current_location := current_location st;
     NumVans.total_distance := total_distance st;
     NumVans.total_fuel := PyInt (total_fuel st);
     NumVans.current_load := current_load st;
     NumVans.picked_up_packages := picked_up_packages st;
     NumVans.delivered_packages := delivered_packages st;
     NumVans.pickups := pickups st;
     NumVans.deliveries := deliveries st;
     NumVans.not_completed := not_completed st;
     NumVans.packages := packages st |}.

Definition with_capacity (cz : Z) (st : VanRouter) : VanRouter :=
  {| van_capacity := cz;
     fuel_per_unit := fuel_per_unit st;
     route := route st;
     current_location := current_location st;
     total_distance := total_distance st;
     total_fuel := total_fuel st;
     current_load := current_load st;
     picked_up_packages := picked_up_packages st;
     delivered_packages := delivered_packages st;
     pickups := pickups st;
     deliveries := deliveries st;
     not_completed := not_completed st;
     packages := packages st |}.

(** The fuel so far is the distance so far times the fuel per unit. *)
Definition fuel_exact (st : VanRouter) : Prop :=
  total_fuel st = total_distance st * fuel_per_unit st.

(** The best attempt so far holds integer totals. *)
Definition int_totals (best : NumVans.Best) : Prop :=
  NumVans.best_route best = None ∨
  is_int (NumVans.best_distance best) = true ∧ is_int (NumVans.best_fuel best) = true.

(** A property of routers that a turn of the loop keeps true, whatever
    the capacity. *)
Definition turn_invariant (I : VanRouter → Prop) : Prop :=
  ∀ cz st st', step (with_capacity cz st) (with_capacity cz st') → I st → I st'.

(** * Properties *)

(** Linear arithmetic with the divisions by two of the heap indices. *)
Ltac div_lia := zify; Z.div_mod_to_equations; lia.

#[local] Arguments Nat.div : simpl never.

(** ** heapq rearranges and keeps the length *)

Module HeapqShape.
Import Heapq.
Section shape.
Context {A : Type} (ltb : A → A → bool).
Implicit Types h : list A.

Lemma length_exchange h i j : length (exchange h i j) = length h.
Proof. unfold exchange. repeat case_match; by rewrite ?length_insert. Qed.

Lemma lookup_exchange h i j a b k :
  h !! i = Some a → h !! j = Some b →
  exchange h i j !! k =
    if decide (k = j) then Some a else if decide (k = i) then Some b else h !! k.
Proof.
  intros Hi Hj. unfold exchange. rewrite Hi, Hj.
  apply lookup_lt_Some in Hi as Hli. apply lookup_lt_Some in Hj as Hlj.
  destruct (decide (k = j)) as [->|].
  { apply list_lookup_insert_eq. by rewrite length_insert. }
  rewrite list_lookup_insert_ne by done.
  destruct (decide (k = i)) as [->|].
  { by apply list_lookup_insert_eq. }
  by rewrite list_lookup_insert_ne.
Qed.

Lemma insert_cons_perm (t : list A) j a b :
  t !! j = Some b → b :: <[j:=a]> t ≡ₚ a :: t.
Proof.
  revert j. induction t as [|c t IH]; intros [|j] ?; simplify_eq/=.
  - apply perm_swap.
  - rewrite (perm_swap c b), (IH j) by done. apply perm_swap.
Qed.

Lemma exchange_perm h i j : exchange h i j ≡ₚ h.
Proof.
  unfold exchange.
  destruct (h !! i) as [a|] eqn:Hi; [|done].
  destruct (h !! j) as [b|] eqn:Hj; [|done].
  revert i j Hi Hj. induction h as [|x h IH]; intros [|i] [|j] ??; simplify_eq/=.
  - done.
  - by apply insert_cons_perm.
  - by apply insert_cons_perm.
  - f_equiv. by apply IH.
Qed.

Lemma siftdown_loop_shape fuel h s pos :
  length (siftdown_loop ltb fuel h s pos) = length h ∧
  siftdown_loop ltb fuel h s pos ≡ₚ h.
Proof.
  revert h pos. induction fuel as [|fuel IH]; intros h pos; simpl; [done|].
  repeat case_match; try done.
  destruct (IH (exchange h pos ((pos - 1) / 2)) ((pos - 1) / 2)%nat) as [-> ->].
  by rewrite length_exchange, exchange_perm.
Qed.

Lemma siftup_loop_shape fuel h pos h' leaf :
  siftup_loop ltb fuel h pos = (h', leaf) → length h' = length h ∧ h' ≡ₚ h.
Proof.
  revert h pos. induction fuel as [|fuel IH]; intros h pos; simpl.
  { by intros [= <- <-]. }
  case_decide; [|by intros [= <- <-]].
  intros [-> ->]%IH. by rewrite length_exchange, exchange_perm.
Qed.

Lemma siftup_shape h pos :
  length (siftup ltb h pos) = length h ∧ siftup ltb h pos ≡ₚ h.
Proof.
  unfold siftup, siftdown.
  destruct (siftup_loop ltb (length h) h pos) as [h' leaf] eqn:E.
  apply siftup_loop_shape in E as [<- <-]. apply siftdown_loop_shape.
Qed.

Lemma heapify_shape h :
  length (heapify ltb h) = length h ∧ heapify ltb h ≡ₚ h.
Proof.
  unfold heapify. generalize (reverse (seq 0 (length h / 2))). intros ks.
  revert h. induction ks as [|k ks IH]; intros h; simpl; [done|].
  destruct (IH (siftup ltb h k)) as [-> ->]. apply siftup_shape.
Qed.

Lemma length_heapify h : length (heapify ltb h) = length h.
Proof. apply heapify_shape. Qed.

Lemma heapify_perm h : heapify ltb h ≡ₚ h.
Proof. apply heapify_shape. Qed.

Lemma heapify_nil h : heapify ltb h = [] ↔ h = [].
Proof.
  split; [|by intros ->].
  intros E. apply nil_length_inv. by rewrite <-(length_heapify h), E.
Qed.

Lemma heappop_None h : heappop ltb h = None ↔ h = [].
Proof.
  unfold heappop. split; [|by intros ->].
  destruct (last h) eqn:E; [repeat case_match; done|].
  by apply last_None in E.
Qed.

Lemma heappop_shape h x h' :
  heappop ltb h = Some (x, h') → S (length h') = length h ∧ x :: h' ≡ₚ h.
Proof.
  unfold heappop. destruct (last h) as [lastelt|] eqn:E; [|done].
  apply last_Some in E as [front ->]. rewrite removelast_last.
  destruct front as [|returnitem rest]; intros [= <- <-].
  { done. }
  destruct (siftup_shape (lastelt :: rest) 0) as [-> ->].
  split.
  - simpl. rewrite length_app. simpl. lia.
  - simpl. f_equiv. apply Permutation_cons_append.
Qed.

Lemma heappop_is_Some h : h ≠ [] → is_Some (heappop ltb h).
Proof.
  intros Hne. destruct (heappop ltb h) eqn:E; [done|].
  by apply heappop_None in E.
Qed.

Lemma heappop_n_shape n h :
  (n ≤ length h)%nat →
  ∃ xs h', heappop_n ltb n h = Ok (xs, h') ∧
           length xs = n ∧ (length xs + length h' = length h)%nat ∧
           xs ++ h' ≡ₚ h.
Proof.
  revert h. induction n as [|n IH]; intros h Hn; simpl.
  { by exists [], h. }
  destruct (heappop ltb h) as [[x h1]|] eqn:E; cycle 1.
  { apply heappop_None in E as ->. simpl in Hn. lia. }
  apply heappop_shape in E as [Hlen Hperm].
  destruct (IH h1) as (xs & h' & -> & Hxs & Hsum & Hp); [lia|].
  exists (x :: xs), h'. simpl. repeat split; [lia..|].
  by rewrite Hp.
Qed.
End shape.
End HeapqShape.

(** ** heapq keeps the heap order *)

Module HeapqOrder.
Import Heapq HeapInv HeapqShape.
Section order.
Context {A : Type} (ltb : A → A → bool) `{!StrictTotalOrder ltb}.
Implicit Types h : list A.

Lemma ltb_asym a b : ltb a b = true → ltb b a = false.
Proof.
  intros Hab. destruct (ltb b a) eqn:Hba; [|done].
  pose proof (ltb_trans (ltb:=ltb) a b a Hab Hba) as Haa.
  by rewrite ltb_irrefl in Haa.
Qed.

Lemma leb_trans a b c : ltb b a = false → ltb c b = false → ltb c a = false.
Proof.
  intros Hab Hbc. destruct (ltb c a) eqn:Hca; [|done].
  destruct (ltb a b) eqn:Hlt.
  - pose proof (ltb_trans (ltb:=ltb) c a b Hca Hlt). congruence.
  - assert (a = b) as -> by by apply (ltb_total (ltb:=ltb)). congruence.
Qed.

Lemma ltb_leb_trans a b c : ltb a b = true → ltb c b = false → ltb c a = false.
Proof.
  intros Hab Hbc. destruct (ltb c a) eqn:Hca; [|done].
  pose proof (ltb_trans (ltb:=ltb) c a b Hca Hab). congruence.
Qed.

Lemma below_le s pos : below s pos → (s ≤ pos)%nat.
Proof. induction 1 as [|j c _ IH [-> | ->]]; lia. Qed.

Lemma below_parent s pos :
  below s pos → (s < pos)%nat →
  below s ((pos - 1) / 2) ∧ child ((pos - 1) / 2) pos.
Proof.
  intros [|j c Hj Hc] Hlt; [lia|].
  assert (((c - 1) / 2)%nat = j) as -> by (destruct Hc; div_lia).
  done.
Qed.

Lemma rising_at_root s h : rising ltb s s h → heap_from ltb s h.
Proof.
  intros [H1 _] j c Hj Hc. apply H1; [done..|]. destruct Hc; lia.
Qed.

Lemma heap_from_sinking s h : heap_from ltb (S s) h → sinking ltb s s h.
Proof.
  intros Hh. split.
  - intros j c Hj Hc Hne _. apply Hh; [lia|done].
  - intros q c Hq Hc. destruct Hc; lia.
Qed.

Lemma smaller_child_spec h pos :
  (pos < length h / 2)%nat →
  child pos (smaller_child ltb h pos) ∧
  (smaller_child ltb h pos < length h)%nat ∧
  ∀ c x m, child pos c → h !! c = Some x →
           h !! smaller_child ltb h pos = Some m → ltb x m = false.
Proof.
  intros Hpos. unfold smaller_child, child.
  destruct (decide (2 * pos + 1 + 1 < length h)%nat) as [Hr|Hr].
  - destruct (lookup_lt_is_Some_2 h (2 * pos + 1)%nat) as [a Ha]; [lia|].
    destruct (lookup_lt_is_Some_2 h (2 * pos + 1 + 1)%nat) as [b Hb]; [lia|].
    rewrite Ha, Hb. destruct (ltb a b) eqn:Hab.
    + split; [lia|]. split; [lia|].
      intros c x m [-> | ->] Hx Hm; simplify_eq.
      * apply ltb_irrefl.
      * replace (2 * pos + 2)%nat with (2 * pos + 1 + 1)%nat in Hx by lia.
        simplify_eq. by apply ltb_asym.
    + split; [lia|]. split; [lia|].
      intros c x m [-> | ->] Hx Hm; simplify_eq.
      * done.
      * replace (2 * pos + 2)%nat with (2 * pos + 1 + 1)%nat in Hx by lia.
        simplify_eq. apply ltb_irrefl.
  - split; [lia|]. split; [div_lia|].
    intros c x m [-> | ->] Hx Hm; simplify_eq.
    + apply ltb_irrefl.
    + apply lookup_lt_Some in Hx. lia.
Qed.

Lemma sinking_step s h pos :
  (s ≤ pos)%nat → (pos < length h / 2)%nat → sinking ltb s pos h →
  sinking ltb s (smaller_child ltb h pos)
    (exchange h pos (smaller_child ltb h pos)).
Proof.
  intros Hs Hpos [H1 H2].
  destruct (smaller_child_spec h pos Hpos) as (Hc & Hlt & Hmin).
  set (c := smaller_child ltb h pos) in *.
  destruct (lookup_lt_is_Some_2 h pos) as [x Hx]; [div_lia|].
  destruct (lookup_lt_is_Some_2 h c) as [m Hm]; [done|].
  assert (pos < c)%nat by (destruct Hc; lia).
  split.
  - intros j k Hj Hjk Hjc Hkc a b.
    rewrite !(lookup_exchange h pos c x m) by done.
    destruct (decide (j = pos)) as [->|Hjp], (decide (k = pos)) as [->|Hkp];
      repeat case_decide; try done; intros; simplify_eq.
    + destruct Hjk; lia.
    + by apply (Hmin k).
    + by apply (H2 j c Hj Hjk Hc).
    + by apply (H1 j k).
  - intros q g Hq Hqc Hcg a b.
    assert (q = pos) as -> by (destruct Hc, Hqc; lia).
    assert (c < g)%nat by (destruct Hcg; lia).
    rewrite !(lookup_exchange h pos c x m) by done.
    repeat case_decide; try lia. intros; simplify_eq.
    apply (H1 c g); (done || lia).
Qed.

Lemma siftup_loop_inv s fuel h pos h' leaf :
  siftup_loop ltb fuel h pos = (h', leaf) →
  (length h ≤ fuel + pos)%nat → (pos < length h)%nat →
  below s pos → sinking ltb s pos h →
  below s leaf ∧ (leaf < length h')%nat ∧ rising ltb s leaf h'.
Proof.
  revert h pos. induction fuel as [|fuel IH]; intros h pos; simpl.
  { intros; lia. }
  case_decide as Hpos.
  - intros E Hfuel Hlen Hbelow Hsink.
    destruct (smaller_child_spec h pos Hpos) as (Hc & Hlt & _).
    apply IH in E; [done|..].
    + rewrite length_exchange. destruct Hc; lia.
    + by rewrite length_exchange.
    + by eapply below_child.
    + apply sinking_step; [by apply below_le|done..].
  - intros [= <- <-] _ Hlen Hbelow [H1 H2]. split_and!; [done..|]. split.
    + intros j c Hj Hc Hne. destruct (decide (j = pos)) as [->|]; [|by apply H1].
      intros a b _ Hb%lookup_lt_Some. destruct Hc; div_lia.
    + intros q c _ _ Hc a b _ Hb%lookup_lt_Some. destruct Hc; div_lia.
Qed.

Lemma rising_step s h pos x y :
  below s pos → (s < pos)%nat →
  h !! pos = Some x → h !! ((pos - 1) / 2)%nat = Some y → ltb x y = true →
  rising ltb s pos h →
  rising ltb s ((pos - 1) / 2) (exchange h pos ((pos - 1) / 2)).
Proof.
  intros Hb Hlt Hx Hy Hxy [H1 H2].
  destruct (below_parent s pos Hb Hlt) as [Hbp Hc].
  apply below_le in Hbp. set (p := ((pos - 1) / 2)%nat) in *. clearbody p.
  assert (p < pos)%nat by (destruct Hc; lia).
  split.
  - intros j k Hj Hjk Hkp a b.
    rewrite !(lookup_exchange h pos p x y) by done.
    destruct (decide (j = p)) as [->|Hjp]; [|destruct (decide (j = pos)) as [->|Hjpos]];
      (destruct (decide (k = pos)) as [->|Hkpos]);
      repeat case_decide; try lia; intros; simplify_eq.
    + by apply ltb_asym.
    + eapply ltb_leb_trans; [done|]. by apply (H1 p k).
    + destruct Hjk; lia.
    + by apply (H2 p k).
    + destruct Hc, Hjk; lia.
    + by apply (H1 j k).
  - intros q g Hq Hqp Hpg a b.
    assert (q < p)%nat by (destruct Hqp; lia).
    assert (p < g)%nat by (destruct Hpg; lia).
    rewrite !(lookup_exchange h pos p x y) by done.
    repeat case_decide; try lia; intros; simplify_eq.
    + apply (H1 q p); (done || lia).
    + apply (leb_trans _ y).
      * apply (H1 q p); (done || lia).
      * by apply (H1 p g).
Qed.

Lemma siftdown_loop_inv s fuel h pos :
  (pos ≤ fuel)%nat → below s pos → (pos < length h)%nat →
  rising ltb s pos h → heap_from ltb s (siftdown_loop ltb fuel h s pos).
Proof.
  revert h pos. induction fuel as [|fuel IH]; intros h pos Hfuel Hb Hlen Hr; simpl.
  { apply below_le in Hb. assert (pos = s) as -> by lia. by apply rising_at_root. }
  case_decide as Hlt; cycle 1.
  { apply below_le in Hb. assert (pos = s) as -> by lia. by apply rising_at_root. }
  destruct (below_parent s pos Hb Hlt) as [Hbp Hc].
  destruct (lookup_lt_is_Some_2 h pos) as [x Hx]; [done|].
  destruct (lookup_lt_is_Some_2 h ((pos - 1) / 2)%nat) as [y Hy]; [div_lia|].
  rewrite Hx, Hy. destruct (ltb x y) eqn:Hxy.
  - apply IH; [div_lia|done| |by eapply rising_step].
    rewrite length_exchange. div_lia.
  - destruct Hr as [H1 _]. intros j c Hj Hjc.
    destruct (decide (c = pos)) as [->|]; [|by apply H1].
    assert (j = ((pos - 1) / 2)%nat) as -> by (destruct Hjc; div_lia).
    intros a b ??; by simplify_eq.
Qed.

Lemma siftup_heap s h :
  (s < length h)%nat → heap_from ltb (S s) h → heap_from ltb s (siftup ltb h s).
Proof.
  intros Hlen Hh. unfold siftup, siftdown.
  destruct (siftup_loop ltb (length h) h s) as [h' leaf] eqn:E.
  apply (siftup_loop_inv s) in E as (Hb & Hleaf & Hr);
    [|lia|done|constructor|by apply heap_from_sinking].
  by apply siftdown_loop_inv.
Qed.

Lemma heap_from_half h : heap_from ltb (length h / 2) h.
Proof. intros j c Hj Hc a b _ Hb%lookup_lt_Some. destruct Hc; div_lia. Qed.

Lemma heapify_heap h : is_heap ltb (heapify ltb h).
Proof.
  unfold heapify, is_heap.
  assert (∀ k h, (k ≤ length h)%nat → heap_from ltb k h →
            heap_from ltb 0 (foldl (siftup ltb) h (reverse (seq 0 k)))) as Hgen.
  { clear h. induction k as [|k IH]; intros h Hk Hh; [done|].
    rewrite seq_S, reverse_snoc. simpl. apply IH.
    - destruct (siftup_shape ltb h k) as [-> _]. lia.
    - apply siftup_heap; [lia|done]. }
  apply Hgen; [div_lia|apply heap_from_half].
Qed.

(** The root of a heap is a least element. *)
Lemma heap_root_least h a b i :
  is_heap ltb h → h !! 0%nat = Some a → h !! i = Some b → ltb b a = false.
Proof.
  intros Hh Ha. revert b. induction i as [i IH] using lt_wf_ind. intros b Hb.
  destruct (decide (i = 0%nat)) as [->|Hi].
  { simplify_eq. apply ltb_irrefl. }
  apply lookup_lt_Some in Hb as Hlen.
  destruct (lookup_lt_is_Some_2 h ((i - 1) / 2)%nat) as [c Hc]; [div_lia|].
  apply (leb_trans _ c).
  - apply (IH ((i - 1) / 2)%nat); [div_lia|done].
  - apply (Hh ((i - 1) / 2)%nat i); [lia| |done..]. unfold child. div_lia.
Qed.

Lemma heappop_heap h x h' :
  is_heap ltb h → heappop ltb h = Some (x, h') →
  is_heap ltb h' ∧ Forall (leb_of ltb x) h.
Proof.
  intros Hh Hpop.
  assert (h !! 0%nat = Some x) as Hroot.
  { revert Hpop. unfold heappop.
    destruct (last h) as [lastelt|] eqn:E; [|done].
    apply last_Some in E as [front ->]. rewrite removelast_last.
    by destruct front; intros [= <- <-]. }
  split; cycle 1.
  { apply Forall_lookup. intros i b Hb. by eapply heap_root_least. }
  revert Hpop. unfold heappop.
  destruct (last h) as [lastelt|] eqn:E; [|done].
  apply last_Some in E as [front ->]. rewrite removelast_last.
  destruct front as [|returnitem rest]; intros [= <- <-].
  { by intros j c _ _ a b ?. }
  apply siftup_heap; [simpl; lia|].
  intros j c Hj Hc a b Hja Hcb.
  assert (c ≠ 0)%nat by (destruct Hc; lia).
  destruct j as [|j]; [lia|]. destruct c as [|c]; [done|].
  simpl in Hja, Hcb.
  apply (Hh (S j) (S c)); [lia|done|..]; simpl.
  - apply lookup_app_l_Some, Hja.
  - apply lookup_app_l_Some, Hcb.
Qed.

(** Popping [n] times from a heap yields its [n] least items in ascending
    order, each below everything that is left. *)
Lemma heappop_n_heap n h :
  is_heap ltb h → (n ≤ length h)%nat →
  ∃ xs h', heappop_n ltb n h = Ok (xs, h') ∧
           length xs = n ∧ xs ++ h' ≡ₚ h ∧
           StronglySorted (leb_of ltb) xs ∧
           Forall (λ x, Forall (leb_of ltb x) h') xs.
Proof.
  revert h. induction n as [|n IH]; intros h Hh Hn; simpl.
  { exists [], h. split_and!; [done..|constructor|constructor]. }
  destruct (heappop ltb h) as [[x h1]|] eqn:E; cycle 1.
  { apply heappop_None in E as ->. simpl in Hn. lia. }
  destruct (heappop_heap h x h1 Hh E) as [Hh1 Hleast].
  apply heappop_shape in E as [Hlen Hperm].
  destruct (IH h1) as (xs & h' & -> & Hxs & Hp & Hsorted & Hsplit); [done|lia|].
  exists (x :: xs), h'. simpl.
  assert (Forall (leb_of ltb x) (xs ++ h')) as [??]%Forall_app.
  { rewrite Hp. rewrite <-Hperm in Hleast. by inv Hleast. }
  split_and!; [done|lia|by rewrite Hp| |]; by constructor.
Qed.
End order.
End HeapqOrder.

(** ** Python's tuple comparison is a strict total order *)

#[global] Instance lt3_order : StrictTotalOrder lt3.
Proof.
  split.
  - intros [[a1 a2] a3]. unfold lt3.
    repeat case_decide; try done. apply bool_decide_eq_false. lia.
  - intros [[a1 a2] a3] [[b1 b2] b3] [[c1 c2] c3]. unfold lt3.
    repeat case_decide; rewrite ?bool_decide_eq_true; lia.
  - intros [[a1 a2] a3] [[b1 b2] b3]. unfold lt3.
    repeat case_decide; rewrite ?bool_decide_eq_false; intros; repeat f_equal; lia.
Qed.

#[global] Instance lt_entry_order : StrictTotalOrder lt_entry.
Proof.
  split.
  - intros [d p]. unfold lt_entry. simpl. case_decide; [|done].
    apply (ltb_irrefl (ltb:=lt3)).
  - intros [d1 p1] [d2 p2] [d3 p3]. unfold lt_entry. simpl.
    repeat case_decide; rewrite ?bool_decide_eq_true; try lia.
    apply (ltb_trans (ltb:=lt3)).
  - intros [d1 p1] [d2 p2]. unfold lt_entry. simpl.
    repeat case_decide; rewrite ?bool_decide_eq_false; try lia.
    intros. f_equal; [done|]. by apply (ltb_total (ltb:=lt3)).
Qed.

(** ** list.remove *)

Section list_remove.
Context {A : Type} `{EqDecision A}.

Lemma list_remove_Some (x : A) l l' :
  list_remove x l = Some l' → l ≡ₚ x :: l'.
Proof.
  revert l'. induction l as [|y l IH]; intros l'; simpl; [done|].
  case_decide as Hxy.
  - intros [= <-]. by subst.
  - destruct (list_remove x l) as [k|]; intros [= <-].
    rewrite (IH k eq_refl). apply perm_swap.
Qed.

Lemma list_remove_elem_of (x : A) l : x ∈ l → is_Some (list_remove x l).
Proof.
  induction 1 as [|y z l ? IH]; simpl.
  - by rewrite decide_True.
  - case_decide; [done|]. by destruct IH as [k ->].
Qed.
End list_remove.

(** ** find_nearest_valid_move *)

Section nearest.
Import Heapq HeapqShape HeapqOrder.

Lemma nearest_nil : nearest [] = Ok None.
Proof. done. Qed.

(** On a non-empty list [nearest] returns a least element of it. *)
Lemma nearest_cons h :
  h ≠ [] → ∃ x, nearest h = Ok (Some x) ∧ x ∈ h ∧ Forall (leb_of lt3 x) h.
Proof.
  intros Hne. unfold nearest.
  destruct (heapify lt3 h) as [|y hp] eqn:E.
  { by apply heapify_nil in E. }
  destruct (heappop_is_Some lt3 (y :: hp)) as [[x h'] Hpop]; [done|].
  rewrite Hpop. exists x. split; [done|].
  destruct (heappop_heap lt3 (y :: hp) x h') as [_ Hleast]; [|done|].
  { rewrite <-E. apply heapify_heap, _. }
  apply heappop_shape in Hpop as [_ Hperm].
  rewrite <-E, heapify_perm in Hleast, Hperm.
  split; [|done]. rewrite <-Hperm. left.
Qed.

Lemma nearest_Ok h : ∃ r, nearest h = Ok r.
Proof.
  destruct h as [|x h]; [by exists None|].
  destruct (nearest_cons (x :: h)) as (y & -> & _); [done|]. by eexists.
Qed.

Lemma nearest_None h : nearest h = Ok None ↔ h = [].
Proof.
  split; [|by intros ->]. intros E. destruct h as [|x h]; [done|].
  destruct (nearest_cons (x :: h)) as (y & Hy & _); [done|]. congruence.
Qed.

Lemma nearest_Some h x : nearest h = Ok (Some x) → x ∈ h.
Proof.
  intros E. destruct h as [|y h]; [done|].
  destruct (nearest_cons (y :: h)) as (z & Hz & ? & _); [done|]. congruence.
Qed.
End nearest.

Section find_move.
Implicit Types st : VanRouter.

Lemma find_Ok st : ∃ r, find_nearest_valid_move st = Ok r.
Proof.
  unfold find_nearest_valid_move.
  destruct (nearest_Ok ((λ lw, (distance (current_location st) lw.1, lw.1, lw.2))
                          <$> feasible st)) as [rp Hp].
  destruct (nearest_Ok ((λ lw, (distance (current_location st) lw.1, lw.1, lw.2))
                          <$> deliveries st)) as [rd Hd].
  unfold feasible in Hp. rewrite Hp, Hd. simpl.
  destruct rp as [[[pd pl] pw]|], rd as [[[dd dl] dw]|];
    try case_decide; by eexists.
Qed.

Lemma find_None st :
  find_nearest_valid_move st = Ok None ↔ feasible st = [] ∧ deliveries st = [].
Proof.
  unfold find_nearest_valid_move.
  destruct (nearest_Ok ((λ lw, (distance (current_location st) lw.1, lw.1, lw.2))
                          <$> feasible st)) as [rp Hp].
  destruct (nearest_Ok ((λ lw, (distance (current_location st) lw.1, lw.1, lw.2))
                          <$> deliveries st)) as [rd Hd].
  unfold feasible in *. rewrite Hp, Hd. simpl.
  destruct rp as [[[pd pl] pw]|], rd as [[[dd dl] dw]|]; try case_decide;
    (split; [intros [=] | intros [Hf Hdl]]);
    try (rewrite Hf in Hp; by simplify_eq/=);
    try (rewrite Hdl in Hd; by simplify_eq/=).
  apply nearest_None, fmap_nil_inv in Hp. apply nearest_None, fmap_nil_inv in Hd.
  done.
Qed.

Lemma find_Some st d loc act w :
  find_nearest_valid_move st = Ok (Some (d, loc, act, w)) →
  d = distance (current_location st) loc ∧
  (act = Pick ∧ (loc, w) ∈ feasible st ∨ act = Drop ∧ (loc, w) ∈ deliveries st).
Proof.
  unfold find_nearest_valid_move.
  destruct (nearest_Ok ((λ lw, (distance (current_location st) lw.1, lw.1, lw.2))
                          <$> feasible st)) as [rp Hp].
  destruct (nearest_Ok ((λ lw, (distance (current_location st) lw.1, lw.1, lw.2))
                          <$> deliveries st)) as [rd Hd].
  unfold feasible in *. rewrite Hp, Hd. simpl.
  assert (∀ l x, nearest ((λ lw : Z * Z, (distance (current_location st) lw.1, lw.1, lw.2))
                  <$> l) = Ok (Some x) →
            x.1.1 = distance (current_location st) x.1.2 ∧ (x.1.2, x.2) ∈ l) as Hin.
  { intros l x [[loc' w'] [-> ?]]%nearest_Some%list_elem_of_fmap. done. }
  destruct rp as [[[pd pl] pw]|], rd as [[[dd dl] dw]|]; try case_decide;
    intros [=]; subst.
  - apply Hin in Hp as [??]. split; [done|]. by left.
  - apply Hin in Hd as [??]. split; [done|]. by right.
  - apply Hin in Hp as [??]. split; [done|]. by left.
  - apply Hin in Hd as [??]. split; [done|]. by right.
Qed.

Lemma elem_of_feasible st lw :
  lw ∈ feasible st ↔ current_load st + lw.2 ≤ van_capacity st ∧ lw ∈ pickups st.
Proof. unfold feasible. by rewrite list_elem_of_filter. Qed.

Lemma delivery_lookup_is_Some pkgs loc :
  (∃ p, p ∈ pkgs ∧ pickup_of p = loc) → is_Some (delivery_lookup pkgs loc).
Proof.
  intros (p & Hp & Hloc). unfold delivery_lookup.
  assert (p ∈ filter (λ p, pickup_of p = loc) pkgs) as Hin
    by by apply list_elem_of_filter.
  destruct (filter _ pkgs); [by apply elem_of_nil in Hin|by eexists].
Qed.
End find_move.

(** ** One turn of the loop *)

Section step.
Implicit Types st : VanRouter.

(** A turn is a pick of a feasible pending pickup or a drop of a pending
    delivery; the new router is the old one updated as follows. *)
Lemma step_cases st st' :
  step st st' →
  (∃ loc w dloc pickups',
     (loc, w) ∈ feasible st ∧
     list_remove (loc, w) (pickups st) = Some pickups' ∧
     delivery_lookup (packages st) loc = Some dloc ∧
     st' = {| van_capacity := van_capacity st;
              fuel_per_unit := fuel_per_unit st;
              route := route st ++ [(loc, Pick, w)];
              current_location := loc;
              total_distance :=
                total_distance st + distance (current_location st) loc;
              total_fuel :=
                total_fuel st
                + distance (current_location st) loc * fuel_per_unit st;
              current_load := current_load st + w;
              picked_up_packages := picked_up_packages st + 1;
              delivered_packages := delivered_packages st;
              pickups := pickups';
              deliveries := deliveries st ++ [(dloc, w)];
              not_completed := not_completed st;
              packages := packages st |}) ∨
  (∃ loc w deliveries',
     (loc, w) ∈ deliveries st ∧
     list_remove (loc, w) (deliveries st) = Some deliveries' ∧
     st' = {| van_capacity := van_capacity st;
              fuel_per_unit := fuel_per_unit st;
              route := route st ++ [(loc, Drop, w)];
              current_location := loc;
              total_distance :=
                total_distance st + distance (current_location st) loc;
              total_fuel :=
                total_fuel st
                + distance (current_location st) loc * fuel_per_unit st;
              current_load := current_load st - w;
              picked_up_packages := picked_up_packages st;
              delivered_packages := delivered_packages st + 1;
              pickups := pickups st;
              deliveries := deliveries';
              not_completed := not_completed st;
              packages := packages st |}).
Proof.
  intros [[[[d loc] act] w] _ Hfind Happly].
  apply find_Some in Hfind as [-> [[-> Hin] | [-> Hin]]];
    unfold apply_move in Happly; simpl in Happly.
  - left.
    destruct (list_remove (loc, w) (pickups st)) as [pickups'|] eqn:?; [|done].
    destruct (delivery_lookup (packages st) loc) as [dloc|] eqn:?; [|done].
    simpl in Happly. exists loc, w, dloc, pickups'. by simplify_eq.
  - right.
    destruct (list_remove (loc, w) (deliveries st)) as [deliveries'|] eqn:?;
      [|done].
    simpl in Happly. exists loc, w, deliveries'. by simplify_eq.
Qed.

(** The lists a move is taken from contain it, so [list.remove] does not
    raise; the delivery lookup does not raise on a safe router. *)
Lemma apply_move_Ok st mv :
  lookup_safe st → find_nearest_valid_move st = Ok (Some mv) →
  ∃ st', apply_move st mv = Ok st'.
Proof.
  destruct mv as [[[d loc] act] w]. intros Hsafe Hfind.
  apply find_Some in Hfind as [-> [[-> Hin] | [-> Hin]]]; unfold apply_move; simpl.
  - apply elem_of_feasible in Hin as [_ Hin].
    destruct (list_remove_elem_of _ _ Hin) as [pickups' ->].
    destruct (delivery_lookup_is_Some (packages st) loc) as [dloc ->];
      [by apply (Hsafe (loc, w))|].
    by eexists.
  - destruct (list_remove_elem_of _ _ Hin) as [deliveries' ->]. by eexists.
Qed.

Lemma step_lookup_safe st st' : step st st' → lookup_safe st → lookup_safe st'.
Proof.
  intros [(loc & w & dloc & pickups' & _ & Hrem & _ & ->)
         |(loc & w & deliveries' & _ & _ & ->)]%step_cases Hsafe lw; simpl;
    [|by apply Hsafe].
  intros Hlw. apply Hsafe. apply list_remove_Some in Hrem. rewrite Hrem. by right.
Qed.

(** Each turn completes exactly one more pickup or delivery. *)
Lemma step_events st st' : step st st' → events st' = events st + 1.
Proof.
  intros [(loc & w & dloc & pickups' & _ & _ & _ & ->)
         |(loc & w & deliveries' & _ & _ & ->)]%step_cases;
    unfold events; simpl; lia.
Qed.

Lemma active_events st : active st = true → events st < 10.
Proof.
  unfold active, events. intros [_ H]%andb_true_iff.
  by apply bool_decide_eq_true in H.
Qed.

Lemma not_active_events st : 10 ≤ events st → active st = false.
Proof.
  unfold active, events. intros H. apply andb_false_iff. right.
  apply bool_decide_eq_false. lia.
Qed.
End step.

(** ** The loop and its runs *)

Section runs.
Implicit Types st : VanRouter.

(** A run of [n] turns that then stops is what the loop computes, with any
    fuel that covers the turns. *)
Lemma loop_run n st mid st' fuel :
  nsteps step n st mid → stops mid st' → (turns n mid ≤ fuel)%nat →
  construct_route_loop fuel st = Ok st'.
Proof.
  unfold turns. intros Hsteps Hstop. revert fuel.
  induction Hsteps as [st|n st st1 mid Hstep _ IH]; intros fuel Hfuel.
  - destruct Hstop as [Hact|Hact Hfind].
    + destruct fuel; simpl; by rewrite Hact.
    + rewrite Hact in Hfuel. destruct fuel as [|fuel]; [lia|].
      simpl. by rewrite Hact, Hfind.
  - destruct fuel as [|fuel]; [lia|].
    destruct Hstep as [mv Hact Hfind Happly]. simpl.
    rewrite Hact, Hfind. simpl. rewrite Happly. simpl. apply IH; [done|lia].
Qed.

Lemma loop_inv fuel st st' :
  construct_route_loop fuel st = Ok st' →
  ∃ n mid, nsteps step n st mid ∧ stops mid st' ∧ (turns n mid ≤ fuel)%nat.
Proof.
  revert st. induction fuel as [|fuel IH]; intros st; simpl.
  - destruct (active st) eqn:Hact; [done|]. intros [= <-].
    exists 0%nat, st. unfold turns. rewrite Hact.
    split_and!; [constructor|by constructor|lia].
  - destruct (active st) eqn:Hact; cycle 1.
    { intros [= <-]. exists 0%nat, st. unfold turns. rewrite Hact.
      split_and!; [constructor|by constructor|lia]. }
    destruct (find_nearest_valid_move st) as [[mv|]| |] eqn:Hfind; simpl; try done.
    + destruct (apply_move st mv) as [st1| |] eqn:Happly; simpl; try done.
      intros (n & mid & Hsteps & Hstop & Hfuel)%IH.
      exists (S n), mid. split_and!; [|done|unfold turns in *; lia].
      eapply nsteps_l; [|done]. by econstructor.
    + intros [= <-]. exists 0%nat, st. unfold turns. rewrite Hact.
      split_and!; [constructor|by constructor|lia].
Qed.

(** From a safe router the loop stops within the turns the guard leaves. *)
Lemma run_total (k : nat) st :
  lookup_safe st → 10 - events st ≤ Z.of_nat k →
  ∃ n mid st', nsteps step n st mid ∧ stops mid st' ∧ (turns n mid ≤ k)%nat.
Proof.
  revert st. induction k as [|k IH]; intros st Hsafe Hk.
  - exists 0%nat, st, (return_to_depot st). unfold turns.
    rewrite not_active_events by lia.
    split_and!; [constructor|constructor; apply not_active_events; lia|lia].
  - destruct (active st) eqn:Hact; cycle 1.
    { exists 0%nat, st, (return_to_depot st). unfold turns. rewrite Hact.
      split_and!; [constructor|by constructor|lia]. }
    destruct (find_Ok st) as [[mv|] Hfind]; cycle 1.
    { exists 0%nat, st, (no_valid_move st). unfold turns. rewrite Hact.
      split_and!; [constructor|by constructor|lia]. }
    destruct (apply_move_Ok st mv Hsafe Hfind) as [st1 Happly].
    assert (step st st1) as Hstep by by econstructor.
    destruct (IH st1) as (n & mid & st' & Hsteps & Hstop & Hn).
    { by eapply step_lookup_safe. }
    { rewrite (step_events st st1) by done. lia. }
    exists (S n), mid, st'. split_and!; [by eapply nsteps_l|done|].
    unfold turns in *. lia.
Qed.

(** An invariant of the turns holds along every run. *)
Lemma nsteps_invariant (I : VanRouter → Prop) n st mid :
  (∀ st st', step st st' → I st → I st') → nsteps step n st mid → I st → I mid.
Proof. intros Hpres. induction 1; eauto. Qed.

Lemma nsteps_events n st mid : nsteps step n st mid → events mid = events st + Z.of_nat n.
Proof.
  induction 1 as [|n st st1 mid Hstep _ IH]; [lia|].
  rewrite IH, (step_events st st1) by done. lia.
Qed.
End runs.

(** ** __init__ *)

Section init.
Import Heapq HeapqShape HeapqOrder HeapInv.

Lemma entry_snd_fmap (xs : list (Z * Package)) :
  Forall (λ x, x = entry x.2) xs → xs = entry <$> (snd <$> xs).
Proof. induction 1 as [|x xs Hx _ IH]; simpl; [done|]. by f_equal. Qed.

Lemma StronglySorted_entry (sel : list Package) :
  StronglySorted (leb_of lt_entry) (entry <$> sel) → StronglySorted pkg_le sel.
Proof.
  induction sel as [|p sel IH]; simpl; [constructor|].
  intros [Hs Hall]%StronglySorted_inv. constructor; [by apply IH|].
  rewrite Forall_fmap in Hall. exact Hall.
Qed.

(** [__init__] does not raise. The router it builds holds the selected
    packages [sel] in popping order and the others, [rest], as not
    completed. *)
Lemma VanRouter_init_spec (van : Van) (pkgs : list Package) :
  ∃ sel rest,
    VanRouter_init van pkgs =
      Ok {| van_capacity := van.1;
            fuel_per_unit := van.2;
            route := [(0, Start, 0)];
            current_location := 0;
            total_distance := 0;
            total_fuel := 0;
            current_load := 0;
            picked_up_packages := 0;
            delivered_packages := 0;
            pickups := (λ p, (pickup_of p, weight_of p)) <$> sel;
            deliveries := [];
            not_completed := rest;
            packages := sel |} ∧
    length sel = Nat.min 5 (length pkgs) ∧
    sel ++ rest ≡ₚ pkgs ∧
    StronglySorted pkg_le sel ∧
    Forall (λ p, Forall (pkg_le p) rest) sel.
Proof.
  destruct van as [capacity fuel]. unfold VanRouter_init.
  change (λ p : Package, (distance 0 (pickup_of p), p)) with entry.
  set (heap := heapify lt_entry (entry <$> pkgs)).
  assert (length heap = length pkgs) as Hlen.
  { unfold heap. by rewrite length_heapify, length_fmap. }
  destruct (heappop_n_heap lt_entry (Nat.min 5 (length heap)) heap)
    as (xs & h' & -> & Hxs & Hperm & Hsorted & Hsplit).
  { apply heapify_heap, _. }
  { lia. }
  simpl. exists (snd <$> xs), (snd <$> h').
  assert (xs ++ h' ≡ₚ entry <$> pkgs) as Hperm'.
  { rewrite Hperm. apply heapify_perm. }
  assert (Forall (λ x, x = entry x.2) (xs ++ h')) as [Hex Heh]%Forall_app.
  { rewrite Hperm'. apply Forall_fmap, Forall_forall. by intros p _. }
  split_and!.
  - done.
  - by rewrite length_fmap, Hxs, Hlen.
  - rewrite <-fmap_app, Hperm', <-list_fmap_compose. by rewrite list_fmap_id.
  - apply StronglySorted_entry. by rewrite <-entry_snd_fmap.
  - rewrite Forall_forall in Hsplit, Hex, Heh.
    apply Forall_fmap, Forall_forall. intros x Hx. simpl.
    apply Forall_fmap, Forall_forall. intros y Hy. simpl.
    unfold pkg_le. rewrite <-(Hex x), <-(Heh y) by done.
    specialize (Hsplit x Hx). rewrite Forall_forall in Hsplit. by apply Hsplit.
Qed.
End init.

(** ** Invariants of the loop *)

Section invariants.
Implicit Types st : VanRouter.

Lemma route_load_snoc rt m : route_load (rt ++ [m]) = route_load rt + move_load m.
Proof. unfold route_load. induction rt as [|m' rt IH]; simpl; lia. Qed.

Lemma sum_weights_snoc l lw : sum_weights (l ++ [lw]) = sum_weights l + lw.2.
Proof. unfold sum_weights. induction l as [|x l IH]; simpl; lia. Qed.

#[local] Instance sum_weights_perm : Proper ((≡ₚ) ==> (=)) sum_weights.
Proof. unfold sum_weights. induction 1; simpl; lia. Qed.

Lemma sum_weights_positive l :
  Forall (λ lw, 0 < lw.2) l → 0 ≤ sum_weights l ∧ (sum_weights l = 0 ↔ l = []).
Proof.
  unfold sum_weights. induction 1 as [|lw l Hlw _ [IH1 IH2]]; simpl; [done|].
  split; [lia|]. split; [lia|done].
Qed.

Lemma prefix_snoc_cases (pre rt : list Move) m :
  pre `prefix_of` rt ++ [m] → pre `prefix_of` rt ∨ pre = rt ++ [m].
Proof.
  intros [k Hk]. destruct k as [|x k _] using rev_ind.
  - right. by rewrite app_nil_r in Hk.
  - left. rewrite app_assoc in Hk. apply app_inj_tail in Hk as [-> _].
    by exists k.
Qed.

Lemma load_within_snoc cap rt m :
  load_within cap rt → route_load (rt ++ [m]) ≤ cap → load_within cap (rt ++ [m]).
Proof. intros Hrt Hm pre [?| ->]%prefix_snoc_cases; [by apply Hrt|done]. Qed.

Lemma step_constants st st' :
  step st st' →
  van_capacity st' = van_capacity st ∧ fuel_per_unit st' = fuel_per_unit st ∧
  packages st' = packages st ∧ not_completed st' = not_completed st.
Proof.
  by intros [(loc & w & dloc & pickups' & _ & _ & _ & ->)
            |(loc & w & deliveries' & _ & _ & ->)]%step_cases.
Qed.

Lemma step_fuel st st' :
  step st st' →
  total_fuel st = total_distance st * fuel_per_unit st →
  total_fuel st' = total_distance st' * fuel_per_unit st'.
Proof.
  intros [(loc & w & dloc & pickups' & _ & _ & _ & ->)
         |(loc & w & deliveries' & _ & _ & ->)]%step_cases; simpl; lia.
Qed.

Lemma step_no_end st st' :
  step st st' → (0, End, 0) ∉ route st → (0, End, 0) ∉ route st'.
Proof.
  intros [(loc & w & dloc & pickups' & _ & _ & _ & ->)
         |(loc & w & deliveries' & _ & _ & ->)]%step_cases Hno; simpl;
    rewrite elem_of_app, list_elem_of_singleton; by intros [?|[=]].
Qed.

Lemma step_load_inv st st' : step st st' → load_inv st → load_inv st'.
Proof.
  intros [(loc & w & dloc & pickups' & _ & Hrem%list_remove_Some & _ & ->)
         |(loc & w & deliveries' & Hin & Hrem%list_remove_Some & ->)]%step_cases
    [Hdel Hpos]; split; simpl in *.
  - rewrite sum_weights_snoc. simpl. lia.
  - rewrite Hrem in Hpos. apply Forall_app in Hpos as [Hp Hd].
    apply Forall_cons in Hp as [Hw Hp].
    rewrite app_assoc. apply Forall_app. split; [by apply Forall_app|].
    by apply Forall_singleton.
  - rewrite Hrem in Hdel. unfold sum_weights in *. simpl in *. lia.
  - rewrite Hrem in Hpos. apply Forall_app in Hpos as [Hp Hd].
    apply Forall_cons in Hd as [_ Hd]. by apply Forall_app.
Qed.

Lemma step_capacity_inv st st' :
  step st st' → load_inv st → capacity_inv st → capacity_inv st'.
Proof.
  intros [(loc & w & dloc & pickups' & [Hfit _]%elem_of_feasible & _ & _ & ->)
         |(loc & w & deliveries' & Hin & _ & ->)]%step_cases
    [_ Hpos] [Hroute Hcap]; split; simpl in *.
  - rewrite route_load_snoc. unfold move_load. simpl. lia.
  - apply load_within_snoc; [done|].
    rewrite route_load_snoc. unfold move_load. simpl. lia.
  - rewrite route_load_snoc. unfold move_load. simpl. lia.
  - apply load_within_snoc; [done|].
    rewrite route_load_snoc. unfold move_load. simpl.
    apply Forall_app in Hpos as [_ Hd]. rewrite Forall_forall in Hd.
    specialize (Hd _ Hin). simpl in Hd.
    assert (route_load (route st) ≤ van_capacity st) by by apply Hcap.
    lia.
Qed.

Lemma stops_load_within st st' :
  stops st st' → capacity_inv st → load_within (van_capacity st') (route st').
Proof.
  intros [Hact|Hact Hfind] [Hroute Hcap]; simpl; [|done].
  apply load_within_snoc; [done|].
  rewrite route_load_snoc. unfold move_load. simpl.
  assert (route_load (route st) ≤ van_capacity st) by by apply Hcap.
  lia.
Qed.

(** The router of [__init__] satisfies the invariants. *)
Lemma init_safe van pkgs st0 :
  VanRouter_init van pkgs = Ok st0 → lookup_safe st0.
Proof.
  destruct (VanRouter_init_spec van pkgs) as (sel & rest & -> & _).
  intros [= <-] lw. simpl. intros (p & -> & Hp)%list_elem_of_fmap. by exists p.
Qed.

Lemma init_load_inv van pkgs st0 :
  Forall valid_package pkgs → VanRouter_init van pkgs = Ok st0 → load_inv st0.
Proof.
  destruct (VanRouter_init_spec van pkgs) as (sel & rest & -> & _ & Hperm & _).
  intros Hvalid [= <-]. split; simpl; [done|].
  rewrite app_nil_r. apply Forall_fmap.
  rewrite <-Hperm in Hvalid. apply Forall_app in Hvalid as [Hsel _].
  eapply Forall_impl; [done|]. by intros p [??].
Qed.

Lemma init_capacity_inv van pkgs st0 :
  valid_van van → VanRouter_init van pkgs = Ok st0 → capacity_inv st0.
Proof.
  destruct (VanRouter_init_spec van pkgs) as (sel & rest & -> & _).
  intros [Hcap _] [= <-]. split; simpl; [done|].
  intros pre [k Hk]. destruct pre as [|m [|m' pre]]; simplify_eq/=.
  - unfold route_load. simpl. lia.
  - unfold route_load, move_load. simpl. lia.
Qed.

Lemma init_fields van pkgs st0 :
  VanRouter_init van pkgs = Ok st0 →
  van_capacity st0 = van.1 ∧ fuel_per_unit st0 = van.2 ∧
  total_distance st0 = 0 ∧ total_fuel st0 = 0 ∧ events st0 = 0 ∧
  route st0 = [(0, Start, 0)] ∧
  (length (packages st0) ≤ 5)%nat ∧ length (pickups st0) = length (packages st0).
Proof.
  destruct (VanRouter_init_spec van pkgs) as (sel & rest & -> & Hlen & _).
  intros [= <-]. simpl. rewrite length_fmap. split_and!; try done. lia.
Qed.

Lemma VanRouter_init_Ok van pkgs : ∃ st0, VanRouter_init van pkgs = Ok st0.
Proof.
  destruct (VanRouter_init_spec van pkgs) as (sel & rest & -> & _). by eexists.
Qed.

Lemma nsteps_constants n st mid :
  nsteps step n st mid →
  van_capacity mid = van_capacity st ∧ fuel_per_unit mid = fuel_per_unit st ∧
  packages mid = packages st ∧ not_completed mid = not_completed st.
Proof.
  induction 1 as [|n st st1 mid Hstep%step_constants _ IH]; [done|].
  destruct IH as (-> & -> & -> & ->). done.
Qed.

(** [construct_route] returns on the router of [__init__], whatever fuel
    of at least ten turns the loop is given. *)
Lemma construct_route_total van pkgs st0 :
  VanRouter_init van pkgs = Ok st0 →
  ∃ n mid st',
    nsteps step n st0 mid ∧ stops mid st' ∧ (turns n mid ≤ 10)%nat ∧
    ∀ fuel, (10 ≤ fuel)%nat → construct_route_loop fuel st0 = Ok st'.
Proof.
  intros Hinit.
  destruct (init_fields van pkgs st0 Hinit) as (_ & _ & _ & _ & Hev & _).
  destruct (run_total 10 st0) as (n & mid & st' & Hsteps & Hstop & Hn).
  { by eapply init_safe. }
  { lia. }
  exists n, mid, st'. split_and!; [done..|].
  intros fuel Hfuel. eapply loop_run; [done..|lia].
Qed.
End invariants.

(** * The claims *)

(** C1: on the vans [(10,10); (9,8)] and the packages
    [(-1,5,4); (6,2,9); (-2,9,3)] the single-van optimizer chooses the van
    [(9,8)], with total distance 22, total fuel 176 and a route whose
    (location, action) view is start at 0, pick at -1, pick at -2, drop at 5,
    drop at 9, pick at 6, drop at 2, end at 0. *)
Theorem scenario_A (log_not_completed : bool) :
  ∃ rt nc,
    (find_optimal_route_for_single_van
       [(10, 10); (9, 8)] [(-1, 5, 4); (6, 2, 9); (-2, 9, 3)]
       log_not_completed).2
    = Ok (Some (9, 8), 22, 176, rt, nc) ∧
    simplified rt =
      [(0, Start); (-1, Pick); (-2, Pick); (5, Drop); (9, Drop); (6, Pick);
       (2, Drop); (0, End)].
Proof.
  exists [(0, Start, 0); (-1, Pick, 4); (-2, Pick, 3); (5, Drop, 4); (9, Drop, 3);
          (6, Pick, 9); (2, Drop, 9); (0, End, 0)], [].
  by destruct log_not_completed; vm_compute.
Qed.

(** C2: for a valid van and valid packages, at every turn of
    [construct_route] the load carried (weights picked and not yet dropped
    along the route so far) is the router's [current_load] and never exceeds
    the van's capacity, on every prefix of the route and of the route finally
    returned; a pick is only chosen when [current_load + weight <= capacity]. *)
Theorem capacity_invariant (van : Van) (pkgs : list Package) :
  valid_van van → Forall valid_package pkgs →
  ∃ st0, VanRouter_init van pkgs = Ok st0 ∧
    ∀ st, rtc step st0 st →
      current_load st = route_load (route st) ∧
      load_within van.1 (route st) ∧
      (∀ d loc w, find_nearest_valid_move st = Ok (Some (d, loc, Pick, w)) →
                  current_load st + w ≤ van.1) ∧
      (∀ st', stops st st' → load_within van.1 (route st')).
Proof.
  intros Hvan Hpkgs.
  destruct (VanRouter_init_Ok van pkgs) as [st0 Hinit].
  exists st0. split; [done|]. intros st [n Hsteps]%rtc_nsteps.
  assert (load_inv st ∧ capacity_inv st) as [Hload [Hroute Hcap]].
  { apply (nsteps_invariant (λ st, load_inv st ∧ capacity_inv st) n st0 st);
      [|done|].
    - intros s s' Hstep [??]. split; [by eapply step_load_inv|].
      by eapply step_capacity_inv.
    - split; [by eapply init_load_inv|by eapply init_capacity_inv]. }
  destruct (init_fields van pkgs st0 Hinit) as (Hc0 & _).
  destruct (nsteps_constants n st0 st Hsteps) as (Hc & _).
  rewrite Hc0 in Hc. rewrite Hc in Hcap. split_and!; [done..| |].
  - intros d loc w [_ [[_ [Hfit _]%elem_of_feasible]|[[=] _]]]%find_Some.
    simpl in Hfit. lia.
  - intros st' Hstop. apply stops_load_within in Hstop as Hw; [|by split; rewrite ?Hc].
    replace (van_capacity st') with van.1 in Hw; [done|].
    by destruct Hstop.
Qed.

Lemma capacity_invariant_witness :
  valid_van (9, 8) ∧ Forall valid_package [(-1, 5, 4); (6, 2, 9); (-2, 9, 3)] ∧
  ∃ st0, VanRouter_init (9, 8) [(-1, 5, 4); (6, 2, 9); (-2, 9, 3)] = Ok st0 ∧
    ∀ st, rtc step st0 st →
      current_load st = route_load (route st) ∧
      load_within 9 (route st) ∧
      (∀ d loc w, find_nearest_valid_move st = Ok (Some (d, loc, Pick, w)) →
                  current_load st + w ≤ 9) ∧
      (∀ st', stops st st' → load_within 9 (route st')).
Proof.
  assert (valid_van (9, 8)) as Hvan by (by vm_compute).
  assert (Forall valid_package [(-1, 5, 4); (6, 2, 9); (-2, 9, 3)]) as Hpkgs
    by (repeat constructor; by vm_compute).
  split; [exact Hvan|]. split; [exact Hpkgs|].
  exact (capacity_invariant (9, 8) [(-1, 5, 4); (6, 2, 9); (-2, 9, 3)] Hvan Hpkgs).
Defined.

(** C9: [construct_route] terminates on every input. Each turn of its loop
    completes exactly one more pickup or delivery, the guard allows a turn
    only below ten of them, so the loop makes at most ten turns (ten units
    of fuel, or more, give the result), and [__init__] keeps at most five
    packages for the attempt. *)
Theorem construct_route_terminates (van : Van) (pkgs : list Package) :
  (∀ st st', step st st' → events st' = events st + 1) ∧
  (∀ st, active st = true → events st < 10) ∧
  ∃ st0, VanRouter_init van pkgs = Ok st0 ∧
    (length (packages st0) ≤ 5)%nat ∧ (length (pickups st0) ≤ 5)%nat ∧
    ∃ n mid st',
      nsteps step n st0 mid ∧ stops mid st' ∧ (n ≤ 10)%nat ∧
      events mid = Z.of_nat n ∧
      construct_route st0 = Ok st' ∧
      ∀ fuel, (10 ≤ fuel)%nat → construct_route_loop fuel st0 = Ok st'.
Proof.
  split; [apply step_events|]. split; [apply active_events|].
  destruct (VanRouter_init_Ok van pkgs) as [st0 Hinit].
  exists st0. split; [done|].
  destruct (init_fields van pkgs st0 Hinit) as (_ & _ & _ & _ & Hev & _ & Hlen & Hpick).
  destruct (construct_route_total van pkgs st0 Hinit)
    as (n & mid & st' & Hsteps & Hstop & Hn & Hrun).
  split; [done|]. split; [lia|].
  exists n, mid, st'. split_and!; [done..| | |by apply Hrun|done].
  - unfold turns in Hn. lia.
  - rewrite (nsteps_events n st0 mid Hsteps). lia.
Qed.

(** C10: with valid packages, at every turn of [construct_route] the
    current load is the total weight of the pending deliveries; it is never
    negative, and it is 0 exactly when no delivery is pending. *)
Theorem load_is_pending_weight (van : Van) (pkgs : list Package) :
  Forall valid_package pkgs →
  ∃ st0, VanRouter_init van pkgs = Ok st0 ∧
    ∀ st, rtc step st0 st →
      current_load st = sum_weights (deliveries st) ∧
      0 ≤ current_load st ∧
      (current_load st = 0 ↔ deliveries st = []).
Proof.
  intros Hpkgs.
  destruct (VanRouter_init_Ok van pkgs) as [st0 Hinit].
  exists st0. split; [done|]. intros st [n Hsteps]%rtc_nsteps.
  assert (load_inv st) as [Hdel Hpos].
  { apply (nsteps_invariant load_inv n st0 st);
      [apply step_load_inv|done|by eapply init_load_inv]. }
  apply Forall_app in Hpos as [_ Hpos].
  apply sum_weights_positive in Hpos as [Hnonneg Hzero]. rewrite Hdel.
  by split_and!.
Qed.

Lemma load_is_pending_weight_witness :
  Forall valid_package [(-1, 5, 4); (6, 2, 9); (-2, 9, 3)] ∧
  ∃ st0, VanRouter_init (9, 8) [(-1, 5, 4); (6, 2, 9); (-2, 9, 3)] = Ok st0 ∧
    ∀ st, rtc step st0 st →
      current_load st = sum_weights (deliveries st) ∧
      0 ≤ current_load st ∧
      (current_load st = 0 ↔ deliveries st = []).
Proof.
  assert (Forall valid_package [(-1, 5, 4); (6, 2, 9); (-2, 9, 3)]) as Hpkgs
    by (repeat constructor; by vm_compute).
  split; [exact Hpkgs|].
  exact (load_is_pending_weight (9, 8) [(-1, 5, 4); (6, 2, 9); (-2, 9, 3)] Hpkgs).
Defined.

(** C6: when a turn of [construct_route] finds no feasible pickup and no
    pending delivery, the pending pickups and deliveries are appended to
    [not_completed] as [(loc, loc, weight)] triples and the method returns
    at once: the route, distance and fuel are those reached so far, and the
    route has no [(0, End, 0)] move. *)
Theorem no_move_returns_partial_route
    (van : Van) (pkgs : list Package) (st0 mid : VanRouter) :
  VanRouter_init van pkgs = Ok st0 → rtc step st0 mid →
  active mid = true → feasible mid = [] → deliveries mid = [] →
  ∃ st', construct_route st0 = Ok st' ∧
    not_completed st' =
      (not_completed mid ++ self_referential (pickups mid))
        ++ self_referential (deliveries mid) ∧
    route st' = route mid ∧
    total_distance st' = total_distance mid ∧
    total_fuel st' = total_fuel mid ∧
    (0, End, 0) ∉ route st'.
Proof.
  intros Hinit [n Hsteps]%rtc_nsteps Hact Hfeas Hdel.
  assert (find_nearest_valid_move mid = Ok None) as Hfind by by apply find_None.
  destruct (init_fields van pkgs st0 Hinit) as (_ & _ & _ & _ & Hev & Hroute & _).
  exists (no_valid_move mid). split_and!; try done.
  - apply (loop_run n st0 mid); [done|by constructor|].
    unfold turns. rewrite Hact.
    pose proof (nsteps_events n st0 mid Hsteps).
    pose proof (active_events mid Hact). lia.
  - simpl.
    apply (nsteps_invariant (λ st, (0, End, 0) ∉ route st) n st0 mid);
      [apply step_no_end|done|].
    rewrite Hroute. by intros [=]%list_elem_of_singleton.
Qed.

Lemma no_move_returns_partial_route_witness :
  ∃ st0 mid,
    VanRouter_init (10, 1) [(1, 2, 5); (3, 4, 20)] = Ok st0 ∧ rtc step st0 mid ∧
    active mid = true ∧ feasible mid = [] ∧ deliveries mid = [] ∧
    ∃ st', construct_route st0 = Ok st' ∧
      not_completed st' = [(3, 3, 20)] ∧
      route st' = [(0, Start, 0); (1, Pick, 5); (2, Drop, 5)] ∧
      total_distance st' = 2 ∧ total_fuel st' = 2 ∧
      (0, End, 0) ∉ route st'.
Proof.
  set (st0 := mkVanRouter 10 1 [(0, Start, 0)] 0 0 0 0 0 0
                [(1, 5); (3, 20)] [] [] [(1, 2, 5); (3, 4, 20)]).
  set (st1 := mkVanRouter 10 1 [(0, Start, 0); (1, Pick, 5)] 1 1 1 5 1 0
                [(3, 20)] [(2, 5)] [] [(1, 2, 5); (3, 4, 20)]).
  set (mid := mkVanRouter 10 1 [(0, Start, 0); (1, Pick, 5); (2, Drop, 5)] 2 2 2 0 1 1
                [(3, 20)] [] [] [(1, 2, 5); (3, 4, 20)]).
  assert (VanRouter_init (10, 1) [(1, 2, 5); (3, 4, 20)] = Ok st0) as Hinit
    by (by vm_compute).
  assert (rtc step st0 mid) as Hsteps.
  { apply (rtc_l _ _ st1); [|apply rtc_once].
    - by apply (step_move st0 st1 (1, 1, Pick, 5)); vm_compute.
    - by apply (step_move st1 mid (1, 2, Drop, 5)); vm_compute. }
  assert (active mid = true) as Hact by (by vm_compute).
  assert (feasible mid = []) as Hfeas by (by vm_compute).
  assert (deliveries mid = []) as Hdel by done.
  exists st0, mid. split_and!; [done..|].
  destruct (no_move_returns_partial_route (10, 1) [(1, 2, 5); (3, 4, 20)] st0 mid
              Hinit Hsteps Hact Hfeas Hdel)
    as (st' & Hrun & Hnc & Hroute & Hdist & Hfuel & Hend).
  exists st'. split_and!; done.
Defined.

(** The order of the window, spelled out. *)
Lemma pkg_le_spec (p q : Package) :
  pkg_le p q ↔
  distance 0 (pickup_of p) < distance 0 (pickup_of q) ∨
  distance 0 (pickup_of p) = distance 0 (pickup_of q) ∧ lt3 q p = false.
Proof.
  unfold pkg_le, leb_of, lt_entry, entry. simpl.
  case_decide; rewrite ?bool_decide_eq_false; [|lia].
  split; [|intros [?|[_ ?]]; [lia|done]]. intros ?. right. split; [lia|done].
Qed.

(** C4, as the code has it: [__init__] selects [min(5, n)] packages, in
    ascending order of (distance of the pickup from the depot, then the
    package tuple itself, compared as Python compares tuples), every selected
    package coming before every other one in that order; the others are the
    packages recorded as not completed. Equal distances are thus ordered by
    pickup, delivery and weight, not by position in the input. *)
Theorem window_selects_least (van : Van) (pkgs : list Package) :
  ∃ st0, VanRouter_init van pkgs = Ok st0 ∧
    length (packages st0) = Nat.min 5 (length pkgs) ∧
    packages st0 ++ not_completed st0 ≡ₚ pkgs ∧
    StronglySorted pkg_le (packages st0) ∧
    Forall (λ p, Forall (pkg_le p) (not_completed st0)) (packages st0) ∧
    ∀ p q, pkg_le p q ↔
      distance 0 (pickup_of p) < distance 0 (pickup_of q) ∨
      distance 0 (pickup_of p) = distance 0 (pickup_of q) ∧ lt3 q p = false.
Proof.
  destruct (VanRouter_init_spec van pkgs)
    as (sel & rest & Hinit & Hlen & Hperm & Hsorted & Hsplit).
  eexists. split; [done|]. simpl. split_and!; [done..|apply pkg_le_spec].
Qed.

(** C4, as stated, fails: of six valid packages at distance 1 the code
    leaves out the fifth of the input, not the sixth. *)
Lemma window_by_insertion_order_counterexample :
  let pkgs := [(1, 2, 1); (1, 3, 1); (1, 4, 1); (1, 5, 1); (1, 6, 1); (-1, 7, 1)] in
  Forall valid_package pkgs ∧
  window_by_insertion_order pkgs
    = [(1, 2, 1); (1, 3, 1); (1, 4, 1); (1, 5, 1); (1, 6, 1)] ∧
  ∃ st0, VanRouter_init (10, 10) pkgs = Ok st0 ∧
    packages st0 = [(-1, 7, 1); (1, 2, 1); (1, 3, 1); (1, 4, 1); (1, 5, 1)] ∧
    not_completed st0 = [(1, 6, 1)] ∧
    ¬ packages st0 ≡ₚ window_by_insertion_order pkgs.
Proof.
  intros pkgs. split; [repeat constructor; by vm_compute|]. split; [by vm_compute|].
  eexists. split; [by vm_compute|]. simpl. split_and!; [done..|].
  assert (¬ (-1, 7, 1) ∈ window_by_insertion_order pkgs) as Hnot.
  { apply (bool_decide_eq_false_1 ((-1, 7, 1) ∈ window_by_insertion_order pkgs)).
    by vm_compute. }
  intros Hperm. apply Hnot. rewrite <-Hperm. left.
Qed.

(** ** The single-van optimizer *)

Section single_van.
Lemma attempt_Ok van pkgs : ∃ st', attempt van pkgs = Ok st'.
Proof.
  destruct (VanRouter_init_Ok van pkgs) as [st0 Hinit].
  destruct (construct_route_total van pkgs st0 Hinit)
    as (n & mid & st' & _ & _ & _ & Hrun).
  exists st'. unfold attempt. rewrite Hinit. simpl. by apply Hrun.
Qed.

Lemma try_van_attempt pkgs best van st' :
  attempt van pkgs = Ok st' →
  try_van pkgs best van =
    Ok (if fuel_lt (total_fuel st') (best_fuel best)
           && bool_decide (0 < picked_up_packages st')
        then Some (van, route st', total_distance st', total_fuel st',
                   not_completed st')
        else best).
Proof.
  unfold attempt, try_van.
  destruct (VanRouter_init van pkgs) as [st0| |]; simpl; try done.
  intros ->. simpl. by case_match.
Qed.


(** The value the optimizer returns, read off the loop over the vans. *)
Lemma single_van_result van_stats pkgs log_not_completed :
  (find_optimal_route_for_single_van van_stats pkgs log_not_completed).2 =
    match filter valid_package pkgs with
    | [] =>
      match filter valid_van van_stats with
      | van :: _ => Ok (Some van, 0, 0, [(0, Start, 0); (0, End, 0)], [])
      | [] => Ok (None, 0, 0, [], [])
      end
    | ps =>
      match try_vans ps (filter valid_van van_stats) None with
      | Ok (Some (van, (_ :: _) as rt, dist, fuel, nc)) =>
        Ok (Some van, dist, fuel, rt, nc)
      | Ok _ => Ok (None, 0, 0, [], ps)
      | Raise e => Raise e
      | OutOfFuel => OutOfFuel
      end
    end.
Proof.
  unfold find_optimal_route_for_single_van, filter_invalid_input, mbind,
    Logged_bind, silent. simpl.
  destruct (filter valid_package pkgs) as [|p ps]; simpl.
  { by destruct (filter valid_van van_stats). }
  destruct (try_vans (p :: ps) (filter valid_van van_stats) None)
    as [[[[[[van rt] dist] fuel] nc]|]| |]; simpl; try done.
  - destruct nc, log_not_completed, rt; done.
Qed.

End single_van.




(** C3 does not hold of the code: a package left pending when the route
    builder gives up is returned as [(pickup, pickup, weight)], which is not
    a package of the input; fed back to the next van of the multi-van
    allocator it is filtered out as invalid, and the package is neither
    served nor reported. *)
Theorem partition_law_fails :
  find_optimal_route_for_single_van [(10, 1)] [(1, 2, 5); (3, 4, 20)] false
  = ([], Ok (Some (10, 1), 2, 2,
             [(0, Start, 0); (1, Pick, 5); (2, Drop, 5)], [(3, 3, 20)])) ∧
  find_optimal_route_for_multiple_vans [(10, 1); (30, 2)] [(1, 2, 5); (3, 4, 20)]
  = ([InvalidPackage (3, 3, 20)],
     Ok ([(10, 1); (30, 2)], 2, 2,
         [[(0, Start, 0); (1, Pick, 5); (2, Drop, 5)];
          [(0, Start, 0); (0, End, 0)]])).
Proof. split; by vm_compute. Qed.

(** ** sorted *)

Section sorted.
Context {A : Type} (key : A → Z).

Lemma insert_by_key_perm x l : insert_by_key key x l ≡ₚ x :: l.
Proof.
  induction l as [|y l IH]; simpl; [done|].
  case_decide; [|done]. rewrite IH. apply perm_swap.
Qed.

Lemma sorted_perm l : sorted key l ≡ₚ l.
Proof.
  unfold sorted. induction l as [|x l IH]; simpl; [done|].
  by rewrite insert_by_key_perm, IH.
Qed.

Lemma insert_by_key_sorted x l :
  StronglySorted (λ a b, key a ≤ key b) l →
  StronglySorted (λ a b, key a ≤ key b) (insert_by_key key x l).
Proof.
  induction 1 as [|y l Hl IH Hy]; simpl.
  { repeat constructor. }
  case_decide.
  - constructor; [done|]. rewrite insert_by_key_perm.
    constructor; [lia|done].
  - constructor; [by constructor|].
    constructor; [lia|]. eapply Forall_impl; [done|]. simpl. lia.
Qed.

Lemma sorted_sorted l : StronglySorted (λ a b, key a ≤ key b) (sorted key l).
Proof.
  unfold sorted. induction l as [|x l IH]; simpl; [constructor|].
  by apply insert_by_key_sorted.
Qed.

(** Stability: the items of one key keep their order. *)
Lemma insert_by_key_stable k x l :
  filter (λ a, key a = k) (insert_by_key key x l)
  = filter (λ a, key a = k) (x :: l).
Proof.
  induction l as [|y l IH]; simpl; [done|].
  case_decide as Hlt; [|done].
  rewrite (filter_cons _ y), IH, !filter_cons.
  repeat case_decide; try done. lia.
Qed.

Lemma sorted_stable k l :
  filter (λ a, key a = k) (sorted key l) = filter (λ a, key a = k) l.
Proof.
  unfold sorted. induction l as [|x l IH]; simpl; [done|].
  by rewrite insert_by_key_stable, !filter_cons, IH.
Qed.
End sorted.

(** ** The multi-van allocator *)

Section allocate.
(** Run for one van, the single-van optimizer returns and chooses that van
    or none. *)
Lemma single_van_one van pkgs log_not_completed :
  ∃ best_van dist fuel rt nc,
    (find_optimal_route_for_single_van [van] pkgs log_not_completed).2
    = Ok (best_van, dist, fuel, rt, nc) ∧
    (best_van = None ∨ best_van = Some van).
Proof.
  rewrite single_van_result.
  assert (filter valid_van [van] = [] ∨ filter valid_van [van] = [van]) as Hvan.
  { rewrite filter_cons, filter_nil. case_decide; auto. }
  destruct (filter valid_package pkgs) as [|p ps].
  { destruct Hvan as [-> | ->]; repeat eexists; auto. }
  cbv zeta. destruct Hvan as [-> | ->]; simpl.
  { repeat eexists; auto. }
  destruct (attempt_Ok van (p :: ps)) as [st' Hst'].
  rewrite (try_van_attempt (p :: ps) None van st' Hst'). simpl.
  destruct (bool_decide (0 < picked_up_packages st')); simpl;
    [destruct (route st')|]; repeat eexists; auto.
Qed.

Lemma allocate_stop van rest acc dist fuel rt nc :
  remaining_packages acc ≠ [] →
  (find_optimal_route_for_single_van [van] (remaining_packages acc) false).2
  = Ok (None, dist, fuel, rt, nc) →
  (allocate (van :: rest) acc).2 = Ok acc.
Proof.
  intros Hrem Hnone. cbn [allocate].
  destruct (remaining_packages acc) as [|p ps]; [done|].
  unfold mbind, Logged_bind. by rewrite Hnone.
Qed.

Lemma allocate_next van rest acc best_van dist fuel rt nc :
  remaining_packages acc ≠ [] →
  (find_optimal_route_for_single_van [van] (remaining_packages acc) false).2
  = Ok (Some best_van, dist, fuel, rt, nc) →
  (allocate (van :: rest) acc).2
  = (allocate rest
       {| alloc_fuel := alloc_fuel acc + fuel;
          alloc_distance := alloc_distance acc + dist;
          vans_used := vans_used acc ++ [best_van];
          routes := routes acc ++ [rt];
          remaining_packages := nc |}).2.
Proof.
  intros Hrem Hsome. cbn [allocate].
  destruct (remaining_packages acc) as [|p ps]; [done|].
  unfold mbind, Logged_bind. by rewrite Hsome.
Qed.

(** The allocator returns; the vans it used are the first ones of the
    list it was given, in order, each with one route. *)
Lemma allocate_prefix vans acc :
  ∃ acc' (k : nat),
    (allocate vans acc).2 = Ok acc' ∧
    vans_used acc' = vans_used acc ++ take k vans ∧
    length (routes acc') = (length (routes acc) + length (take k vans))%nat.
Proof.
  revert acc. induction vans as [|van vans IH]; intros acc.
  { exists acc, 0%nat. simpl. by rewrite app_nil_r, Nat.add_0_r. }
  destruct (decide (remaining_packages acc = [])) as [Hnil|Hrem].
  { exists acc, 0%nat. simpl. rewrite Hnil. simpl.
    by rewrite app_nil_r, Nat.add_0_r. }
  destruct (single_van_one van (remaining_packages acc) false)
    as (best_van & dist & fuel & rt & nc & Hres & [-> | ->]).
  - exists acc, 0%nat. split; [by eapply allocate_stop|].
    simpl. by rewrite app_nil_r, Nat.add_0_r.
  - rewrite (allocate_next van vans acc van dist fuel rt nc) by done.
    destruct (IH {| alloc_fuel := alloc_fuel acc + fuel;
                    alloc_distance := alloc_distance acc + dist;
                    vans_used := vans_used acc ++ [van];
                    routes := routes acc ++ [rt];
                    remaining_packages := nc |})
      as (acc' & k & -> & Hused & Hroutes).
    exists acc', (S k). split; [done|]. simpl in *.
    rewrite Hused, Hroutes, <-app_assoc, length_app. simpl. split; [done|lia].
Qed.

(** The value and the last warning of the allocator's entry point. *)
Lemma multiple_vans_result van_stats pkgs acc :
  (allocate (top_vans (filter valid_van van_stats))
     {| alloc_fuel := 0; alloc_distance := 0; vans_used := []; routes := [];
        remaining_packages := filter valid_package pkgs |}).2 = Ok acc →
  (find_optimal_route_for_multiple_vans van_stats pkgs).2
  = Ok (vans_used acc, alloc_distance acc, alloc_fuel acc, routes acc) ∧
  (remaining_packages acc ≠ [] →
   last (find_optimal_route_for_multiple_vans van_stats pkgs).1
   = Some (NotCompletedMulti (remaining_packages acc))).
Proof.
  intros Hacc.
  unfold find_optimal_route_for_multiple_vans, filter_invalid_input, mbind,
    Logged_bind. simpl. rewrite Hacc. simpl.
  destruct (remaining_packages acc) as [|p ps]; simpl; [done|].
  split; [done|]. intros _. rewrite app_assoc. apply last_snoc.
Qed.
End allocate.

(** C8: the multi-van allocator works through the three valid vans of lowest
    fuel per unit, taken from an ascending stable sort (vans of equal fuel
    keep their input order); each van is run against the packages the
    previous one left; the vans used are the first ones of that shortlist;
    and as soon as the single-van optimizer chooses no van for one of them,
    the loop ends there, whatever vans follow in the shortlist, and the
    remaining packages stay unserved and are reported as such. *)
Theorem multi_van_shortlist_and_early_stop
    (van_stats : list Van) (pkgs : list Package) :
  let vans := filter valid_van van_stats in
  (top_vans vans = take 3 (sorted snd vans) ∧
   sorted snd vans ≡ₚ vans ∧
   StronglySorted (λ a b, a.2 ≤ b.2) (sorted snd vans) ∧
   ∀ fuel, filter (λ van, van.2 = fuel) (sorted snd vans)
           = filter (λ van, van.2 = fuel) vans) ∧
  (∃ acc (k : nat),
     (allocate (top_vans vans)
        {| alloc_fuel := 0; alloc_distance := 0; vans_used := []; routes := [];
           remaining_packages := filter valid_package pkgs |}).2 = Ok acc ∧
     (find_optimal_route_for_multiple_vans van_stats pkgs).2
     = Ok (vans_used acc, alloc_distance acc, alloc_fuel acc, routes acc) ∧
     vans_used acc = take k (top_vans vans) ∧ (length (vans_used acc) ≤ 3)%nat ∧
     (remaining_packages acc ≠ [] →
      last (find_optimal_route_for_multiple_vans van_stats pkgs).1
      = Some (NotCompletedMulti (remaining_packages acc)))) ∧
  (∀ van rest acc best_van dist fuel rt nc,
     remaining_packages acc ≠ [] →
     (find_optimal_route_for_single_van [van] (remaining_packages acc) false).2
     = Ok (Some best_van, dist, fuel, rt, nc) →
     (allocate (van :: rest) acc).2
     = (allocate rest
          {| alloc_fuel := alloc_fuel acc + fuel;
             alloc_distance := alloc_distance acc + dist;
             vans_used := vans_used acc ++ [best_van];
             routes := routes acc ++ [rt];
             remaining_packages := nc |}).2) ∧
  (∀ van rest acc dist fuel rt nc,
     remaining_packages acc ≠ [] →
     (find_optimal_route_for_single_van [van] (remaining_packages acc) false).2
     = Ok (None, dist, fuel, rt, nc) →
     (allocate (van :: rest) acc).2 = Ok acc).
Proof.
  intros vans. split_and!.
  - done.
  - apply sorted_perm.
  - apply sorted_sorted.
  - intros fuel. apply sorted_stable.
  - destruct (allocate_prefix (top_vans vans)
                {| alloc_fuel := 0; alloc_distance := 0; vans_used := [];
                   routes := [];
                   remaining_packages := filter valid_package pkgs |})
      as (acc & k & Hacc & Hused & _).
    destruct (multiple_vans_result van_stats pkgs acc Hacc) as [Hres Hlog].
    exists acc, k. split_and!; [done..| |done].
    rewrite Hused. simpl. unfold top_vans. rewrite !length_take. lia.
  - apply allocate_next.
  - apply allocate_stop.
Qed.

Lemma multi_van_shortlist_and_early_stop_witness :
  let acc := {| alloc_fuel := 0; alloc_distance := 0; vans_used := [];
                routes := []; remaining_packages := [(3, 4, 20)] |} in
  remaining_packages acc ≠ [] ∧
  (find_optimal_route_for_single_van [(5, 1)] (remaining_packages acc) false).2
  = Ok (None, 0, 0, [], [(3, 4, 20)]) ∧
  (allocate [(5, 1); (30, 2)] acc).2 = Ok acc ∧
  find_optimal_route_for_multiple_vans [(30, 2); (5, 1)] [(3, 4, 20)]
  = ([NotCompletedMulti [(3, 4, 20)]], Ok ([], 0, 0, [])).
Proof.
  intros acc.
  assert (remaining_packages acc ≠ []) as Hrem by done.
  assert ((find_optimal_route_for_single_van [(5, 1)] (remaining_packages acc)
             false).2 = Ok (None, 0, 0, [], [(3, 4, 20)])) as Hnone
    by (by vm_compute).
  split; [exact Hrem|]. split; [exact Hnone|]. split; [|by vm_compute].
  exact (proj2 (proj2 (proj2
           (multi_van_shortlist_and_early_stop [(30, 2); (5, 1)] [(3, 4, 20)])))
           (5, 1) [(30, 2)] acc 0 0 [] [(3, 4, 20)] Hrem Hnone).
Defined.

(** * Further properties of the module *)

(** ** filter_invalid_input *)

Section filter_facts.
Context {A : Type} (P : A → Prop) `{!∀ x, Decision (P x)}.

Lemma filter_all (l : list A) : Forall P l → filter P l = l.
Proof.
  induction 1 as [|x l Hx _ IH]; [done|].
  by rewrite filter_cons_True, IH.
Qed.

Lemma filter_Forall (l : list A) : Forall P (filter P l).
Proof. apply Forall_forall. by intros x [??]%list_elem_of_filter. Qed.

Lemma filter_none (l : list A) : Forall P l → filter (λ x, ¬ P x) l = [].
Proof.
  induction 1 as [|x l Hx _ IH]; [done|].
  by rewrite filter_cons_False, IH by auto.
Qed.

Lemma filter_split_length (l : list A) :
  (length (filter P l) + length (filter (λ x, ¬ P x) l) = length l)%nat.
Proof.
  induction l as [|x l IH]; [done|]. rewrite !filter_cons.
  destruct (decide (P x)); [rewrite decide_False by auto|rewrite decide_True by auto];
    simpl; lia.
Qed.
End filter_facts.

(** X1: [filter_invalid_input] keeps exactly the valid vans and the valid
    packages, in their input order, logs one warning per rejected package
    (none for a van), and is idempotent: run on its own output it returns it
    unchanged and logs nothing. *)
Theorem filter_invalid_input_idempotent (van_stats : list Van) (pkgs : list Package) :
  ∃ vans ps warnings,
    filter_invalid_input van_stats pkgs = (warnings, Ok (vans, ps)) ∧
    Forall valid_van vans ∧ Forall valid_package ps ∧
    vans `sublist_of` van_stats ∧ ps `sublist_of` pkgs ∧
    (∀ van, van ∈ vans ↔ valid_van van ∧ van ∈ van_stats) ∧
    (∀ p, p ∈ ps ↔ valid_package p ∧ p ∈ pkgs) ∧
    (∀ p, InvalidPackage p ∈ warnings ↔ ¬ valid_package p ∧ p ∈ pkgs) ∧
    (length ps + length warnings = length pkgs)%nat ∧
    filter_invalid_input vans ps = ([], Ok (vans, ps)).
Proof.
  eexists _, _, _. split; [done|]. split_and!.
  - apply filter_Forall.
  - apply filter_Forall.
  - apply sublist_filter.
  - apply sublist_filter.
  - intros van. apply list_elem_of_filter.
  - intros p. apply list_elem_of_filter.
  - intros p. rewrite list_elem_of_fmap. split.
    + intros (q & [= <-] & Hq). by apply list_elem_of_filter in Hq.
    + intros Hp. exists p. split; [done|]. by apply list_elem_of_filter.
  - rewrite length_fmap. apply filter_split_length.
  - unfold filter_invalid_input.
    rewrite (filter_all valid_van (filter valid_van van_stats)),
      (filter_all valid_package (filter valid_package pkgs)),
      (filter_none valid_package (filter valid_package pkgs))
      by apply filter_Forall.
    done.
Qed.

(** ** find_nearest_valid_move is greedy *)

Lemma lt3_false (a b : Z * Z * Z) :
  lt3 b a = false →
  a.1.1 < b.1.1 ∨
  a.1.1 = b.1.1 ∧ (a.1.2 < b.1.2 ∨ a.1.2 = b.1.2 ∧ a.2 ≤ b.2).
Proof.
  destruct a as [[a1 a2] a3], b as [[b1 b2] b3]. unfold lt3. simpl.
  repeat case_decide; rewrite bool_decide_eq_false; lia.
Qed.

Lemma nearest_least (cur : Z) (l : list (Z * Z)) x :
  nearest ((λ lw, (distance cur lw.1, lw.1, lw.2)) <$> l) = Ok (Some x) →
  x.1.1 = distance cur x.1.2 ∧ (x.1.2, x.2) ∈ l ∧
  ∀ lw, lw ∈ l →
    x.1.1 < distance cur lw.1 ∨
    x.1.1 = distance cur lw.1 ∧ (x.1.2 < lw.1 ∨ x.1.2 = lw.1 ∧ x.2 ≤ lw.2).
Proof.
  intros Hx. destruct l as [|lw0 l]; [done|].
  destruct (nearest_cons ((λ lw, (distance cur lw.1, lw.1, lw.2)) <$> lw0 :: l))
    as (y & Hy & Hin & Hleast); [done|].
  assert (y = x) as -> by congruence.
  apply list_elem_of_fmap in Hin as ([loc w] & -> & Hin). simpl.
  split; [done|]. split; [done|]. intros lw Hlw.
  rewrite Forall_fmap, Forall_forall in Hleast.
  apply (lt3_false (distance cur loc, loc, w) (distance cur lw.1, lw.1, lw.2)).
  by apply Hleast.
Qed.

(** X2: the move [find_nearest_valid_move] returns is a nearest one. It is a
    pick of a feasible pending pickup or a drop of a pending delivery, at its
    distance from the current location; no candidate of its kind is nearer,
    and among those as near the smallest location, then the smallest weight,
    is taken. A pick is returned only if no pending delivery is strictly
    nearer, a drop only if every feasible pickup is strictly farther. *)
Theorem nearest_move_is_greedy (st : VanRouter) (d loc : Z) (act : action) (w : Z) :
  find_nearest_valid_move st = Ok (Some (d, loc, act, w)) →
  d = distance (current_location st) loc ∧
  (act = Pick ∧ (loc, w) ∈ feasible st ∧
     (∀ lw, lw ∈ feasible st →
        d < distance (current_location st) lw.1 ∨
        d = distance (current_location st) lw.1 ∧
          (loc < lw.1 ∨ loc = lw.1 ∧ w ≤ lw.2)) ∧
     (∀ lw, lw ∈ deliveries st → d ≤ distance (current_location st) lw.1)
   ∨
   act = Drop ∧ (loc, w) ∈ deliveries st ∧
     (∀ lw, lw ∈ deliveries st →
        d < distance (current_location st) lw.1 ∨
        d = distance (current_location st) lw.1 ∧
          (loc < lw.1 ∨ loc = lw.1 ∧ w ≤ lw.2)) ∧
     (∀ lw, lw ∈ feasible st → d < distance (current_location st) lw.1)).
Proof.
  unfold find_nearest_valid_move.
  destruct (nearest_Ok ((λ lw, (distance (current_location st) lw.1, lw.1, lw.2))
                          <$> feasible st)) as [rp Hp].
  destruct (nearest_Ok ((λ lw, (distance (current_location st) lw.1, lw.1, lw.2))
                          <$> deliveries st)) as [rd Hd].
  unfold feasible in Hp. rewrite Hp, Hd. simpl. fold (feasible st) in Hp.
  destruct rp as [[[pd pl] pw]|], rd as [[[dd dl] dw]|];
    try case_decide; intros [=]; subst;
    try (apply nearest_least in Hp as (Hpd & Hpin & Hpleast); simpl in *);
    try (apply nearest_least in Hd as (Hdd & Hdin & Hdleast); simpl in *);
    try (apply nearest_None, fmap_nil_inv in Hp);
    try (apply nearest_None, fmap_nil_inv in Hd);
    (split; [done|]).
  - left. split_and!; [done..|]. intros lw Hlw.
    destruct (Hdleast lw Hlw) as [?|[? _]]; lia.
  - right. split_and!; [done..|]. intros lw Hlw.
    destruct (Hpleast lw Hlw) as [?|[? _]]; lia.
  - left. split_and!; [done..|]. rewrite Hd. by intros lw ?%elem_of_nil.
  - right. split_and!; [done..|]. rewrite Hp. by intros lw ?%elem_of_nil.
Qed.

Lemma nearest_move_is_greedy_witness :
  let st := mkVanRouter 9 8 [(0, Start, 0); (-1, Pick, 4); (-2, Pick, 3)] (-2) 2 16 7 2 0
              [(6, 9)] [(5, 4); (9, 3)] [] [(-1, 5, 4); (-2, 9, 3); (6, 2, 9)] in
  find_nearest_valid_move st = Ok (Some (7, 5, Drop, 4)) ∧
  (5, 4) ∈ deliveries st ∧
  (∀ lw, lw ∈ feasible st → 7 < distance (current_location st) lw.1).
Proof.
  intros st.
  assert (find_nearest_valid_move st = Ok (Some (7, 5, Drop, 4))) as Hfind
    by (by vm_compute).
  split; [exact Hfind|].
  destruct (nearest_move_is_greedy st 7 5 Drop 4 Hfind)
    as [_ [(Hact & _)|(_ & Hin & _ & Hfar)]]; [done|].
  split; [exact Hin|exact Hfar].
Defined.

(** ** What the loop keeps count of *)

Section ledger.
Implicit Types st : VanRouter.
#[local] Existing Instance sum_weights_perm.

Lemma picks_snoc rt m :
  picks (rt ++ [m]) = picks rt ++ (if decide (m.1.2 = Pick) then [(m.1.1, m.2)] else []).
Proof.
  unfold picks. rewrite filter_app, fmap_app. f_equal.
  rewrite filter_cons, filter_nil. by case_decide.
Qed.

Lemma drops_snoc rt m :
  drops (rt ++ [m]) = drops rt ++ (if decide (m.1.2 = Drop) then [(m.1.1, m.2)] else []).
Proof.
  unfold drops. rewrite filter_app, fmap_app. f_equal.
  rewrite filter_cons, filter_nil. by case_decide.
Qed.

Lemma path_length_snoc locs c x :
  last locs = Some c → path_length (locs ++ [x]) = path_length locs + distance c x.
Proof.
  induction locs as [|a [|b locs] IH]; intros Hlast; simplify_eq/=.
  - lia.
  - rewrite IH by done. lia.
Qed.

Lemma path_length_nonneg locs : 0 ≤ path_length locs.
Proof.
  induction locs as [|a [|b locs] IH]; simpl in *; unfold distance in *; lia.
Qed.

Lemma route_distance_snoc rt c m :
  last ((λ m, m.1.1) <$> rt) = Some c →
  route_distance (rt ++ [m]) = route_distance rt + distance c m.1.1.
Proof. intros Hlast. unfold route_distance. rewrite fmap_app. by apply path_length_snoc. Qed.

Lemma step_count_inv st st' : step st st' → count_inv st → count_inv st'.
Proof.
  intros [(loc & w & dloc & pickups' & _ & Hrem%list_remove_Some & _ & ->)
         |(loc & w & deliveries' & _ & Hrem%list_remove_Some & ->)]%step_cases
    [Hp Hd Hdel Hwin]; split; simpl in *; try done;
    apply Permutation_length in Hrem; rewrite ?length_app; simpl in *; lia.
Qed.

Lemma step_ledger_inv st st' : step st st' → ledger_inv st → ledger_inv st'.
Proof.
  intros [(loc & w & dloc & pickups' & _ & Hrem%list_remove_Some & _ & ->)
         |(loc & w & deliveries' & _ & Hrem%list_remove_Some & ->)]%step_cases
    [Hp Hw Hload Hloc Hdist (body & Hroute & Hbody)]; split; simpl in *.
  - rewrite picks_snoc, Hp, Hrem. simpl. rewrite <-app_assoc. simpl. done.
  - rewrite picks_snoc, drops_snoc, !fmap_app, Hw. simpl.
    by rewrite app_nil_r, app_assoc.
  - rewrite sum_weights_snoc. simpl. lia.
  - rewrite fmap_app. apply last_snoc.
  - rewrite (route_distance_snoc _ (current_location st)) by done. simpl. lia.
  - exists (body ++ [(loc, Pick, w)]). rewrite Hroute. split; [done|].
    apply Forall_app. split; [done|]. apply Forall_singleton. by left.
  - rewrite picks_snoc. simpl. by rewrite app_nil_r.
  - rewrite picks_snoc, drops_snoc, !fmap_app, Hw, Hrem. simpl.
    by rewrite app_nil_r, <-app_assoc.
  - rewrite Hrem in Hload. unfold sum_weights in *. simpl in *. lia.
  - rewrite fmap_app. apply last_snoc.
  - rewrite (route_distance_snoc _ (current_location st)) by done. simpl. lia.
  - exists (body ++ [(loc, Drop, w)]). rewrite Hroute. split; [done|].
    apply Forall_app. split; [done|]. apply Forall_singleton. by right.
Qed.

Lemma init_count_inv van pkgs st0 : VanRouter_init van pkgs = Ok st0 → count_inv st0.
Proof.
  destruct (VanRouter_init_spec van pkgs) as (sel & rest & -> & Hlen & _).
  intros [= <-]. split; simpl; rewrite ?length_fmap; lia.
Qed.

Lemma init_ledger_inv van pkgs st0 : VanRouter_init van pkgs = Ok st0 → ledger_inv st0.
Proof.
  destruct (VanRouter_init_spec van pkgs) as (sel & rest & -> & _).
  intros [= <-]. split; simpl; try done.
  by exists [].
Qed.

(** When the guard fails, nothing is pending. *)
Lemma count_inv_idle st :
  count_inv st → active st = false → pickups st = [] ∧ deliveries st = [].
Proof.
  intros [Hp Hd Hdel Hwin] Hact. unfold active in Hact.
  apply andb_false_iff in Hact as [Hact|Hact]; apply bool_decide_eq_false in Hact.
  - destruct (pickups st), (deliveries st); try done; exfalso; apply Hact; auto.
  - assert (length (pickups st) = 0 ∧ length (deliveries st) = 0)%nat as [H1 H2] by lia.
    by apply nil_length_inv in H1, H2.
Qed.
End ledger.

(** ** What construct_route returns *)

Section outcome.
Implicit Types st : VanRouter.
#[local] Existing Instance sum_weights_perm.

Lemma nsteps_route_length n st mid :
  nsteps step n st mid → length (route mid) = (length (route st) + n)%nat.
Proof.
  induction 1 as [|n st st1 mid Hstep _ IH]; [lia|]. rewrite IH.
  apply step_cases in Hstep
    as [(loc & w & dloc & pickups' & _ & _ & _ & ->)
       |(loc & w & deliveries' & _ & _ & ->)];
    simpl; rewrite length_app; simpl; lia.
Qed.

(** The run behind the value of [construct_route], with what holds at its
    last router before the return. *)
Lemma construct_route_outcome van pkgs st0 :
  VanRouter_init van pkgs = Ok st0 →
  ∃ n mid st',
    nsteps step n st0 mid ∧ stops mid st' ∧ construct_route st0 = Ok st' ∧
    (n ≤ 10)%nat ∧ count_inv mid ∧ ledger_inv mid ∧ (0, End, 0) ∉ route mid.
Proof.
  intros Hinit.
  destruct (construct_route_total van pkgs st0 Hinit)
    as (n & mid & st' & Hsteps & Hstop & Hn & Hrun).
  exists n, mid, st'. split_and!; [done..|by apply Hrun| | | |].
  - unfold turns in Hn. lia.
  - apply (nsteps_invariant count_inv n st0 mid);
      [apply step_count_inv|done|by eapply init_count_inv].
  - apply (nsteps_invariant ledger_inv n st0 mid);
      [apply step_ledger_inv|done|by eapply init_ledger_inv].
  - apply (nsteps_invariant (λ st, (0, End, 0) ∉ route st) n st0 mid);
      [apply step_no_end|done|].
    destruct (init_fields van pkgs st0 Hinit) as (_ & _ & _ & _ & _ & -> & _).
    by intros [=]%list_elem_of_singleton.
Qed.

(** At the return nothing is carried, and what is still to pick does not
    fit an empty van. *)
Lemma stops_pending mid st' :
  count_inv mid → ledger_inv mid → stops mid st' →
  deliveries mid = [] ∧ current_load mid = 0 ∧
  picked_up_packages mid = delivered_packages mid ∧
  Forall (λ lw, van_capacity mid < lw.2) (pickups mid) ∧
  (active mid = false → pickups mid = []) ∧
  (active mid = true → pickups mid ≠ []).
Proof.
  intros Hcount Hledger Hstop.
  assert (deliveries mid = [] ∧ Forall (λ lw, van_capacity mid < lw.2) (pickups mid)
          ∧ (active mid = false → pickups mid = [])
          ∧ (active mid = true → pickups mid ≠ [])) as (Hdel & Hheavy & Hidle & Hbusy).
  { destruct Hstop as [Hact|Hact [Hfeas Hdel]%find_None].
    - destruct (count_inv_idle mid Hcount Hact) as [Hp Hd].
      rewrite Hp. split_and!; [done|constructor|done|congruence].
    - split_and!; [done| |congruence|].
      + apply Forall_forall. intros lw Hlw.
        destruct (decide (current_load mid + lw.2 ≤ van_capacity mid)) as [Hfit|Hno].
        * assert (lw ∈ feasible mid) as Hin by by apply elem_of_feasible.
          rewrite Hfeas in Hin. by apply elem_of_nil in Hin.
        * destruct Hledger as [_ _ Hload _ _ _]. rewrite Hdel in Hload.
          unfold sum_weights in Hload. simpl in Hload. lia.
      + intros _ Hp. unfold active in Hact. rewrite Hp, Hdel in Hact.
        apply andb_true_iff in Hact as [Hact _].
        apply bool_decide_eq_true in Hact. by destruct Hact. }
  destruct Hledger as [_ _ Hload _ _ _], Hcount as [_ Hd _ _].
  rewrite Hdel in Hload, Hd. unfold sum_weights in Hload. simpl in *.
  split_and!; [done|done|lia|done..].
Qed.
End outcome.

(** X4: the route [construct_route] returns starts with [(0, Start, 0)],
    goes on with picks and drops only, at most ten of them, and ends there or
    with one [(0, End, 0)]; it has as many picks as [picked_up_packages] and
    as many drops as [delivered_packages], and at most five picks. *)
Theorem route_shape (van : Van) (pkgs : list Package) :
  ∃ st0 st' body tail,
    VanRouter_init van pkgs = Ok st0 ∧ construct_route st0 = Ok st' ∧
    route st' = (0, Start, 0) :: body ++ tail ∧
    Forall (λ m, m.1.2 = Pick ∨ m.1.2 = Drop) body ∧
    (tail = [] ∨ tail = [(0, End, 0)]) ∧
    (length body ≤ 10)%nat ∧
    Z.of_nat (length (picks (route st'))) = picked_up_packages st' ∧
    Z.of_nat (length (drops (route st'))) = delivered_packages st' ∧
    picked_up_packages st' ≤ 5.
Proof.
  destruct (VanRouter_init_Ok van pkgs) as [st0 Hinit].
  destruct (construct_route_outcome van pkgs st0 Hinit)
    as (n & mid & st' & Hsteps & Hstop & Hrun & Hn & Hcount & Hledger & _).
  destruct (init_fields van pkgs st0 Hinit) as (_ & _ & _ & _ & _ & Hr0 & _).
  pose proof (nsteps_route_length n st0 mid Hsteps) as Hlen. rewrite Hr0 in Hlen.
  destruct Hledger as [Hp Hw _ _ _ (body & Hroute & Hbody)].
  destruct Hcount as [Hcp Hcd Hdel Hwin].
  apply Permutation_length in Hp, Hw.
  rewrite !length_app, !length_fmap in *. rewrite Hroute in Hlen. simpl in Hlen.
  assert (Z.of_nat (length (picks (route mid))) = picked_up_packages mid) by lia.
  assert (Z.of_nat (length (drops (route mid))) = delivered_packages mid) by lia.
  assert (picked_up_packages mid ≤ 5) by lia.
  exists st0, st', body.
  destruct Hstop as [Hact|Hact Hfind].
  - exists [(0, End, 0)]. simpl. rewrite picks_snoc, drops_snoc, Hroute. simpl.
    rewrite !app_nil_r, <-Hroute. split_and!; try done; [by right|lia].
  - exists []. simpl. rewrite app_nil_r. split_and!; try done; [by left|lia].
Qed.

(** X6: when [construct_route] returns, nothing is left in the van: every
    package picked up was delivered, the load is 0 and the two counters are
    equal. A pickup is still pending only if its weight exceeds the van's
    capacity, and this is the case exactly when the route lacks the final
    [(0, End, 0)]. The not-completed list is the one of [__init__] followed
    by the pending pickups as [(loc, loc, weight)], and the selected
    packages are those picked along the route and those pending. *)
Theorem nothing_left_in_the_van (van : Van) (pkgs : list Package) :
  ∃ st0 st',
    VanRouter_init van pkgs = Ok st0 ∧ construct_route st0 = Ok st' ∧
    deliveries st' = [] ∧ current_load st' = 0 ∧
    picked_up_packages st' = delivered_packages st' ∧
    Forall (λ lw, van.1 < lw.2) (pickups st') ∧
    (pickups st' = [] ↔ last (route st') = Some (0, End, 0)) ∧
    not_completed st' = not_completed st0 ++ self_referential (pickups st') ∧
    (λ p, (pickup_of p, weight_of p)) <$> packages st0
    ≡ₚ picks (route st') ++ pickups st'.
Proof.
  destruct (VanRouter_init_Ok van pkgs) as [st0 Hinit].
  destruct (construct_route_outcome van pkgs st0 Hinit)
    as (n & mid & st' & Hsteps & Hstop & Hrun & _ & Hcount & Hledger & Hend).
  destruct (init_fields van pkgs st0 Hinit) as (Hcap & _).
  destruct (nsteps_constants n st0 mid Hsteps) as (Hc & _ & Hpk & Hnc).
  destruct (stops_pending mid st' Hcount Hledger Hstop)
    as (Hdel & Hload & Heq & Hheavy & Hidle & Hbusy).
  rewrite Hc, Hcap in Hheavy. destruct Hledger as [Hp _ _ _ _ _]. rewrite Hpk in Hp.
  exists st0, st'. split; [done|]. split; [done|].
  destruct Hstop as [Hact|Hact Hfind]; simpl.
  - rewrite (Hidle Hact) in *. rewrite Hdel, Hnc, picks_snoc. simpl.
    rewrite !app_nil_r in *. split_and!; try done.
    split; [intros _; apply last_snoc|done].
  - rewrite Hdel, Hnc. simpl. rewrite !app_nil_r. split_and!; try done.
    split; [by intros ?%Hbusy|]. intros Hlast. exfalso. apply Hend.
    apply last_Some in Hlast as [front ->]. apply elem_of_app. right. left.
Qed.

(** X7: along the route [construct_route] returns, the weights dropped so
    far are always among the weights picked so far (each drop follows a pick
    of its weight), and over the whole route the dropped and the picked
    weights are the same, with multiplicities. *)
Theorem drops_follow_picks (van : Van) (pkgs : list Package) :
  ∃ st0 st',
    VanRouter_init van pkgs = Ok st0 ∧ construct_route st0 = Ok st' ∧
    snd <$> picks (route st') ≡ₚ snd <$> drops (route st') ∧
    ∀ pre, pre `prefix_of` route st' → snd <$> drops pre ⊆+ snd <$> picks pre.
Proof.
  destruct (VanRouter_init_Ok van pkgs) as [st0 Hinit].
  destruct (construct_route_outcome van pkgs st0 Hinit)
    as (n & mid & st' & Hsteps & Hstop & Hrun & _ & Hcount & Hledger & _).
  destruct (stops_pending mid st' Hcount Hledger Hstop) as (Hdel & _).
  assert (∀ pre, pre `prefix_of` route mid → snd <$> drops pre ⊆+ snd <$> picks pre)
    as Hpre.
  { apply (nsteps_invariant
             (λ st, ledger_inv st ∧
                    ∀ pre, pre `prefix_of` route st →
                           snd <$> drops pre ⊆+ snd <$> picks pre) n st0 mid);
      [|done|].
    - intros s s' Hstep [Hl Hp].
      assert (ledger_inv s') as Hl' by by eapply step_ledger_inv.
      split; [done|]. intros pre Hprefix.
      assert (pre `prefix_of` route s ∨ pre = route s') as [?| ->].
      { apply step_cases in Hstep
          as [(loc & w & dloc & pickups' & _ & _ & _ & ->)
             |(loc & w & deliveries' & _ & _ & ->)];
          simpl in *; by apply prefix_snoc_cases. }
      + by apply Hp.
      + destruct Hl' as [_ Hw _ _ _ _]. rewrite Hw. by apply submseteq_inserts_r.
    - split; [by eapply init_ledger_inv|].
      destruct (init_fields van pkgs st0 Hinit) as (_ & _ & _ & _ & _ & -> & _).
      intros pre [k Hk]. destruct pre as [|m [|m' pre]]; simplify_eq/=; done. }
  destruct Hledger as [_ Hw _ _ _ _]. rewrite Hdel, app_nil_r in Hw.
  exists st0, st'. split; [done|]. split; [done|].
  destruct Hstop as [Hact|Hact Hfind]; simpl; [|done].
  rewrite picks_snoc, drops_snoc. simpl. rewrite !app_nil_r. split; [done|].
  intros pre [?| ->]%prefix_snoc_cases; [by apply Hpre|].
  rewrite picks_snoc, drops_snoc. simpl. rewrite !app_nil_r. by rewrite Hw.
Qed.

(** ** Moves and packages *)

Section packages.
Implicit Types st : VanRouter.

Lemma elem_of_picks rt loc w : (loc, w) ∈ picks rt ↔ (loc, Pick, w) ∈ rt.
Proof.
  unfold picks. rewrite list_elem_of_fmap. split.
  - intros ([[l a] w'] & [= -> ->] & [Ha Hin]%list_elem_of_filter).
    simpl in Ha. by subst.
  - intros Hin. exists (loc, Pick, w). split; [done|]. by apply list_elem_of_filter.
Qed.

Lemma pickup_inj (pkgs : list Package) p q :
  NoDup (pickup_of <$> pkgs) → p ∈ pkgs → q ∈ pkgs →
  pickup_of p = pickup_of q → p = q.
Proof.
  induction pkgs as [|r pkgs IH]; [by intros _ ?%elem_of_nil|].
  rewrite fmap_cons, NoDup_cons. intros [Hr Hnd] Hp Hq Heq.
  apply elem_of_cons in Hp as [->|Hp], Hq as [->|Hq]; [done| | |by apply IH].
  - exfalso. apply Hr. rewrite Heq. by apply list_elem_of_fmap_2.
  - exfalso. apply Hr. rewrite <-Heq. by apply list_elem_of_fmap_2.
Qed.

(** With distinct pickup locations the delivery lookup of a pick finds the
    delivery location of the package picked. *)
Lemma delivery_lookup_NoDup (pkgs : list Package) p :
  NoDup (pickup_of <$> pkgs) → p ∈ pkgs →
  delivery_lookup pkgs (pickup_of p) = Some (delivery_of p).
Proof.
  intros Hnd Hp. unfold delivery_lookup.
  assert (p ∈ filter (λ q, pickup_of q = pickup_of p) pkgs) as Hin
    by by apply list_elem_of_filter.
  destruct (filter (λ q, pickup_of q = pickup_of p) pkgs) as [|q l] eqn:E.
  { by apply elem_of_nil in Hin. }
  assert (q ∈ filter (λ q, pickup_of q = pickup_of p) pkgs) as Hq
    by (rewrite E; left).
  apply list_elem_of_filter in Hq as [Heq Hq].
  simpl. by rewrite (pickup_inj pkgs q p).
Qed.

Lemma step_package_inv st st' :
  NoDup (pickup_of <$> packages st) →
  step st st' → package_inv st → package_inv st'.
Proof.
  intros Hnd
    [(loc & w & dloc & pickups' & [_ Hin]%elem_of_feasible
        & Hrem%list_remove_Some & Hlookup & ->)
    |(loc & w & deliveries' & Hin & Hrem%list_remove_Some & ->)]%step_cases
    [Hpend Hpick Hcarry Hdrop].
  - destruct (Hpend (loc, w) Hin) as (p & Hp & Hploc & Hpw).
    simpl in Hploc, Hpw. subst loc w.
    rewrite (delivery_lookup_NoDup _ p) in Hlookup by done.
    injection Hlookup as <-.
    split; simpl.
    + intros lw Hlw. apply Hpend. rewrite Hrem. by right.
    + intros l w' [Hold|[= -> ->]%list_elem_of_singleton]%elem_of_app.
      * destruct (Hpick l w' Hold) as (q & Hq & Hql & Hqw & [Hd|Hd]);
          exists q; split_and!; try done.
        -- left. apply elem_of_app. by left.
        -- right. apply elem_of_app. by left.
      * exists p. split_and!; try done. left. apply elem_of_app. right. left.
    + intros l w' [Hold|[= -> ->]%list_elem_of_singleton]%elem_of_app.
      * destruct (Hcarry l w' Hold) as (q & Hq & Hql & Hqw & Hr).
        exists q. split_and!; try done. apply elem_of_app. by left.
      * exists p. split_and!; try done. apply elem_of_app. right. left.
    + intros l w' [Hold|[=]%list_elem_of_singleton]%elem_of_app.
      destruct (Hdrop l w' Hold) as (q & Hq & Hql & Hqw & Hr).
      exists q. split_and!; try done. apply elem_of_app. by left.
  - split; simpl.
    + done.
    + intros l w' [Hold|[=]%list_elem_of_singleton]%elem_of_app.
      destruct (Hpick l w' Hold) as (q & Hq & Hql & Hqw & [Hd|Hd]);
        exists q; split_and!; try done.
      * rewrite Hrem in Hd. apply elem_of_cons in Hd as [[= <- <-]|Hd].
        -- right. apply elem_of_app. right. left.
        -- by left.
      * right. apply elem_of_app. by left.
    + intros l w' Hlw.
      destruct (Hcarry l w') as (q & Hq & Hql & Hqw & Hr).
      { rewrite Hrem. by right. }
      exists q. split_and!; try done. apply elem_of_app. by left.
    + intros l w' [Hold|[= -> ->]%list_elem_of_singleton]%elem_of_app.
      * destruct (Hdrop l w' Hold) as (q & Hq & Hql & Hqw & Hr).
        exists q. split_and!; try done. apply elem_of_app. by left.
      * destruct (Hcarry loc w Hin) as (q & Hq & Hql & Hqw & Hr).
        exists q. split_and!; try done. apply elem_of_app. by left.
Qed.

Lemma init_package_inv van pkgs st0 :
  VanRouter_init van pkgs = Ok st0 → package_inv st0.
Proof.
  destruct (VanRouter_init_spec van pkgs) as (sel & rest & -> & _).
  intros [= <-]. split; simpl.
  - intros lw (p & -> & Hp)%list_elem_of_fmap. by exists p.
  - by intros loc w [=]%list_elem_of_singleton.
  - by intros loc w ?%elem_of_nil.
  - by intros loc w [=]%list_elem_of_singleton.
Qed.

Lemma init_NoDup van pkgs st0 :
  NoDup (pickup_of <$> pkgs) → VanRouter_init van pkgs = Ok st0 →
  NoDup (pickup_of <$> packages st0).
Proof.
  destruct (VanRouter_init_spec van pkgs) as (sel & rest & -> & _ & Hperm & _).
  intros Hnd [= <-]. simpl. rewrite <-Hperm, fmap_app in Hnd.
  by apply NoDup_app in Hnd as [? _].
Qed.
End packages.

(** X8: when no two packages share a pickup location, the route
    [construct_route] returns serves packages, not just weights: every
    selected package that fits the van's capacity is picked at its pickup
    location and dropped at its delivery location; every pick of the route
    is the pick of a selected package, which the route also drops at its own
    delivery location; and every drop is the drop of a selected package that
    the route picks. *)
Theorem packages_served (van : Van) (pkgs : list Package) :
  NoDup (pickup_of <$> pkgs) →
  ∃ st0 st',
    VanRouter_init van pkgs = Ok st0 ∧ construct_route st0 = Ok st' ∧
    (∀ p, p ∈ packages st0 → weight_of p ≤ van.1 →
          (pickup_of p, Pick, weight_of p) ∈ route st' ∧
          (delivery_of p, Drop, weight_of p) ∈ route st') ∧
    (∀ loc w, (loc, Pick, w) ∈ route st' →
          ∃ p, p ∈ packages st0 ∧ pickup_of p = loc ∧ weight_of p = w ∧
               (delivery_of p, Drop, w) ∈ route st') ∧
    (∀ loc w, (loc, Drop, w) ∈ route st' →
          ∃ p, p ∈ packages st0 ∧ delivery_of p = loc ∧ weight_of p = w ∧
               (pickup_of p, Pick, w) ∈ route st').
Proof.
  intros Hnd.
  destruct (VanRouter_init_Ok van pkgs) as [st0 Hinit].
  destruct (construct_route_outcome van pkgs st0 Hinit)
    as (n & mid & st' & Hsteps & Hstop & Hrun & _ & Hcount & Hledger & _).
  destruct (init_fields van pkgs st0 Hinit) as (Hcap & _).
  destruct (nsteps_constants n st0 mid Hsteps) as (Hc & _ & Hpk & _).
  destruct (stops_pending mid st' Hcount Hledger Hstop) as (Hdel & _ & _ & Hheavy & _).
  rewrite Hc, Hcap in Hheavy.
  pose proof (init_NoDup van pkgs st0 Hnd Hinit) as Hnd0.
  assert (package_inv mid) as [Hpend Hpick Hcarry Hdrop].
  { apply (nsteps_invariant
             (λ st, packages st = packages st0 ∧ package_inv st) n st0 mid);
      [|done|].
    - intros s s' Hstep [Hs Hinv].
      destruct (step_constants s s' Hstep) as (_ & _ & Hpk' & _).
      split; [congruence|]. eapply step_package_inv; [|done..]. by rewrite Hs.
    - split; [done|by eapply init_package_inv]. }
  rewrite Hpk, Hdel in *.
  assert (∀ loc act w, act ≠ End →
            (loc, act, w) ∈ route st' ↔ (loc, act, w) ∈ route mid) as Hroute.
  { intros loc act w Hact. destruct Hstop; simpl; [|done].
    rewrite elem_of_app, list_elem_of_singleton. split; [|by left].
    intros [?|[=]]; [done|]. by subst. }
  assert (∀ loc w, (loc, Pick, w) ∈ route mid →
            ∃ p, p ∈ packages st0 ∧ pickup_of p = loc ∧ weight_of p = w ∧
                 (delivery_of p, Drop, w) ∈ route mid) as Hpick'.
  { intros loc w Hin.
    destruct (Hpick loc w Hin) as (p & Hp & Hl & Hw & [?%elem_of_nil|Hd]); [done|].
    by exists p. }
  exists st0, st'. split; [done|]. split; [done|]. split_and!.
  - intros p Hp Hfit.
    assert ((pickup_of p, Pick, weight_of p) ∈ route mid) as Hin.
    { destruct Hledger as [Hperm _ _ _ _ _]. rewrite Hpk in Hperm.
      assert ((pickup_of p, weight_of p) ∈ picks (route mid) ++ pickups mid)
        as [Hin|Hin]%elem_of_app.
      { rewrite <-Hperm. by apply (list_elem_of_fmap_2 (λ p, (pickup_of p, weight_of p))). }
      - by apply elem_of_picks.
      - rewrite Forall_forall in Hheavy. specialize (Hheavy _ Hin). simpl in *. lia. }
    rewrite !Hroute by done. split; [done|].
    destruct (Hpick' _ _ Hin) as (q & Hq & Hl & Hw & Hd).
    by rewrite (pickup_inj (packages st0) q p) in Hd.
  - intros loc w Hin%Hroute; [|done].
    destruct (Hpick' loc w Hin) as (p & Hp & Hl & Hw & Hd).
    exists p. by rewrite Hroute.
  - intros loc w Hin%Hroute; [|done].
    destruct (Hdrop loc w Hin) as (p & Hp & Hl & Hw & Hd).
    exists p. by rewrite Hroute.
Qed.

Lemma packages_served_witness :
  NoDup (pickup_of <$> [(-1, 5, 4); (6, 2, 9); (-2, 9, 3)]) ∧
  ∃ st0 st',
    VanRouter_init (9, 8) [(-1, 5, 4); (6, 2, 9); (-2, 9, 3)] = Ok st0 ∧
    construct_route st0 = Ok st' ∧
    (∀ p, p ∈ packages st0 → weight_of p ≤ 9 →
          (pickup_of p, Pick, weight_of p) ∈ route st' ∧
          (delivery_of p, Drop, weight_of p) ∈ route st').
Proof.
  assert (NoDup (pickup_of <$> [(-1, 5, 4); (6, 2, 9); (-2, 9, 3)])) as Hnd.
  { apply (bool_decide_unpack _). by vm_compute. }
  split; [exact Hnd|].
  destruct (packages_served (9, 8) [(-1, 5, 4); (6, 2, 9); (-2, 9, 3)] Hnd)
    as (st0 & st' & Hinit & Hrun & Hserved & _).
  by exists st0, st'.
Defined.

(** ** The choice of the single-van optimizer *)

Section choice.
(** What every attempt returns, whichever way it ends. *)
Lemma attempt_facts van pkgs st' :
  attempt van pkgs = Ok st' →
  head (route st') = Some (0, Start, 0) ∧
  total_distance st' = route_distance (route st') ∧
  total_fuel st' = total_distance st' * van.2 ∧
  0 ≤ picked_up_packages st'.
Proof.
  unfold attempt. destruct (VanRouter_init_Ok van pkgs) as [st0 Hinit].
  rewrite Hinit. simpl. intros Hrun'.
  destruct (construct_route_outcome van pkgs st0 Hinit)
    as (n & mid & st'' & Hsteps & Hstop & Hrun & _ & Hcount & Hledger & _).
  assert (st'' = st') as -> by congruence.
  destruct (init_fields van pkgs st0 Hinit) as (_ & Hf0 & Hd0 & Hfu0 & _).
  destruct (nsteps_constants n st0 mid Hsteps) as (_ & Hf & _).
  assert (total_fuel mid = total_distance mid * fuel_per_unit mid) as Hmid.
  { apply (nsteps_invariant
             (λ st, total_fuel st = total_distance st * fuel_per_unit st)
             n st0 mid); [apply step_fuel|done|lia]. }
  rewrite Hf, Hf0 in Hmid.
  destruct Hledger as [_ _ _ Hloc Hdist (body & Hroute & _)].
  destruct Hcount as [_ Hd Hdel _].
  destruct Hstop; simpl; rewrite ?Hf, ?Hf0.
  - rewrite (route_distance_snoc _ (current_location mid)) by done.
    split_and!; [by rewrite Hroute|simpl; lia|lia..].
  - split_and!; [by rewrite Hroute|done|lia..].
Qed.

Lemma try_vans_chosen pkgs vans seen best :
  chosen pkgs seen best →
  ∃ best', try_vans pkgs vans best = Ok best' ∧ chosen pkgs (seen ++ vans) best'.
Proof.
  revert seen best. induction vans as [|van vans IH]; intros seen best Hbest; simpl.
  { exists best. by rewrite app_nil_r. }
  destruct (attempt_Ok van pkgs) as [st' Hst'].
  rewrite (try_van_attempt pkgs best van st' Hst'). simpl.
  destruct (attempt_facts van pkgs st' Hst') as (_ & _ & _ & Hpos).
  rewrite (cons_middle van seen vans), app_assoc. apply IH.
  destruct (fuel_lt (total_fuel st') (best_fuel best)
            && bool_decide (0 < picked_up_packages st')) eqn:Hcond.
  - apply andb_true_iff in Hcond as [Hlt Hpicked%bool_decide_eq_true].
    exists seen, [], st'. split_and!; try done.
    + intros v s Hv [Hs Hsp].
      destruct best as [[[[[bv brt] bd] bf] bnc]|]; simpl in *.
      * destruct Hbest
          as (before & after & sb & -> & [Hsb _] & _ & _ & -> & _ & Hbefore & Hafter).
        apply bool_decide_eq_true in Hlt.
        apply elem_of_app in Hv as [Hv|[Hv|Hv]%elem_of_cons]; [| subst v |].
        -- specialize (Hbefore v s Hv (conj Hs Hsp)). lia.
        -- assert (s = sb) as -> by congruence. lia.
        -- specialize (Hafter v s Hv (conj Hs Hsp)). lia.
      * specialize (Hbest v s Hv Hs). lia.
    + by intros v s ?%elem_of_nil.
  - assert (0 < picked_up_packages st' →
            ∃ bf, best_fuel best = Some bf ∧ bf ≤ total_fuel st') as Hnot.
    { intros Hpicked. apply andb_false_iff in Hcond as [Hlt|Hp].
      - destruct (best_fuel best) as [bf|]; [|done]. exists bf. split; [done|].
        apply bool_decide_eq_false in Hlt. lia.
      - by apply bool_decide_eq_false in Hp. }
    destruct best as [[[[[bv brt] bd] bf] bnc]|]; simpl in *.
    + destruct Hbest
        as (before & after & sb & -> & Hsb & -> & -> & -> & -> & Hbefore & Hafter).
      exists before, (after ++ [van]), sb. rewrite <-app_assoc. simpl.
      split_and!; try done.
      intros v s [Hv|Hv%list_elem_of_singleton]%elem_of_app [Hs Hsp].
      * by apply (Hafter v s).
      * subst v. assert (s = st') as -> by congruence.
        destruct (Hnot Hsp) as (bf & [= <-] & Hle). done.
    + intros v s [Hv|Hv%list_elem_of_singleton]%elem_of_app Hs.
      * by apply (Hbest v s).
      * subst v. assert (s = st') as -> by congruence.
        destruct (decide (0 < picked_up_packages st')) as [Hp|Hp]; [|lia].
        by destruct (Hnot Hp) as (bf & [=] & _).
Qed.

(** The value and the warnings of the optimizer, from the choice of its
    loop, when some package is valid. *)
Lemma single_van_chosen van_stats pkgs log_not_completed :
  filter valid_package pkgs ≠ [] →
  ∃ best,
    try_vans (filter valid_package pkgs) (filter valid_van van_stats) None
    = Ok best ∧
    chosen (filter valid_package pkgs) (filter valid_van van_stats) best ∧
    find_optimal_route_for_single_van van_stats pkgs log_not_completed =
      ((InvalidPackage <$> filter (λ p, ¬ valid_package p) pkgs) ++
       match best with
       | Some (_, _, _, _, (_ :: _) as nc) =>
         if log_not_completed then [NotCompletedSingle nc] else []
       | _ => []
       end,
       Ok match best with
          | Some (van, rt, dist, fuel, nc) => (Some van, dist, fuel, rt, nc)
          | None => (None, 0, 0, [], filter valid_package pkgs)
          end).
Proof.
  intros Hne.
  destruct (try_vans_chosen (filter valid_package pkgs) (filter valid_van van_stats)
              [] None) as (best & Hbest & Hchosen).
  { by intros van st ?%elem_of_nil. }
  exists best. split; [done|]. split; [done|].
  unfold find_optimal_route_for_single_van, filter_invalid_input, mbind,
    Logged_bind, silent. simpl.
  destruct (filter valid_package pkgs) as [|p ps]; [done|]. simpl.
  rewrite Hbest. simpl.
  destruct best as [[[[[van rt] dist] fuel] nc]|]; simpl; [|done].
  destruct Hchosen as (before & after & st & _ & [Hst _] & -> & _).
  destruct (attempt_facts van (p :: ps) st Hst) as (Hhead & _).
  destruct (route st) as [|m rt]; [done|].
  destruct nc, log_not_completed; simpl; by rewrite ?app_nil_r.
Qed.
End choice.

(** On integer vans and with some valid package, the single-van optimizer
    returns the attempt of the first valid van that is successful with the
    least fuel, or nothing when no valid van's attempt picked anything up. *)
Lemma best_van_is_cheapest
    (van_stats : list Van) (pkgs : list Package) (log_not_completed : bool) :
  filter valid_package pkgs ≠ [] →
  ∃ best_van dist fuel rt nc,
    (find_optimal_route_for_single_van van_stats pkgs log_not_completed).2
    = Ok (best_van, dist, fuel, rt, nc) ∧
    match best_van with
    | Some van =>
      ∃ before after st,
        filter valid_van van_stats = before ++ van :: after ∧
        successful van (filter valid_package pkgs) st ∧
        rt = route st ∧ dist = total_distance st ∧ fuel = total_fuel st ∧
        nc = not_completed st ∧
        (∀ v s, v ∈ before → successful v (filter valid_package pkgs) s →
                fuel < total_fuel s) ∧
        (∀ v s, v ∈ after → successful v (filter valid_package pkgs) s →
                fuel ≤ total_fuel s)
    | None =>
      (dist, fuel, rt, nc) = (0, 0, [], filter valid_package pkgs) ∧
      ∀ van st, van ∈ filter valid_van van_stats →
                attempt van (filter valid_package pkgs) = Ok st →
                picked_up_packages st = 0
    end.
Proof.
  intros Hne.
  destruct (single_van_chosen van_stats pkgs log_not_completed Hne)
    as (best & _ & Hchosen & ->). simpl.
  destruct best as [[[[[van rt] dist] fuel] nc]|]; simpl in *.
  - by exists (Some van), dist, fuel, rt, nc.
  - by exists None, 0, 0, [], (filter valid_package pkgs).
Qed.

(** X10: the [log_not_completed] flag changes the log only, never the value
    returned. Without it the optimizer logs the rejected packages and
    nothing else; with it, when some package is valid, one more warning
    follows exactly when a van is chosen and its not-completed list is not
    empty, and that warning carries this list. When no van is chosen no
    such warning is logged, although the packages are returned as not
    completed. *)
Theorem log_flag_only_logs (van_stats : list Van) (pkgs : list Package) :
  (find_optimal_route_for_single_van van_stats pkgs true).2
  = (find_optimal_route_for_single_van van_stats pkgs false).2 ∧
  (find_optimal_route_for_single_van van_stats pkgs false).1
  = InvalidPackage <$> filter (λ p, ¬ valid_package p) pkgs ∧
  ∃ best_van dist fuel rt nc,
    (find_optimal_route_for_single_van van_stats pkgs true).2
    = Ok (best_van, dist, fuel, rt, nc) ∧
    (find_optimal_route_for_single_van van_stats pkgs true).1
    = (find_optimal_route_for_single_van van_stats pkgs false).1 ++
      match best_van, nc with
      | Some _, _ :: _ => [NotCompletedSingle nc]
      | _, _ => []
      end.
Proof.
  destruct (decide (filter valid_package pkgs = [])) as [Hnil|Hne].
  - unfold find_optimal_route_for_single_van, filter_invalid_input, mbind,
      Logged_bind. simpl. rewrite Hnil.
    destruct (filter valid_van van_stats) as [|van vans]; simpl;
      rewrite ?app_nil_r; (split; [done|]); (split; [done|]).
    + exists None, 0, 0, [], []. by rewrite ?app_nil_r.
    + exists (Some van), 0, 0, [(0, Start, 0); (0, End, 0)], [].
      by rewrite ?app_nil_r.
  - destruct (single_van_chosen van_stats pkgs true Hne) as (best & Hbest & _ & ->).
    destruct (single_van_chosen van_stats pkgs false Hne) as (best' & Hbest' & _ & ->).
    assert (best' = best) as -> by congruence.
    destruct best as [[[[[van rt] dist] fuel] nc]|]; simpl.
    + split; [done|]. split; [by destruct nc; rewrite ?app_nil_r|].
      exists (Some van), dist, fuel, rt, nc. split; [done|].
      by destruct nc; rewrite ?app_nil_r.
    + split; [done|]. split; [by rewrite ?app_nil_r|].
      exists None, 0, 0, [], (filter valid_package pkgs).
      split; [done|]. by rewrite ?app_nil_r.
Qed.

Lemma filter_nil_all {A} (P : A → Prop) `{!∀ x, Decision (P x)} (l : list A) :
  filter P l = [] → filter (λ x, ¬ P x) l = l.
Proof.
  induction l as [|x l IH]; [done|]. rewrite !filter_cons.
  destruct (decide (P x)); [done|]. intros Hnil.
  by rewrite decide_True, IH by done.
Qed.

(** X11: when no package is valid (in particular on an empty package list)
    no route is built: every package is logged as invalid, and the
    single-van optimizer returns the first valid van of the input with the
    route from start to end at no cost, or no van and no route if no van is
    valid. *)
Theorem no_valid_package
    (van_stats : list Van) (pkgs : list Package) (log_not_completed : bool) :
  filter valid_package pkgs = [] →
  find_optimal_route_for_single_van van_stats pkgs log_not_completed
  = (InvalidPackage <$> pkgs,
     Ok match filter valid_van van_stats with
        | van :: _ => (Some van, 0, 0, [(0, Start, 0); (0, End, 0)], [])
        | [] => (None, 0, 0, [], [])
        end).
Proof.
  intros Hnil.
  unfold find_optimal_route_for_single_van, filter_invalid_input, mbind, Logged_bind.
  simpl. rewrite Hnil, (filter_nil_all valid_package pkgs Hnil).
  destruct (filter valid_van van_stats); simpl; by rewrite app_nil_r.
Qed.

Lemma no_valid_package_witness :
  filter valid_package [(3, 3, 1); (1, 2, 0)] = [] ∧
  find_optimal_route_for_single_van [(0, 5); (10, 10); (9, 8)] [(3, 3, 1); (1, 2, 0)] true
  = ([InvalidPackage (3, 3, 1); InvalidPackage (1, 2, 0)],
     Ok (Some (10, 10), 0, 0, [(0, Start, 0); (0, End, 0)], [])).
Proof.
  assert (filter valid_package [(3, 3, 1); (1, 2, 0)] = []) as Hnil by (by vm_compute).
  split; [exact Hnil|].
  exact (no_valid_package [(0, 5); (10, 10); (9, 8)] [(3, 3, 1); (1, 2, 0)] true Hnil).
Defined.

(** X12: without a valid package or without a valid van the multi-van
    allocator uses no van: it returns no van, no route and zero totals. The
    valid packages, if any, are then all reported in its final warning,
    after the warnings for the rejected packages. Unlike the single-van
    optimizer it does not return a van for an empty package list. *)
Theorem multi_van_nothing_to_do (van_stats : list Van) (pkgs : list Package) :
  filter valid_package pkgs = [] ∨ filter valid_van van_stats = [] →
  find_optimal_route_for_multiple_vans van_stats pkgs
  = ((InvalidPackage <$> filter (λ p, ¬ valid_package p) pkgs) ++
     match filter valid_package pkgs with
     | [] => []
     | ps => [NotCompletedMulti ps]
     end,
     Ok ([], 0, 0, [])).
Proof.
  intros Hcase.
  unfold find_optimal_route_for_multiple_vans, filter_invalid_input, mbind,
    Logged_bind. simpl.
  assert (allocate (top_vans (filter valid_van van_stats))
            {| alloc_fuel := 0; alloc_distance := 0; vans_used := []; routes := [];
               remaining_packages := filter valid_package pkgs |}
          = ([], Ok {| alloc_fuel := 0; alloc_distance := 0; vans_used := [];
                       routes := [];
                       remaining_packages := filter valid_package pkgs |})) as ->.
  { destruct Hcase as [-> | ->]; [|done].
    by destruct (top_vans (filter valid_van van_stats)). }
  simpl. by destruct (filter valid_package pkgs); rewrite ?app_nil_r.
Qed.

Lemma multi_van_nothing_to_do_witness :
  (filter valid_package [(1, 2, 5); (4, 4, 1)] = []
   ∨ filter valid_van [(0, 3); (5, -1)] = []) ∧
  find_optimal_route_for_multiple_vans [(0, 3); (5, -1)] [(1, 2, 5); (4, 4, 1)]
  = ([InvalidPackage (4, 4, 1); NotCompletedMulti [(1, 2, 5)]], Ok ([], 0, 0, [])).
Proof.
  assert (filter valid_package [(1, 2, 5); (4, 4, 1)] = []
          ∨ filter valid_van [(0, 3); (5, -1)] = []) as Hcase
    by (right; by vm_compute).
  split; [exact Hcase|].
  exact (multi_van_nothing_to_do [(0, 3); (5, -1)] [(1, 2, 5); (4, 4, 1)] Hcase).
Defined.

(** ** The totals of the multi-van allocator *)

Section totals.
Lemma single_van_one_facts van pkgs best_van dist fuel rt nc :
  (find_optimal_route_for_single_van [van] pkgs false).2
  = Ok (Some best_van, dist, fuel, rt, nc) →
  best_van = van ∧ valid_van van ∧ head rt = Some (0, Start, 0) ∧
  dist = route_distance rt ∧ fuel = dist * van.2.
Proof.
  rewrite single_van_result.
  assert (filter valid_van [van] = [] ∨
          filter valid_van [van] = [van] ∧ valid_van van) as Hvan.
  { rewrite filter_cons, filter_nil. case_decide; auto. }
  destruct (filter valid_package pkgs) as [|p ps].
  { destruct Hvan as [-> | [-> Hvalid]]; [done|]. intros [= <- <- <- <- <-].
    by split_and!. }
  cbv zeta. destruct Hvan as [-> | [-> Hvalid]]; simpl; [done|].
  destruct (attempt_Ok van (p :: ps)) as [st' Hst'].
  rewrite (try_van_attempt (p :: ps) None van st' Hst'). simpl.
  destruct (attempt_facts van (p :: ps) st' Hst') as (Hhead & Hdist & Hfuel & _).
  destruct (bool_decide (0 < picked_up_packages st')); simpl; [|done].
  destruct (route st') as [|m rt'] eqn:Hroute; [done|].
  intros [= <- <- <- <- <-]. by split_and!.
Qed.

Lemma routes_distance_snoc rts rt :
  routes_distance (rts ++ [rt]) = routes_distance rts + route_distance rt.
Proof. unfold routes_distance. induction rts as [|r rts IH]; simpl; lia. Qed.

Lemma routes_fuel_snoc vans rts van rt :
  length vans = length rts →
  routes_fuel (vans ++ [van]) (rts ++ [rt])
  = routes_fuel vans rts + route_distance rt * van.2.
Proof.
  intros Hlen. unfold routes_fuel. rewrite zip_with_app by done.
  generalize (zip vans rts). intros l.
  induction l as [|x l IH]; simpl in *; lia.
Qed.

Lemma allocate_totals vans acc :
  totals_inv acc → ∃ acc', (allocate vans acc).2 = Ok acc' ∧ totals_inv acc'.
Proof.
  revert acc. induction vans as [|van vans IH]; intros acc Hacc.
  { by exists acc. }
  destruct (decide (remaining_packages acc = [])) as [Hnil|Hrem].
  { exists acc. cbn [allocate]. by rewrite Hnil. }
  destruct (single_van_one van (remaining_packages acc) false)
    as (best_van & dist & fuel & rt & nc & Hres & _).
  destruct best_van as [best_van|].
  - rewrite (allocate_next van vans acc best_van dist fuel rt nc) by done.
    apply IH.
    destruct (single_van_one_facts _ _ _ _ _ _ _ Hres) as (-> & _ & Hhead & -> & ->).
    destruct Hacc as [Hlen Hdist Hfuel Hstart]. split; simpl.
    + rewrite !length_app. simpl. lia.
    + rewrite routes_distance_snoc. lia.
    + rewrite routes_fuel_snoc by done. lia.
    + apply Forall_app. split; [done|]. by apply Forall_singleton.
  - exists acc. split; [by eapply allocate_stop|done].
Qed.
End totals.

(** On integer vans, what the multi-van allocator returns adds up: as many
    routes as vans, at most three, the vans being the first ones of the
    shortlist and valid, every route starting at the depot, the totals being
    the sums over the routes. *)
Lemma multi_van_totals (van_stats : list Van) (pkgs : list Package) :
  ∃ vans dist fuel rts (k : nat),
    (find_optimal_route_for_multiple_vans van_stats pkgs).2
    = Ok (vans, dist, fuel, rts) ∧
    length vans = length rts ∧ (length vans ≤ 3)%nat ∧
    vans = take k (top_vans (filter valid_van van_stats)) ∧
    Forall valid_van vans ∧
    Forall (λ rt, head rt = Some (0, Start, 0)) rts ∧
    dist = routes_distance rts ∧
    fuel = routes_fuel vans rts.
Proof.
  set (acc0 := {| alloc_fuel := 0; alloc_distance := 0; vans_used := [];
                  routes := [];
                  remaining_packages := filter valid_package pkgs |}).
  destruct (allocate_totals (top_vans (filter valid_van van_stats)) acc0)
    as (acc & Hacc & [Hlen Hdist Hfuel Hstart]).
  { split; simpl; try done. }
  destruct (allocate_prefix (top_vans (filter valid_van van_stats)) acc0)
    as (acc' & k & Hacc' & Hused & _).
  assert (acc' = acc) as -> by congruence.
  destruct (multiple_vans_result van_stats pkgs acc Hacc) as [Hres _].
  simpl in Hused.
  exists (vans_used acc), (alloc_distance acc), (alloc_fuel acc), (routes acc), k.
  split_and!; try done.
  - rewrite Hused. unfold top_vans. rewrite !length_take. lia.
  - rewrite Hused. unfold top_vans.
    apply Forall_forall. intros van Hin.
    apply elem_of_take in Hin as (i & Hi & _).
    apply list_elem_of_lookup_2 in Hi. apply elem_of_take in Hi as (j & Hj & _).
    apply list_elem_of_lookup_2 in Hj. rewrite sorted_perm in Hj.
    by apply list_elem_of_filter in Hj as [? _].
Qed.



(** On integer vans, whenever the single-van optimizer chooses a van, the
    van is a valid van of the input, the route starts at the depot, the
    distance is its walk length and the fuel that distance times the van's
    fuel per unit. *)
Lemma single_van_result_adds_up
    (van_stats : list Van) (pkgs : list Package) (log_not_completed : bool)
    (van : Van) (dist fuel : Z) (rt : list Move) (nc : list Package) :
  (find_optimal_route_for_single_van van_stats pkgs log_not_completed).2
  = Ok (Some van, dist, fuel, rt, nc) →
  valid_van van ∧ van ∈ van_stats ∧
  head rt = Some (0, Start, 0) ∧
  dist = route_distance rt ∧ fuel = dist * van.2 ∧
  0 ≤ dist ∧ 0 ≤ fuel.
Proof.
  intros Hres.
  assert (valid_van van ∧ van ∈ van_stats ∧ head rt = Some (0, Start, 0) ∧
          dist = route_distance rt ∧ fuel = dist * van.2)
    as (Hvalid & Hin & Hhead & Hdist & Hfuel).
  { destruct (decide (filter valid_package pkgs = [])) as [Hnil|Hne].
    - rewrite single_van_result, Hnil in Hres.
      destruct (filter valid_van van_stats) as [|v vans] eqn:Hvans; [done|].
      injection Hres as <- <- <- <- <-.
      assert (v ∈ filter valid_van van_stats) as [??]%list_elem_of_filter
        by (rewrite Hvans; left).
      by split_and!.
    - destruct (single_van_chosen van_stats pkgs log_not_completed Hne)
        as (best & _ & Hchosen & Heq).
      rewrite Heq in Hres. simpl in Hres.
      destruct best as [[[[[v r] d] f] n]|]; [|done].
      injection Hres as -> -> -> -> ->.
      destruct Hchosen as (before & after & st & Hvans & [Hst _] & -> & -> & -> & _).
      destruct (attempt_facts van _ st Hst) as (Hhead & Hdist & Hfuel & _).
      assert (van ∈ filter valid_van van_stats) as [??]%list_elem_of_filter.
      { rewrite Hvans. apply elem_of_app. right. left. }
      by split_and!. }
  split_and!; try done.
  - rewrite Hdist. apply path_length_nonneg.
  - destruct Hvalid as [_ Hpos].
    assert (0 ≤ dist) by (rewrite Hdist; apply path_length_nonneg). nia.
Qed.

(** * Vans with float capacity or fuel per unit *)

(** The filter lets a van through whose capacity or fuel per unit is a
    [float]. On integer vans the program over numbers computes what the
    integer program computes, so what was proved above holds of it there;
    the fuel needs an integer fuel per unit to be exact, and then no
    capacity, integer or float, makes a run fail. Below, a decimal literal
    is the nearest binary64, as Python reads it. *)

#[local] Set Warnings "-inexact-float".

(** ** The two embeddings agree on integer vans *)

Module NumVansAgree.

Lemma init_agree van pkgs :
  NumVans.VanRouter_init (int_van van) pkgs = int_router <$> VanRouter_init van pkgs.
Proof.
  destruct van as [capacity fuel].
  unfold NumVans.VanRouter_init, VanRouter_init, int_van. simpl.
  by destruct (Heapq.heappop_n lt_entry _ _) as [[popped heap]| |].
Qed.

Lemma find_agree st :
  NumVans.find_nearest_valid_move (int_router st) = find_nearest_valid_move st.
Proof.
  unfold NumVans.find_nearest_valid_move, find_nearest_valid_move. simpl.
  replace (filter (λ lw, bool_decide (current_load st + lw.2 ≤ van_capacity st) = true)
             (pickups st))
    with (filter (λ lw, current_load st + lw.2 ≤ van_capacity st) (pickups st)); [done|].
  apply list_filter_iff. intros lw. by rewrite bool_decide_eq_true.
Qed.

Lemma active_agree st : NumVans.active (int_router st) = active st.
Proof. done. Qed.

Lemma no_valid_move_agree st :
  NumVans.no_valid_move (int_router st) = int_router (no_valid_move st).
Proof. done. Qed.

Lemma apply_move_agree st mv :
  NumVans.apply_move (int_router st) mv = int_router <$> apply_move st mv.
Proof.
  destruct mv as [[[dist loc] act] weight].
  unfold NumVans.apply_move, apply_move. simpl.
  destruct (decide (act = Pick)); simpl.
  - destruct (list_remove (loc, weight) (pickups st)); simpl; [|done].
    by destruct (delivery_lookup (packages st) loc).
  - by destruct (list_remove (loc, weight) (deliveries st)).
Qed.

Lemma return_to_depot_agree st :
  NumVans.return_to_depot (int_router st) = Ok (int_router (return_to_depot st)).
Proof. done. Qed.

Lemma loop_agree fuel st :
  NumVans.construct_route_loop fuel (int_router st)
  = int_router <$> construct_route_loop fuel st.
Proof.
  revert st. induction fuel as [|fuel IH]; intros st; simpl;
    rewrite active_agree; destruct (active st); try done.
  rewrite find_agree.
  destruct (find_nearest_valid_move st) as [[mv|]| |]; simpl; try done.
  rewrite apply_move_agree.
  destruct (apply_move st mv) as [st'| |]; simpl; try done.
Qed.

Lemma construct_route_agree st :
  NumVans.construct_route (int_router st) = int_router <$> construct_route st.
Proof. apply loop_agree. Qed.

Lemma attempt_agree van pkgs :
  NumVans.attempt (int_van van) pkgs = int_router <$> attempt van pkgs.
Proof.
  unfold NumVans.attempt, attempt. rewrite init_agree.
  destruct (VanRouter_init van pkgs) as [st0| |]; simpl; try done.
  apply construct_route_agree.
Qed.

(** Turns and runs. *)
Lemma step_agree st n' :
  num_step (int_router st) n' ↔ ∃ st', n' = int_router st' ∧ step st st'.
Proof.
  split.
  - intros [mv Hact Hfind Hmove].
    rewrite active_agree in Hact. rewrite find_agree in Hfind.
    rewrite apply_move_agree in Hmove.
    destruct (apply_move st mv) as [st'| |] eqn:Hst'; simplify_eq/=.
    exists st'. split; [done|]. by exists mv.
  - intros (st' & -> & [mv Hact Hfind Hmove]). exists mv.
    + by rewrite active_agree.
    + by rewrite find_agree.
    + by rewrite apply_move_agree, Hmove.
Qed.

Lemma rtc_agree st n' :
  rtc num_step (int_router st) n' → ∃ st', n' = int_router st' ∧ rtc step st st'.
Proof.
  intros Hrtc. remember (int_router st) as n eqn:Hn. revert st Hn.
  induction Hrtc as [n|n n1 n2 Hstep _ IH]; intros st ->.
  - by exists st.
  - apply step_agree in Hstep as (st1 & -> & Hstep).
    destruct (IH st1 eq_refl) as (st2 & -> & Hrtc).
    exists st2. split; [done|]. by eapply rtc_l.
Qed.

(** The filter. *)
Lemma valid_van_agree van : NumVans.valid_van (int_van van) ↔ valid_van van.
Proof.
  unfold NumVans.valid_van, valid_van, int_van. simpl.
  by rewrite !bool_decide_eq_true.
Qed.

Lemma filter_van_agree (vans : list Van) :
  filter NumVans.valid_van (int_van <$> vans) = int_van <$> filter valid_van vans.
Proof.
  induction vans as [|van vans IH]; [done|]. 
  rewrite fmap_cons, !filter_cons.
  destruct (decide (valid_van van)) as [Hv|Hv];
    destruct (decide (NumVans.valid_van (int_van van))) as [Hn|Hn];
    rewrite valid_van_agree in Hn; try done.
  by rewrite fmap_cons, IH.
Qed.

Lemma filter_agree (vans : list Van) pkgs :
  NumVans.filter_invalid_input (int_van <$> vans) pkgs
  = Logged_map int_filtered (filter_invalid_input vans pkgs).
Proof.
  unfold NumVans.filter_invalid_input, filter_invalid_input. simpl.
  by rewrite filter_van_agree.
Qed.

(** The single-van optimizer. *)
Lemma num_lt_inf z : num_lt (PyInt z) (PyFloat infinity) = true.
Proof. done. Qed.

Lemma fuel_lt_agree fuel best :
  num_lt (PyInt fuel) (NumVans.best_fuel (int_best best)) = fuel_lt fuel (best_fuel best).
Proof. by destruct best as [[[[[van rt] dist] f] nc]|]. Qed.

Lemma try_van_agree pkgs best van :
  NumVans.try_van pkgs (int_best best) (int_van van)
  = int_best <$> try_van pkgs best van.
Proof.
  unfold NumVans.try_van, try_van. rewrite init_agree.
  destruct (VanRouter_init van pkgs) as [st0| |]; simpl; try done.
  rewrite construct_route_agree.
  destruct (construct_route st0) as [st'| |]; simpl; try done.
  change (match NumVans.best_fuel (int_best best) with
          | PyInt y => bool_decide (total_fuel st' < y)
          | PyFloat g => _
          end)
    with (num_lt (PyInt (total_fuel st')) (NumVans.best_fuel (int_best best))).
  rewrite fuel_lt_agree.
  by destruct (fuel_lt _ _ && _).
Qed.

Lemma try_vans_agree pkgs (vans : list Van) best :
  NumVans.try_vans pkgs (int_van <$> vans) (int_best best)
  = int_best <$> try_vans pkgs vans best.
Proof.
  revert best. induction vans as [|van vans IH]; intros best; simpl; [done|].
  rewrite try_van_agree.
  destruct (try_van pkgs best van) as [best'| |]; simpl; try done.
Qed.

Lemma single_agree (vans : list Van) pkgs log_not_completed :
  NumVans.find_optimal_route_for_single_van (int_van <$> vans) pkgs log_not_completed
  = Logged_map int_single
      (find_optimal_route_for_single_van vans pkgs log_not_completed).
Proof.
  unfold NumVans.find_optimal_route_for_single_van, find_optimal_route_for_single_van.
  rewrite filter_agree. unfold filter_invalid_input. 
  unfold mbind, Logged_bind. simpl.
  destruct (filter valid_package pkgs) as [|p ps] eqn:Hps.
  { by destruct (filter valid_van vans). }
  rewrite (try_vans_agree (p :: ps) (filter valid_van vans) None).
  destruct (try_vans (p :: ps) (filter valid_van vans) None)
    as [[[[[[van rt] dist] fuel] nc]|]| |]; simpl; try done.
  - destruct nc, log_not_completed, rt; simpl; done.
Qed.

(** The multi-van allocator. *)
Lemma insert_by_key_agree (van : Van) vans :
  NumVans.insert_by_key snd (int_van van) (int_van <$> vans)
  = int_van <$> insert_by_key snd van vans.
Proof.
  induction vans as [|v vans IH]; [done|].
  rewrite fmap_cons. cbn [NumVans.insert_by_key insert_by_key].
  change (num_lt (int_van v).2 (int_van van).2) with (bool_decide (v.2 < van.2)).
  destruct (decide (v.2 < van.2)) as [Hlt|Hlt].
  - by rewrite bool_decide_eq_true_2, IH.
  - by rewrite bool_decide_eq_false_2.
Qed.

Lemma sorted_agree (vans : list Van) :
  NumVans.sorted snd (int_van <$> vans) = int_van <$> sorted snd vans.
Proof.
  induction vans as [|van vans IH]; [done|].
  rewrite fmap_cons. unfold NumVans.sorted, sorted in *.
  cbn [foldr]. by rewrite IH, insert_by_key_agree.
Qed.

Lemma top_vans_agree (vans : list Van) :
  NumVans.top_vans (int_van <$> vans) = int_van <$> top_vans vans.
Proof. unfold NumVans.top_vans, top_vans. by rewrite sorted_agree, fmap_take. Qed.

Lemma allocate_agree (vans : list Van) acc :
  NumVans.allocate (int_van <$> vans) (int_allocation acc)
  = Logged_map int_allocation (allocate vans acc).
Proof.
  revert acc. induction vans as [|van vans IH]; intros acc; [done|].
  rewrite fmap_cons. cbn [NumVans.allocate allocate].
  cbn [NumVans.remaining_packages int_allocation].
  destruct (remaining_packages acc) as [|p ps] eqn:Hps; [done|].
  change [int_van van] with (int_van <$> [van]). rewrite single_agree.
  destruct (find_optimal_route_for_single_van [van] (p :: ps) false)
    as [log [[[[[best_van dist] fuel] rt] nc]| |]]; try done.
  destruct best_van as [best_van|]; [|done].
  specialize (IH {| alloc_fuel := alloc_fuel acc + fuel;
                    alloc_distance := alloc_distance acc + dist;
                    vans_used := vans_used acc ++ [best_van];
                    routes := routes acc ++ [rt];
                    remaining_packages := nc |}).
  unfold int_allocation in IH at 1. simpl in IH. rewrite fmap_app in IH.
  change (int_van <$> [best_van]) with [int_van best_van] in IH.
  unfold Logged_map, mbind, Logged_bind. simpl. by rewrite IH.
Qed.

Lemma multi_agree (vans : list Van) pkgs :
  NumVans.find_optimal_route_for_multiple_vans (int_van <$> vans) pkgs
  = Logged_map int_multi (find_optimal_route_for_multiple_vans vans pkgs).
Proof.
  pose proof (allocate_agree (top_vans (filter valid_van vans))
                {| alloc_fuel := 0; alloc_distance := 0; vans_used := [];
                   routes := []; remaining_packages := filter valid_package pkgs |})
    as Hacc.
  unfold int_allocation in Hacc at 1. simpl in Hacc.
  unfold NumVans.find_optimal_route_for_multiple_vans,
    find_optimal_route_for_multiple_vans.
  rewrite filter_agree.
  unfold filter_invalid_input, Logged_map, mbind, Logged_bind in *. simpl.
  rewrite top_vans_agree, Hacc. simpl.
  destruct (allocate _ _) as [log [acc| |]]; try done. simpl.
  by destruct (remaining_packages acc).
Qed.

End NumVansAgree.

(** ** Integer vans *)

Section integer_vans.
Import NumVansAgree.

Lemma integer_van_int v : integer_van v ↔ ∃ van, v = int_van van.
Proof.
  split.
  - destruct v as [[c|c] [f|f]]; intros [??]; try done. by exists (c, f).
  - by intros [[c f] ->].
Qed.

Lemma integer_vans_int vs :
  Forall integer_van vs → ∃ vans, vs = int_van <$> vans.
Proof.
  induction 1 as [|v vs [van ->]%integer_van_int _ [vans ->]].
  - by exists [].
  - by exists (van :: vans).
Qed.

#[local] Instance int_van_inj : Inj (=) (=) int_van.
Proof. intros [??] [??] [= -> ->]. done. Qed.

#[local] Instance int_router_inj : Inj (=) (=) int_router.
Proof.
  intros [] []. unfold int_router. simpl. intros [=]. by simplify_eq.
Qed.

Lemma attempt_int van pkgs s :
  NumVans.attempt (int_van van) pkgs = Ok s ↔
  ∃ st, s = int_router st ∧ attempt van pkgs = Ok st.
Proof.
  rewrite attempt_agree. split.
  - destruct (attempt van pkgs) as [st| |]; simpl; intros [=]. by exists st.
  - by intros (st & -> & ->).
Qed.

Lemma successful_int van pkgs s :
  num_successful (int_van van) pkgs s ↔
  ∃ st, s = int_router st ∧ successful van pkgs st.
Proof.
  unfold num_successful, successful. rewrite attempt_int. split.
  - intros [(st & -> & Hst) Hpicked]. by exists st.
  - intros (st & -> & Hst & Hpicked). split; [by exists st|done].
Qed.

Lemma routes_fuel_int (vans : list Van) rts :
  length vans = length rts →
  num_routes_fuel (int_van <$> vans) rts = Ok (PyInt (routes_fuel vans rts)).
Proof.
  revert rts. induction vans as [|van vans IH] using rev_ind; intros rts Hlen.
  { done. }
  destruct rts as [|rt rts _] using rev_ind.
  { rewrite length_app in Hlen. simpl in Hlen. lia. }
  rewrite !length_app in Hlen. simpl in Hlen.
  assert (length vans = length rts) as Hlen' by lia.
  rewrite routes_fuel_snoc by done.
  unfold num_routes_fuel in *. rewrite fmap_app. simpl.
  rewrite zip_with_app by by rewrite length_fmap.
  rewrite foldl_app. by rewrite (IH rts Hlen').
Qed.
End integer_vans.

(** ** Any capacity, integer fuel per unit *)

Section any_capacity.

(** What fits under a capacity fits a fortiori when it is lighter. *)
Lemma num_le_mono c x y :
  x ≤ y → num_le (PyInt y) c = true → num_le (PyInt x) c = true.
Proof.
  intros Hxy. destruct c as [z|f]; simpl.
  { rewrite !bool_decide_eq_true. lia. }
  unfold compare_int_float.
  destruct (Prim2SF f) as [s|[|]| |s m e]; try done.
  - destruct (Z.compare_spec y 0), (Z.compare_spec x 0); try done; lia.
  - destruct (decide (0 ≤ e)).
    + destruct (Z.compare_spec y ((if s then Z.neg m else Z.pos m) * 2 ^ e)),
        (Z.compare_spec x ((if s then Z.neg m else Z.pos m) * 2 ^ e)); try done; lia.
    + assert (0 < 2 ^ (- e)) by (apply Z.pow_pos_nonneg; lia).
      destruct (Z.compare_spec (y * 2 ^ (- e)) (if s then Z.neg m else Z.pos m)),
        (Z.compare_spec (x * 2 ^ (- e)) (if s then Z.neg m else Z.pos m));
        try done; nia.
Qed.

(** On finitely many loads a capacity is as good as an integer one. *)
Lemma capacity_threshold c (l : list Z) :
  ∃ cz, ∀ x, x ∈ l → num_le (PyInt x) c = true ↔ x ≤ cz.
Proof.
  induction l as [|x l [cz IH]].
  { exists 0. by intros x ?%elem_of_nil. }
  destruct (num_le (PyInt x) c) eqn:Hx.
  - exists (cz `max` x). intros y [->|Hy]%elem_of_cons.
    + split; [lia|done].
    + rewrite (IH y Hy). split; [lia|]. intros Hle.
      destruct (decide (y ≤ cz)) as [|Hgt]; [done|].
      apply (IH y Hy). apply (num_le_mono c y x); [lia|done].
  - exists (cz `min` (x - 1)). intros y [->|Hy]%elem_of_cons.
    + rewrite Hx. split; [done|lia].
    + rewrite (IH y Hy). split; [|lia]. intros Hle.
      destruct (decide (y ≤ x - 1)) as [|Hgt]; [lia|].
      apply (IH y Hy) in Hle. apply (num_le_mono c x y) in Hle; [|lia].
      congruence.
Qed.

Lemma find_with_capacity c st :
  ∃ cz,
    NumVans.find_nearest_valid_move (num_router c st)
    = find_nearest_valid_move (with_capacity cz st).
Proof.
  destruct (capacity_threshold c ((λ lw, current_load st + lw.2) <$> pickups st))
    as [cz Hcz].
  exists cz. unfold NumVans.find_nearest_valid_move, find_nearest_valid_move. simpl.
  replace (filter (λ lw : Z * Z, num_le (PyInt (current_load st + lw.2)) c = true)
             (pickups st))
    with (filter (λ lw : Z * Z, current_load st + lw.2 ≤ cz) (pickups st)); [done|].
  clear -Hcz. induction (pickups st) as [|lw l IH]; [done|].
  rewrite !filter_cons.
  rewrite IH by (intros x Hx; apply Hcz; rewrite fmap_cons; by right).
  assert (num_le (PyInt (current_load st + lw.2)) c = true
          ↔ current_load st + lw.2 ≤ cz) as Hlw
    by (apply Hcz; rewrite fmap_cons; left).
  destruct (decide (current_load st + lw.2 ≤ cz)),
    (decide (num_le (PyInt (current_load st + lw.2)) c = true)); try done; tauto.
Qed.

Lemma apply_move_num_router c st mv :
  NumVans.apply_move (num_router c st) mv = num_router c <$> apply_move st mv.
Proof.
  destruct mv as [[[dist loc] act] weight].
  unfold NumVans.apply_move, apply_move. simpl.
  destruct (decide (act = Pick)); simpl.
  - destruct (list_remove (loc, weight) (pickups st)); simpl; [|done].
    by destruct (delivery_lookup (packages st) loc).
  - by destruct (list_remove (loc, weight) (deliveries st)).
Qed.

Lemma apply_move_with_capacity cz st mv :
  apply_move (with_capacity cz st) mv = with_capacity cz <$> apply_move st mv.
Proof.
  destruct mv as [[[dist loc] act] weight].
  unfold apply_move. simpl.
  destruct (decide (act = Pick)); simpl.
  - destruct (list_remove (loc, weight) (pickups st)); simpl; [|done].
    by destruct (delivery_lookup (packages st) loc).
  - by destruct (list_remove (loc, weight) (deliveries st)).
Qed.


Lemma lookup_safe_turn : turn_invariant lookup_safe.
Proof. intros cz st st' Hstep Hsafe. exact (step_lookup_safe _ _ Hstep Hsafe). Qed.

Lemma fuel_exact_turn f :
  turn_invariant (λ st, fuel_exact st ∧ fuel_per_unit st = f).
Proof.
  intros cz st st' Hstep [Hfuel Hf].
  pose proof (step_fuel _ _ Hstep Hfuel) as Hfuel'.
  destruct (step_constants _ _ Hstep) as (_ & Hf' & _).
  split; [done|]. simpl in Hf'. congruence.
Qed.

Lemma ledger_inv_with_capacity cz st : ledger_inv (with_capacity cz st) ↔ ledger_inv st.
Proof. split; intros []; by split. Qed.

Lemma ledger_inv_turn : turn_invariant ledger_inv.
Proof.
  intros cz st st' Hstep Hledger%(ledger_inv_with_capacity cz).
  eapply ledger_inv_with_capacity, step_ledger_inv; done.
Qed.

Lemma turn_invariant_and I J :
  turn_invariant I → turn_invariant J → turn_invariant (λ st, I st ∧ J st).
Proof. intros HI HJ cz st st' Hstep [??]. split; [by eapply HI|by eapply HJ]. Qed.


(** The loop returns, from a router that finds its packages: after some
    turns it leaves through the depot or finds no move. *)
Lemma num_loop_total c I (k : nat) st :
  turn_invariant I → lookup_safe st → I st → 10 - events st ≤ Z.of_nat k →
  ∃ mid st',
    NumVans.construct_route_loop k (num_router c st) = Ok (num_router c st') ∧
    I mid ∧
    (active mid = false ∧ st' = return_to_depot mid ∨
     active mid = true ∧ st' = no_valid_move mid).
Proof.
  intros HI. revert st. induction k as [|k IH]; intros st Hsafe Hst Hk.
  - exists st, (return_to_depot st). simpl.
    change (NumVans.active (num_router c st)) with (active st).
    assert (active st = false) as Hact by (apply not_active_events; lia).
    rewrite Hact. split_and!; [done..|]. by left.
  - simpl. change (NumVans.active (num_router c st)) with (active st).
    destruct (active st) eqn:Hact.
    + destruct (find_with_capacity c st) as [cz Hcz]. rewrite Hcz.
      destruct (find_Ok (with_capacity cz st)) as [[mv|] Hfind]; rewrite Hfind; simpl.
      * destruct (apply_move_Ok (with_capacity cz st) mv Hsafe Hfind) as [st1 Hst1].
        rewrite apply_move_with_capacity in Hst1. rewrite apply_move_num_router.
        destruct (apply_move st mv) as [st'| |] eqn:Hst'; simplify_eq/=.
        assert (step (with_capacity cz st) (with_capacity cz st')) as Hstep.
        { exists mv; [done..|]. by rewrite apply_move_with_capacity, Hst'. }
        pose proof (step_events _ _ Hstep) as Hev.
        apply (IH st'); [by eapply lookup_safe_turn|by eapply HI|].
        unfold events in *. simpl in Hev. lia.
      * exists st, (no_valid_move st). split_and!; [done..|]. by right.
    + exists st, (return_to_depot st). split_and!; [done..|]. by left.
Qed.

(** [__init__] does not look at the van. *)
Lemma init_num_router c cz f pkgs :
  NumVans.VanRouter_init (c, PyInt f) pkgs
  = num_router c <$> VanRouter_init (cz, f) pkgs.
Proof.
  unfold NumVans.VanRouter_init, VanRouter_init. simpl.
  by destruct (Heapq.heappop_n lt_entry _ _) as [[popped heap]| |].
Qed.

Lemma integer_rate_int (van : NumVans.Van) :
  integer_rate van → ∃ f, van = (van.1, PyInt f).
Proof. destruct van as [c [f|f]]; [by exists f|done]. Qed.

(** An attempt with an integer fuel per unit returns. *)
Lemma num_attempt_total c f pkgs I :
  turn_invariant I →
  (∀ st0, VanRouter_init (0, f) pkgs = Ok st0 → I st0) →
  ∃ st0 mid st',
    VanRouter_init (0, f) pkgs = Ok st0 ∧
    NumVans.VanRouter_init (c, PyInt f) pkgs = Ok (num_router c st0) ∧
    NumVans.construct_route (num_router c st0) = Ok (num_router c st') ∧
    I mid ∧
    (active mid = false ∧ st' = return_to_depot mid ∨
     active mid = true ∧ st' = no_valid_move mid).
Proof.
  intros HI Hinit0.
  destruct (VanRouter_init_Ok (0, f) pkgs) as [st0 Hinit].
  destruct (init_fields _ _ _ Hinit) as (_ & _ & _ & _ & Hev & _).
  destruct (num_loop_total c I 10 st0) as (mid & st' & Hrun & Hmid & Hstop);
    [done|by eapply init_safe|by apply Hinit0|lia|].
  exists st0, mid, st'. split_and!; try done.
  by rewrite (init_num_router c 0 f), Hinit.
Qed.
End any_capacity.

(** ** Integer fuel per unit: nothing raises *)

Section integer_rates.

Lemma num_try_van_total pkgs best van :
  integer_rate van → int_totals best →
  ∃ best', NumVans.try_van pkgs best van = Ok best' ∧ int_totals best'.
Proof.
  intros [f Hvan]%integer_rate_int Hbest. destruct van as [c r]. simpl in *.
  injection Hvan as ->.
  destruct (num_attempt_total c f pkgs (λ _, True))
    as (st0 & mid & st' & _ & Hinit & Hrun & _); [done..|].
  unfold NumVans.try_van. rewrite Hinit. simpl. rewrite Hrun. simpl.
  destruct (_ && _); eexists; (split; [done|]); [by right|done].
Qed.

Lemma num_try_vans_total pkgs vans best :
  Forall integer_rate vans → int_totals best →
  ∃ best', NumVans.try_vans pkgs vans best = Ok best' ∧ int_totals best'.
Proof.
  intros Hvans. revert best.
  induction Hvans as [|van vans Hvan _ IH]; intros best Hbest; simpl.
  { by exists best. }
  destruct (num_try_van_total pkgs best van Hvan Hbest) as (best1 & -> & Hbest1).
  simpl. by apply IH.
Qed.

Lemma integer_rate_filter vans :
  Forall integer_rate vans → Forall integer_rate (filter NumVans.valid_van vans).
Proof.
  rewrite !Forall_forall. intros Hvans van [_ Hin]%list_elem_of_filter. by apply Hvans.
Qed.

Lemma num_single_total vans pkgs log_not_completed :
  Forall integer_rate vans →
  ∃ best_van dist fuel rt nc,
    (NumVans.find_optimal_route_for_single_van vans pkgs log_not_completed).2
    = Ok (best_van, PyInt dist, PyInt fuel, rt, nc).
Proof.
  intros Hvans%integer_rate_filter.
  unfold NumVans.find_optimal_route_for_single_van, NumVans.filter_invalid_input,
    mbind, Logged_bind, silent. simpl.
  destruct (filter valid_package pkgs) as [|p ps]; simpl.
  { destruct (filter NumVans.valid_van vans); by repeat eexists. }
  destruct (num_try_vans_total (p :: ps) _ NumVans.no_best Hvans)
    as ([bv [[|m rt]|] bd bf nc] & -> & Hbest); [by left|..]; simpl.
  - destruct nc, log_not_completed; by repeat eexists.
  - destruct Hbest as [[=]|[Hd Hf]]. simpl in *.
    destruct bd as [d|fd]; [|done]. destruct bf as [f|ff]; [|done].
    destruct nc, log_not_completed; by repeat eexists.
  - destruct nc, log_not_completed; by repeat eexists.
Qed.

Lemma num_allocate_total vans acc :
  Forall integer_rate vans →
  is_int (NumVans.alloc_distance acc) = true →
  is_int (NumVans.alloc_fuel acc) = true →
  ∃ acc', (NumVans.allocate vans acc).2 = Ok acc'.
Proof.
  intros Hvans. revert acc.
  induction Hvans as [|van vans Hvan _ IH]; intros acc Hd Hf.
  { by exists acc. }
  cbn [NumVans.allocate].
  destruct (NumVans.remaining_packages acc) as [|p ps]; [by exists acc|].
  destruct (num_single_total [van] (p :: ps) false)
    as (best_van & dist & fuel & rt & nc & Hsingle); [by constructor|].
  unfold mbind at 1, Logged_bind at 1. rewrite Hsingle.
  destruct best_van as [best_van|]; [|by exists acc].
  destruct (NumVans.alloc_distance acc) as [d|?] eqn:Hdist; [|done].
  destruct (NumVans.alloc_fuel acc) as [f|?] eqn:Hfuel; [|done].
  unfold mbind, Logged_bind, silent. simpl.
  destruct (IH {| NumVans.alloc_fuel := PyInt (f + fuel);
                  NumVans.alloc_distance := PyInt (d + dist);
                  NumVans.vans_used := NumVans.vans_used acc ++ [best_van];
                  NumVans.routes := NumVans.routes acc ++ [rt];
                  NumVans.remaining_packages := nc |}) as [acc' Hacc']; [done..|].
  exists acc'. unfold mbind, Logged_bind in Hacc'. by rewrite Hacc'.
Qed.

Lemma num_insert_by_key_Forall {A} (P : A → Prop) key x l :
  P x → Forall P l → Forall P (NumVans.insert_by_key key x l).
Proof.
  intros Hx. induction 1 as [|y l Hy Hl IH]; simpl.
  { by constructor. }
  destruct (num_lt (key y) (key x)); by repeat constructor.
Qed.

Lemma num_sorted_Forall {A} (P : A → Prop) key l :
  Forall P l → Forall P (NumVans.sorted key l).
Proof.
  induction 1 as [|x l Hx Hl IH]; simpl; [done|].
  by apply num_insert_by_key_Forall.
Qed.

Lemma num_multi_total vans pkgs :
  Forall integer_rate vans →
  ∃ r, (NumVans.find_optimal_route_for_multiple_vans vans pkgs).2 = Ok r.
Proof.
  intros Hvans%integer_rate_filter.
  assert (Forall integer_rate (NumVans.top_vans (filter NumVans.valid_van vans)))
    as Htop by by apply Forall_take, num_sorted_Forall.
  unfold NumVans.find_optimal_route_for_multiple_vans, NumVans.filter_invalid_input.
  unfold mbind at 1, Logged_bind at 1. simpl.
  destruct (num_allocate_total _
              {| NumVans.alloc_fuel := PyInt 0; NumVans.alloc_distance := PyInt 0;
                 NumVans.vans_used := []; NumVans.routes := [];
                 NumVans.remaining_packages := filter valid_package pkgs |} Htop)
    as [acc Hacc]; [done..|].
  unfold mbind, Logged_bind. rewrite Hacc. simpl.
  destruct (NumVans.remaining_packages acc); by eexists.
Qed.
End integer_rates.





(** X3: with vans whose fuel per unit is an integer no entry point raises.
    On every package list [__init__] followed by [construct_route], the
    single-van optimizer and the multi-van allocator return a value:
    [list.remove], the [next] lookup of the delivery location and [heappop]
    are only reached where they succeed, and integer arithmetic does not
    overflow. *)
Theorem integer_rates_return
    (van_stats : list NumVans.Van) (pkgs : list Package) (log_not_completed : bool) :
  Forall integer_rate van_stats →
  (∀ van, van ∈ van_stats → ∃ st', NumVans.attempt van pkgs = Ok st') ∧
  (∃ r, (NumVans.find_optimal_route_for_single_van van_stats pkgs log_not_completed).2
        = Ok r) ∧
  (∃ r, (NumVans.find_optimal_route_for_multiple_vans van_stats pkgs).2 = Ok r).
Proof.
  intros Hvans. split_and!.
  - rewrite Forall_forall in Hvans.
    intros van [f Hvan]%Hvans%integer_rate_int. destruct van as [c r]. simpl in *.
    injection Hvan as ->.
    destruct (num_attempt_total c f pkgs (λ _, True))
      as (st0 & mid & st' & _ & Hinit & Hrun & _); [done..|].
    exists (num_router c st'). unfold NumVans.attempt. by rewrite Hinit.
  - destruct (num_single_total van_stats pkgs log_not_completed Hvans)
      as (best_van & dist & fuel & rt & nc & Hres). by eexists.
  - by apply num_multi_total.
Qed.

Lemma integer_rates_return_witness :
  Forall integer_rate [(PyInt 10, PyInt 10); (PyFloat 9.5, PyInt 8)] ∧
  (∃ r, (NumVans.find_optimal_route_for_single_van
           [(PyInt 10, PyInt 10); (PyFloat 9.5, PyInt 8)]
           [(-1, 5, 4); (6, 2, 9); (-2, 9, 3)] true).2 = Ok r) ∧
  (∃ r, (NumVans.find_optimal_route_for_multiple_vans
           [(PyInt 10, PyInt 10); (PyFloat 9.5, PyInt 8)]
           [(-1, 5, 4); (6, 2, 9); (-2, 9, 3)]).2 = Ok r).
Proof.
  assert (Forall integer_rate [(PyInt 10, PyInt 10); (PyFloat 9.5, PyInt 8)]) as Hint
    by (repeat constructor; by vm_compute).
  split; [exact Hint|].
  exact (proj2 (integer_rates_return [(PyInt 10, PyInt 10); (PyFloat 9.5, PyInt 8)]
                  [(-1, 5, 4); (6, 2, 9); (-2, 9, 3)] true Hint)).
Defined.

(** X5: for a van whose fuel per unit is an integer, the distance
    [construct_route] returns is the length of the walk through the
    locations of the route it returns, so it is never negative, and the
    fuel is that length times the van's fuel per unit. A route that stops
    without the [End] move therefore counts no way back to the depot. *)
Theorem integer_rate_distance_and_fuel (van : NumVans.Van) (pkgs : list Package) :
  integer_rate van →
  ∃ st0 st',
    NumVans.VanRouter_init van pkgs = Ok st0 ∧
    NumVans.construct_route st0 = Ok st' ∧
    NumVans.total_distance st' = route_distance (NumVans.route st') ∧
    0 ≤ NumVans.total_distance st' ∧
    num_mul_int (route_distance (NumVans.route st')) van.2
    = Ok (NumVans.total_fuel st').
Proof.
  intros [f Hvan]%integer_rate_int. destruct van as [c r]. simpl in *.
  injection Hvan as ->.
  destruct (num_attempt_total c f pkgs
              (λ st, ledger_inv st ∧ fuel_exact st ∧ fuel_per_unit st = f))
    as (st0 & mid & st' & _ & Hinit & Hrun & (Hledger & Hfuel & Hf) & Hstop).
  { apply turn_invariant_and; [apply ledger_inv_turn|apply fuel_exact_turn]. }
  { intros st0 Hinit. split; [by eapply init_ledger_inv|].
    destruct (init_fields _ _ _ Hinit) as (_ & Hf & Hd & Hfu & _).
    unfold fuel_exact. split; [lia|done]. }
  assert (total_distance st' = route_distance (route st')) as Hdist.
  { destruct Hledger as [_ _ _ Hloc Hd _].
    destruct Hstop as [[_ ->]|[_ ->]]; simpl; [|done].
    rewrite (route_distance_snoc _ (current_location mid)) by done. simpl. lia. }
  assert (total_fuel st' = total_distance st' * f) as Hfuel'.
  { unfold fuel_exact in Hfuel.
    destruct Hstop as [[_ ->]|[_ ->]]; simpl; rewrite ?Hf; lia. }
  exists (num_router c st0), (num_router c st'). simpl.
  split_and!; [done..| |].
  - rewrite Hdist. apply path_length_nonneg.
  - by rewrite Hfuel', Hdist.
Qed.

Lemma integer_rate_distance_and_fuel_witness :
  integer_rate (PyFloat 10.5, PyInt 1) ∧
  ∃ st',
    NumVans.attempt (PyFloat 10.5, PyInt 1) [(1, 2, 5); (3, 4, 20)] = Ok st' ∧
    NumVans.route st' = [(0, Start, 0); (1, Pick, 5); (2, Drop, 5)] ∧
    NumVans.total_distance st' = 2 ∧ NumVans.total_fuel st' = PyInt 2.
Proof.
  assert (integer_rate (PyFloat 10.5, PyInt 1)) as Hvan by (by vm_compute).
  split; [exact Hvan|].
  destruct (integer_rate_distance_and_fuel (PyFloat 10.5, PyInt 1)
              [(1, 2, 5); (3, 4, 20)] Hvan)
    as (st0 & st' & Hinit & Hrun & _).
  exists st'. unfold NumVans.attempt. rewrite Hinit. simpl.
  split; [exact Hrun|].
  vm_compute in Hinit. injection Hinit as <-.
  vm_compute in Hrun. injection Hrun as <-. split_and!; reflexivity.
Defined.

(** X9: with vans of integer capacity and fuel per unit and some valid
    package, the single-van optimizer returns the attempt of the cheapest
    successful van. If it chooses a van, that van is a valid van of the input
    whose attempt picked something up, the distance, fuel, route and
    not-completed list returned are those of that attempt, every earlier
    valid van with a successful attempt needs strictly more fuel, and every
    later one at least as much. If it chooses none, then no valid van's
    attempt picked anything up, and the valid packages are returned. *)
Theorem cheapest_integer_van
    (van_stats : list NumVans.Van) (pkgs : list Package) (log_not_completed : bool) :
  Forall integer_van van_stats → filter valid_package pkgs ≠ [] →
  ∃ best_van dist fuel rt nc,
    (NumVans.find_optimal_route_for_single_van van_stats pkgs log_not_completed).2
    = Ok (best_van, dist, fuel, rt, nc) ∧
    match best_van with
    | Some van =>
      ∃ before after st,
        filter NumVans.valid_van van_stats = before ++ van :: after ∧
        num_successful van (filter valid_package pkgs) st ∧
        rt = NumVans.route st ∧ dist = PyInt (NumVans.total_distance st) ∧
        fuel = NumVans.total_fuel st ∧ nc = NumVans.not_completed st ∧
        (∀ v s, v ∈ before → num_successful v (filter valid_package pkgs) s →
                num_lt fuel (NumVans.total_fuel s) = true) ∧
        (∀ v s, v ∈ after → num_successful v (filter valid_package pkgs) s →
                num_le fuel (NumVans.total_fuel s) = true)
    | None =>
      (dist, fuel, rt, nc) = (PyInt 0, PyInt 0, [], filter valid_package pkgs) ∧
      ∀ van st, van ∈ filter NumVans.valid_van van_stats →
                NumVans.attempt van (filter valid_package pkgs) = Ok st →
                NumVans.picked_up_packages st = 0
    end.
Proof.
  intros [vans ->]%integer_vans_int Hne.
  destruct (best_van_is_cheapest vans pkgs log_not_completed Hne)
    as (best_van & dist & fuel & rt & nc & Hres & Hbest).
  exists (int_van <$> best_van), (PyInt dist), (PyInt fuel), rt, nc.
  rewrite NumVansAgree.single_agree, NumVansAgree.filter_van_agree.
  unfold Logged_map. cbn [snd]. rewrite Hres. split; [done|].
  destruct best_van as [van|]; simpl.
  - destruct Hbest as (before & after & st & Hvans & Hst & -> & -> & -> & -> & Hlt & Hle).
    exists (int_van <$> before), (int_van <$> after), (int_router st).
    rewrite Hvans, fmap_app, fmap_cons. split_and!; try done.
    + apply successful_int. by exists st.
    + intros v' s' (v & -> & Hv)%list_elem_of_fmap (s & -> & Hs)%successful_int.
      simpl. apply bool_decide_eq_true. by apply (Hlt v s).
    + intros v' s' (v & -> & Hv)%list_elem_of_fmap (s & -> & Hs)%successful_int.
      simpl. apply bool_decide_eq_true. by apply (Hle v s).
  - destruct Hbest as [[= -> -> -> ->] Hnone]. split; [done|].
    intros van' st' (van & -> & Hvan)%list_elem_of_fmap (st & -> & Hst)%attempt_int.
    simpl. by apply (Hnone van st).
Qed.

Lemma cheapest_integer_van_witness :
  Forall integer_van [(PyInt 10, PyInt 10); (PyInt 9, PyInt 8)] ∧
  filter valid_package [(-1, 5, 4); (6, 2, 9); (-2, 9, 3)] ≠ [] ∧
  ∃ before after st,
    filter NumVans.valid_van [(PyInt 10, PyInt 10); (PyInt 9, PyInt 8)]
    = before ++ (PyInt 9, PyInt 8) :: after ∧
    num_successful (PyInt 9, PyInt 8)
      (filter valid_package [(-1, 5, 4); (6, 2, 9); (-2, 9, 3)]) st ∧
    NumVans.total_fuel st = PyInt 176 ∧
    ∀ v s, v ∈ before →
           num_successful v (filter valid_package [(-1, 5, 4); (6, 2, 9); (-2, 9, 3)]) s →
           num_lt (PyInt 176) (NumVans.total_fuel s) = true.
Proof.
  assert (Forall integer_van [(PyInt 10, PyInt 10); (PyInt 9, PyInt 8)]) as Hint
    by (repeat constructor; by vm_compute).
  assert (filter valid_package [(-1, 5, 4); (6, 2, 9); (-2, 9, 3)] ≠ []) as Hne
    by (by vm_compute).
  split; [exact Hint|]. split; [exact Hne|].
  destruct (cheapest_integer_van [(PyInt 10, PyInt 10); (PyInt 9, PyInt 8)]
              [(-1, 5, 4); (6, 2, 9); (-2, 9, 3)] true Hint Hne)
    as (best_van & dist & fuel & rt & nc & Hres & Hbest).
  vm_compute in Hres. injection Hres as <- <- <- <- <-.
  destruct Hbest as (before & after & st & Hvans & Hst & _ & _ & Hfuel & _ & Hbefore & _).
  exists before, after, st. by rewrite <-Hfuel.
Defined.

(** X13: with vans of integer capacity and fuel per unit, what the
    multi-van allocator returns adds up. It returns as many routes as vans,
    at most three, the vans being the first ones of the shortlist and valid;
    every route starts with [(0, Start, 0)]; the total distance is the sum of
    the walk lengths of the routes, and the total fuel the sum of each
    route's walk length times the fuel per unit of its van. *)
Theorem integer_vans_totals (van_stats : list NumVans.Van) (pkgs : list Package) :
  Forall integer_van van_stats →
  ∃ vans dist fuel rts (k : nat),
    (NumVans.find_optimal_route_for_multiple_vans van_stats pkgs).2
    = Ok (vans, dist, fuel, rts) ∧
    length vans = length rts ∧ (length vans ≤ 3)%nat ∧
    vans = take k (NumVans.top_vans (filter NumVans.valid_van van_stats)) ∧
    Forall NumVans.valid_van vans ∧
    Forall (λ rt, head rt = Some (0, Start, 0)) rts ∧
    dist = PyInt (routes_distance rts) ∧
    num_routes_fuel vans rts = Ok fuel.
Proof.
  intros [ivans ->]%integer_vans_int.
  destruct (multi_van_totals ivans pkgs)
    as (vans & dist & fuel & rts & k & Hres & Hlen & Hle & Hvans & Hvalid & Hstart
        & Hdist & Hfuel).
  exists (int_van <$> vans), (PyInt dist), (PyInt fuel), rts, k.
  rewrite NumVansAgree.multi_agree, NumVansAgree.filter_van_agree,
    NumVansAgree.top_vans_agree.
  unfold Logged_map. cbn [snd]. rewrite Hres, length_fmap.
  split_and!; try done.
  - by rewrite <-fmap_take, <-Hvans.
  - apply Forall_fmap. eapply Forall_impl; [done|].
    intros van. apply NumVansAgree.valid_van_agree.
  - by rewrite Hdist.
  - by rewrite routes_fuel_int, Hfuel.
Qed.

Lemma integer_vans_totals_witness :
  Forall integer_van [(PyInt 10, PyInt 1); (PyInt 30, PyInt 2)] ∧
  (NumVans.find_optimal_route_for_multiple_vans
     [(PyInt 10, PyInt 1); (PyInt 30, PyInt 2)] [(1, 2, 5); (3, 4, 20)]).2
  = Ok ([(PyInt 10, PyInt 1); (PyInt 30, PyInt 2)], PyInt 2, PyInt 2,
        [[(0, Start, 0); (1, Pick, 5); (2, Drop, 5)]; [(0, Start, 0); (0, End, 0)]]) ∧
  num_routes_fuel [(PyInt 10, PyInt 1); (PyInt 30, PyInt 2)]
    [[(0, Start, 0); (1, Pick, 5); (2, Drop, 5)]; [(0, Start, 0); (0, End, 0)]]
  = Ok (PyInt 2).
Proof.
  assert (Forall integer_van [(PyInt 10, PyInt 1); (PyInt 30, PyInt 2)]) as Hint
    by (repeat constructor; by vm_compute).
  split; [exact Hint|].
  destruct (integer_vans_totals [(PyInt 10, PyInt 1); (PyInt 30, PyInt 2)]
              [(1, 2, 5); (3, 4, 20)] Hint)
    as (vans & dist & fuel & rts & k & Hres & _ & _ & _ & _ & _ & _ & Hfuel).
  vm_compute in Hres. injection Hres as <- <- <- <-.
  split; [reflexivity|exact Hfuel].
Defined.

(** X15: with vans of integer capacity and fuel per unit, whenever the
    single-van optimizer chooses a van, what it returns adds up: the van is a
    valid van of the input, the route starts with [(0, Start, 0)], the
    distance is the walk length of the route, hence not negative, and the
    fuel is that distance times the van's fuel per unit, hence not negative
    either. *)
Theorem integer_van_result_adds_up
    (van_stats : list NumVans.Van) (pkgs : list Package) (log_not_completed : bool)
    (van : NumVans.Van) (dist fuel : num) (rt : list Move) (nc : list Package) :
  Forall integer_van van_stats →
  (NumVans.find_optimal_route_for_single_van van_stats pkgs log_not_completed).2
  = Ok (Some van, dist, fuel, rt, nc) →
  NumVans.valid_van van ∧ van ∈ van_stats ∧
  head rt = Some (0, Start, 0) ∧
  dist = PyInt (route_distance rt) ∧
  num_mul_int (route_distance rt) van.2 = Ok fuel ∧
  0 ≤ route_distance rt ∧ num_le (PyInt 0) fuel = true.
Proof.
  intros [vans ->]%integer_vans_int.
  rewrite NumVansAgree.single_agree. unfold Logged_map. cbn [snd].
  destruct (find_optimal_route_for_single_van vans pkgs log_not_completed).2
    as [[[[[[v|] d] f] r] n]| |] eqn:Hres; simpl; intros [=]; subst.
  destruct (single_van_result_adds_up vans pkgs log_not_completed v d f rt nc Hres)
    as (Hvalid & Hin & Hhead & -> & -> & Hd & Hf).
  split_and!; try done.
  - by apply NumVansAgree.valid_van_agree.
  - by apply list_elem_of_fmap_2.
  - simpl. by apply bool_decide_eq_true.
Qed.

Lemma integer_van_result_adds_up_witness :
  Forall integer_van [(PyInt 10, PyInt 1)] ∧
  (NumVans.find_optimal_route_for_single_van
     [(PyInt 10, PyInt 1)] [(1, 2, 5); (3, 4, 20)] false).2
  = Ok (Some (PyInt 10, PyInt 1), PyInt 2, PyInt 2,
        [(0, Start, 0); (1, Pick, 5); (2, Drop, 5)], [(3, 3, 20)]) ∧
  PyInt 2 = PyInt (route_distance [(0, Start, 0); (1, Pick, 5); (2, Drop, 5)]) ∧
  num_mul_int (route_distance [(0, Start, 0); (1, Pick, 5); (2, Drop, 5)]) (PyInt 1)
  = Ok (PyInt 2).
Proof.
  assert (Forall integer_van [(PyInt 10, PyInt 1)]) as Hint
    by (repeat constructor; by vm_compute).
  assert ((NumVans.find_optimal_route_for_single_van
             [(PyInt 10, PyInt 1)] [(1, 2, 5); (3, 4, 20)] false).2
          = Ok (Some (PyInt 10, PyInt 1), PyInt 2, PyInt 2,
                [(0, Start, 0); (1, Pick, 5); (2, Drop, 5)], [(3, 3, 20)])) as Hres
    by (by vm_compute).
  split; [exact Hint|]. split; [exact Hres|].
  destruct (integer_van_result_adds_up _ _ _ _ _ _ _ _ Hint Hres)
    as (_ & _ & _ & Hdist & Hfuel & _).
  split; [exact Hdist|exact Hfuel].
Defined.

(** X16: with a float fuel per unit the fuel update can raise. The product
    [dist * self.fuel_per_unit] converts the distance to a float first, and
    a distance of [2 ^ 1024] is too large for one: for the valid van
    [(10, 0.5)] and the valid package [(2 ^ 1024, 0, 1)] the first move
    raises [OverflowError], out of [construct_route] and out of both
    optimizers. *)
Theorem float_rate_overflow :
  NumVans.valid_van (PyInt 10, PyFloat 0.5) ∧ valid_package (2 ^ 1024, 0, 1) ∧
  (∃ st0,
     NumVans.VanRouter_init (PyInt 10, PyFloat 0.5) [(2 ^ 1024, 0, 1)] = Ok st0 ∧
     NumVans.find_nearest_valid_move st0 = Ok (Some (2 ^ 1024, 2 ^ 1024, Pick, 1)) ∧
     NumVans.construct_route st0 = Raise OverflowError) ∧
  (NumVans.find_optimal_route_for_single_van
     [(PyInt 10, PyFloat 0.5)] [(2 ^ 1024, 0, 1)] true).2 = Raise OverflowError ∧
  (NumVans.find_optimal_route_for_multiple_vans
     [(PyInt 10, PyFloat 0.5)] [(2 ^ 1024, 0, 1)]).2 = Raise OverflowError.
Proof.
  split; [by vm_compute|]. split; [by vm_compute|]. split.
  { eexists. split; [by vm_compute|]. by vm_compute. }
  split; by vm_compute.
Qed.

